(** * GameSystems-Portfolio: the bookkeeping of the four manager subsystems

    A shallow embedding of the state each manager keeps and of the functions
    that update it:

    - [Streaming]: [ATLDLevelStreamingManager] (TLDLevelStreamingManager.cpp)
    - [UI]:        [UTLDUIManager]             (TLDUIManager.cpp)
    - [Cinematic]: [UTLDCinematicManager]      (Source/TLDCinematicManager.cpp,
                                                Source/TLDCinematicConfig.cpp)
    - [Audio]:     [UTLDAudioManager]          (TLDAudioManager.cpp)

    Conventions.  Every manager method becomes a function from the manager's
    fields (a record) to the new fields, together with the list of engine
    calls it makes, in program order.  What a method asks the engine
    ([IsLevelLoaded], [GetWorld], [LoadSynchronous], ...) is read from a
    record of answers, named [Engine] in each module, that is an argument of
    the method: the engine owns those values and may answer differently on
    every call of a method.  Pointers are [option]s of handles, [nullptr]
    being [None].  [float] is IEEE binary32, through the Standard Library's
    [spec_float].  [UE_LOG] and the presentation macros only print and are
    left out. *)

From Stdlib Require Import ZArith List Bool Ascii String Floats.SpecFloat.
From Stdlib Require QArith Qabs.
From stdpp Require Import gmap strings list.

(** ** binary32 *)

Module Float32.

Definition float : Type := spec_float.
Definition prec : Z := 24.
Definition emax : Z := 128.

(** The literals [0.f] and [1.f]. *)
Definition zero : float := S754_zero false.
Definition one : float := Eval vm_compute in SFone prec emax.

Definition sub : float → float → float := SFsub prec emax.
Definition div : float → float → float := SFdiv prec emax.
(** [a < b], [a <= b], [a > b] of C++: all false on a NaN. *)
Definition ltb : float → float → bool := SFltb.
Definition leb : float → float → bool := SFleb.
Definition gtb (a b : float) : bool := SFltb b a.

(** [FMath::Min], [FMath::Max] and [FMath::Clamp] are engine templates
    (UnrealMathUtility.h); they are written here as the engine has them:
    [Min(A,B) = (A < B) ? A : B], [Max(A,B) = (B < A) ? A : B],
    [Clamp(X,Lo,Hi) = Max(Min(X,Hi),Lo)]. *)
Definition Min (A B : float) : float := if ltb A B then A else B.
Definition Max (A B : float) : float := if ltb B A then A else B.
Definition Clamp (X Lo Hi : float) : float := Max (Min X Hi) Lo.

(** Small literals for examples: [of_Z n] is the binary32 nearest to the
    integer [n]. *)
Definition of_Z (n : Z) : float := binary_normalize prec emax n 0 false.

(** The rational number that a finite float stands for: its mantissa times
    two to its exponent. *)
Definition to_Q (x : float) : option QArith_base.Q :=
  match x with
  | S754_zero _ => Some (QArith_base.inject_Z 0)
  | S754_finite s m e =>
      Some (QArith_base.Qmult
              (QArith_base.inject_Z (if s then Z.neg m else Z.pos m))
              (QArith_base.Qpower (QArith_base.inject_Z 2) e))
  | S754_infinity _ | S754_nan => None
  end.

(** The float [x] is the whole number [n], exactly. *)
Definition is_whole (x : float) (n : Z) : Prop :=
  ∃ q, to_Q x = Some q ∧ QArith_base.Qeq q (QArith_base.inject_Z n).

End Float32.

(** ** FString *)

Module FString.

Definition FString : Type := string.

Definition IsEmpty (s : FString) : bool := bool_decide (s = EmptyString).

Definition to_lower (c : ascii) : ascii :=
  let n := nat_of_ascii c in
  if (65 <=? n)%nat && (n <=? 90)%nat then ascii_of_nat (n + 32) else c.

Fixpoint lower (s : FString) : FString :=
  match s with
  | EmptyString => EmptyString
  | String c r => String (to_lower c) (lower r)
  end.

(** [FString::Equals(_, ESearchCase::IgnoreCase)], and [operator==] of two
    [FString]s, which ignores case as well; on the letters A-Z. *)
Definition EqualsIgnoreCase (a b : FString) : bool :=
  bool_decide (lower a = lower b).

(** A text in lower case stays as it is. *)
Definition to_lower_to_lower (c : ascii) : to_lower (to_lower c) = to_lower c.
Proof. by destruct c as [[] [] [] [] [] [] [] []]. Qed.

Definition lower_lower (s : FString) : lower (lower s) = lower s.
Proof.
  induction s as [|c s IH]; [done|].
  cbn [lower]. by rewrite to_lower_to_lower, IH.
Qed.

End FString.

(** ** Level streaming: TLDLevelStreamingManager.cpp *)

Module Streaming.
Import Float32 FString.

(** [ETLDChunkState]. *)
Inductive ETLDChunkState : Type :=
| Unloaded | Loading | LoadedHidden | Visible.

#[global] Instance ETLDChunkState_eq_dec : EqDecision ETLDChunkState.
Proof. solve_decision. Defined.

(** [FName]: a name.  The engine compares names ignoring case
    ([FName::operator==] compares the entries of the name table, which holds
    one entry for all the spellings of a text), the name made from the empty
    text is [NAME_None], and so is the name made from "None" in any case.  A
    name is held here as its text in lower case: two names are then equal as
    values exactly when the engine finds them equal, and this is the equality
    that [TMap<FName, ...>::Find], [TArray<FName>::AddUnique] and
    [FName::IsNone] use below. *)
Definition FName : Type := dsig (λ s : FString, lower s = s).

(** A proof of a boolean fact that computes. *)
Definition Is_true_compute (b : bool) : Is_true b → Is_true b :=
  match b with
  | true => λ _, I
  | false => λ H, H
  end.

(** [FName(Text)]: "Cave", "cave" and "CAVE" make one name; the empty text
    and "None" in any case make [NAME_None]. *)
Definition MakeFName (Text : FString) : FName :=
  let s := if IsEmpty Text then "None"%string else Text in
  lower s ↾ Is_true_compute _ (bool_decide_pack _ (lower_lower s)).

(** [Name.ToString()], up to the case of its letters: the text is only
    compared ignoring case. *)
Definition ToString (n : FName) : FString := `n.

Definition NAME_None : FName := MakeFName "None".
(** [Name.IsNone()] *)
Definition IsNone (n : FName) : bool := bool_decide (n = NAME_None).

(** A [ULevelStreaming*] that is not null. *)
Definition LevelStreaming : Type := positive.

(** [FTLDChunkRecord]: the fields the manager reads and writes. *)
Record FTLDChunkRecord : Type := mkRecord {
  LevelName : FName;
  State : ETLDChunkState;
  Streaming : option LevelStreaming;
  WarmUpSeconds : float
}.

Definition set_State (s : ETLDChunkState) (Rec : FTLDChunkRecord) :=
  mkRecord (LevelName Rec) s (Streaming Rec) (WarmUpSeconds Rec).
Definition set_Streaming (p : option LevelStreaming) (Rec : FTLDChunkRecord) :=
  mkRecord (LevelName Rec) (State Rec) p (WarmUpSeconds Rec).
Definition set_WarmUpSeconds (t : float) (Rec : FTLDChunkRecord) :=
  mkRecord (LevelName Rec) (State Rec) (Streaming Rec) t.

(** The requests the manager sends to a streaming level. *)
Inductive EngineCall : Type :=
| SetShouldBeLoaded (SL : LevelStreaming) (b : bool)
| SetShouldBeVisible (SL : LevelStreaming) (b : bool).

(** What [GetWorld()] gives when it is not null. *)
Record UWorld : Type := mkWorld {
  (** [UGameplayStatics::GetStreamingLevel(World, Name)] *)
  GetStreamingLevel : FName → option LevelStreaming;
  (** [World->GetStreamingLevels()]; entries may be null *)
  GetStreamingLevels : list (option LevelStreaming);
  (** [FPackageName::GetShortName(SL->GetWorldAssetPackageFName())] *)
  GetShortName : LevelStreaming → string
}.

Record Engine : Type := mkEngine {
  GetWorld : option UWorld;
  IsLevelLoaded : LevelStreaming → bool;
  IsLevelVisible : LevelStreaming → bool
}.

(** The loop of METHOD 2 in [FindStreamingLevelByName]. *)
Fixpoint search_levels (W : UWorld) (LevelName : FName)
    (levels : list (option LevelStreaming)) : option LevelStreaming :=
  match levels with
  | [] => None
  | None :: rest => search_levels W LevelName rest
  | Some SL :: rest =>
      if EqualsIgnoreCase (GetShortName W SL) (ToString LevelName) then Some SL
      else search_levels W LevelName rest
  end.

Definition FindStreamingLevelByName (E : Engine) (LevelName : FName)
    : option LevelStreaming :=
  match GetWorld E with
  | None => None
  | Some W =>
      match GetStreamingLevel W LevelName with
      | Some Found => Some Found
      | None => search_levels W LevelName (GetStreamingLevels W)
      end
  end.

(** [if (!Rec.Streaming) Rec.Streaming = FindStreamingLevelByName(...)] *)
Definition resolve_Streaming (E : Engine) (Rec : FTLDChunkRecord)
    : FTLDChunkRecord :=
  match Streaming Rec with
  | Some _ => Rec
  | None => set_Streaming (FindStreamingLevelByName E (LevelName Rec)) Rec
  end.

Definition ApplyLoad (E : Engine) (Rec : FTLDChunkRecord)
    (bMakeVisibleAfterLoad : bool) (WarmUp : float)
    : FTLDChunkRecord * list EngineCall :=
  let Rec := resolve_Streaming E Rec in
  match Streaming Rec with
  | None => (Rec, [])
  | Some SL =>
      if IsLevelLoaded E SL then
        let bShowNow := bMakeVisibleAfterLoad && leb WarmUp zero in
        (set_WarmUpSeconds
           (if bMakeVisibleAfterLoad && gtb WarmUp zero then WarmUp else zero)
           (set_State (if bShowNow then Visible else LoadedHidden) Rec),
         [SetShouldBeVisible SL bShowNow])
      else
        let bRequestVisibleNow := bMakeVisibleAfterLoad && leb WarmUp zero in
        (set_WarmUpSeconds
           (if bMakeVisibleAfterLoad then Max zero WarmUp else zero)
           (set_State (if bRequestVisibleNow then Visible else Loading) Rec),
         [SetShouldBeLoaded SL true; SetShouldBeVisible SL bRequestVisibleNow])
  end.

Definition ApplyUnload (E : Engine) (Rec : FTLDChunkRecord)
    : FTLDChunkRecord * list EngineCall :=
  let Rec := resolve_Streaming E Rec in
  match Streaming Rec with
  | None => (set_State Unloaded Rec, [])
  | Some SL =>
      (set_WarmUpSeconds zero (set_State Unloaded Rec),
       [SetShouldBeVisible SL false; SetShouldBeLoaded SL false])
  end.

Definition ApplyVisibility (E : Engine) (Rec : FTLDChunkRecord)
    (bVisible : bool) : FTLDChunkRecord * list EngineCall :=
  let Rec := resolve_Streaming E Rec in
  match Streaming Rec with
  | None => (Rec, [])
  | Some SL =>
      if negb (IsLevelLoaded E SL) then
        (set_State Loading Rec,
         [SetShouldBeLoaded SL true; SetShouldBeVisible SL false])
      else
        (set_WarmUpSeconds zero
           (set_State (if bVisible then Visible else LoadedHidden) Rec),
         [SetShouldBeVisible SL bVisible])
  end.

(** The body of the loop of [Tick], for one record. *)
Definition TickRecord (E : Engine) (DeltaTime : float)
    (Rec : FTLDChunkRecord) : FTLDChunkRecord * list EngineCall :=
  let Rec :=
    if bool_decide (State Rec = Loading)
       && match Streaming Rec with
          | Some SL => IsLevelLoaded E SL
          | None => false
          end
    then set_State LoadedHidden Rec
    else Rec in
  if bool_decide (State Rec = LoadedHidden) && gtb (WarmUpSeconds Rec) zero
  then
    let Rec := set_WarmUpSeconds (sub (WarmUpSeconds Rec) DeltaTime) Rec in
    if leb (WarmUpSeconds Rec) zero
    then ApplyVisibility E Rec true
    else (Rec, [])
  else (Rec, []).

(** [ChunkRecords] is a [TMap<FName, FTLDChunkRecord>] from which nothing is
    ever removed: its pairs stay in the order in which they were added, and
    that is the order in which [Tick] visits them. *)
Definition TMap : Type := list (FName * FTLDChunkRecord).

(** [TMap::Find]: the keys are compared as names are, ignoring case. *)
Fixpoint Find (Key : FName) (M : TMap) : option FTLDChunkRecord :=
  match M with
  | [] => None
  | (k, Rec) :: rest => if bool_decide (k = Key) then Some Rec else Find Key rest
  end.

(** [TMap::Add]: replaces the value of a key that is present, under any
    spelling of it. *)
Fixpoint Add (Key : FName) (Rec : FTLDChunkRecord) (M : TMap) : TMap :=
  match M with
  | [] => [(Key, Rec)]
  | (k, r) :: rest =>
      if bool_decide (k = Key) then (k, Rec) :: rest
      else (k, r) :: Add Key Rec rest
  end.

Record Manager : Type := mkManager { ChunkRecords : TMap }.

Fixpoint TickRecords (E : Engine) (DeltaTime : float) (M : TMap)
    : TMap * list EngineCall :=
  match M with
  | [] => ([], [])
  | (k, Rec) :: rest =>
      let '(Rec', calls) := TickRecord E DeltaTime Rec in
      let '(rest', calls') := TickRecords E DeltaTime rest in
      ((k, Rec') :: rest', calls ++ calls')
  end.

Definition Tick (E : Engine) (DeltaTime : float) (Mgr : Manager)
    : Manager * list EngineCall :=
  let '(M, calls) := TickRecords E DeltaTime (ChunkRecords Mgr) in
  (mkManager M, calls).

(** [GetOrAddRecord].  A new record keeps, for [WarmUpSeconds], the member
    initialiser of the struct, which is declared in TLDLevelStreamingManager.h;
    the header is not among the sources, so the value is an argument. *)
Definition GetOrAddRecord (DefaultWarmUp : float) (E : Engine)
    (LevelName : FName) (Mgr : Manager) : FTLDChunkRecord * Manager :=
  match Find LevelName (ChunkRecords Mgr) with
  | Some Existing => (Existing, Mgr)
  | None =>
      let NewRec :=
        mkRecord LevelName Unloaded (FindStreamingLevelByName E LevelName)
                 DefaultWarmUp in
      (NewRec, mkManager (Add LevelName NewRec (ChunkRecords Mgr)))
  end.

(** A method applied to the record that [GetOrAddRecord] returns by
    reference: the result is written back under the same key. *)
Definition on_record (DefaultWarmUp : float) (E : Engine) (LevelName : FName)
    (f : FTLDChunkRecord → FTLDChunkRecord * list EngineCall)
    (Mgr : Manager) : Manager * list EngineCall :=
  let '(Rec, Mgr) := GetOrAddRecord DefaultWarmUp E LevelName Mgr in
  let '(Rec', calls) := f Rec in
  (mkManager (Add LevelName Rec' (ChunkRecords Mgr)), calls).

Definition LoadChunkAsync (DefaultWarmUp : float) (E : Engine)
    (LevelName : FName) (bMakeVisibleAfterLoad : bool) (WarmUp : float)
    (Mgr : Manager) : Manager * list EngineCall :=
  if IsNone LevelName then (Mgr, [])
  else on_record DefaultWarmUp E LevelName
         (λ Rec, ApplyLoad E Rec bMakeVisibleAfterLoad WarmUp) Mgr.

Definition UnloadChunkAsync (DefaultWarmUp : float) (E : Engine)
    (LevelName : FName) (Mgr : Manager) : Manager * list EngineCall :=
  if IsNone LevelName then (Mgr, [])
  else on_record DefaultWarmUp E LevelName (ApplyUnload E) Mgr.

Definition SetChunkVisible (DefaultWarmUp : float) (E : Engine)
    (LevelName : FName) (bVisible : bool) (Mgr : Manager)
    : Manager * list EngineCall :=
  if IsNone LevelName then (Mgr, [])
  else on_record DefaultWarmUp E LevelName
         (λ Rec, ApplyVisibility E Rec bVisible) Mgr.

Definition IsChunkLoaded (E : Engine) (LevelName : FName) (Mgr : Manager)
    : bool :=
  match Find LevelName (ChunkRecords Mgr) with
  | Some Rec =>
      bool_decide (State Rec = LoadedHidden) || bool_decide (State Rec = Visible)
  | None =>
      match FindStreamingLevelByName E LevelName with
      | Some SL => IsLevelLoaded E SL
      | None => false
      end
  end.

Definition IsChunkVisible (E : Engine) (LevelName : FName) (Mgr : Manager)
    : bool :=
  match Find LevelName (ChunkRecords Mgr) with
  | Some Rec => bool_decide (State Rec = Visible)
  | None =>
      match FindStreamingLevelByName E LevelName with
      | Some SL => IsLevelVisible E SL
      | None => false
      end
  end.

(** The streaming object a method works on for the chunk [LevelName]: the one
    cached in its record, or the one that [FindStreamingLevelByName] gives. *)
Definition chunk_streaming (E : Engine) (LevelName : FName) (Mgr : Manager)
    : option LevelStreaming :=
  match Find LevelName (ChunkRecords Mgr) with
  | Some Rec => Streaming (resolve_Streaming E Rec)
  | None => FindStreamingLevelByName E LevelName
  end.

(** What a frame does to a record that is loaded and hidden, told the way
    the claim tells it.  With no warm-up pending the record stays as it is.
    Otherwise the timer is decremented by the frame delta and stored; when
    it is then zero or below, the level is shown if its streaming level
    reports loaded (the record becomes Visible, the timer is cleared) and
    else the load is requested again with visibility off and the record
    goes back to Loading; a record with no streaming level stays hidden. *)
Definition warm_up_frame (E : Engine) (DeltaTime : float)
    (Rec Rec' : FTLDChunkRecord) (calls : list EngineCall) : Prop :=
  if gtb (WarmUpSeconds Rec) zero then
    let Left := sub (WarmUpSeconds Rec) DeltaTime in
    if leb Left zero then
      match Streaming (resolve_Streaming E Rec) with
      | Some SL =>
          if IsLevelLoaded E SL
          then Rec' = mkRecord (LevelName Rec) Visible (Some SL) zero
               ∧ calls = [SetShouldBeVisible SL true]
          else Rec' = mkRecord (LevelName Rec) Loading (Some SL) Left
               ∧ calls = [SetShouldBeLoaded SL true; SetShouldBeVisible SL false]
      | None =>
          Rec' = mkRecord (LevelName Rec) LoadedHidden None Left ∧ calls = []
      end
    else Rec' = mkRecord (LevelName Rec) LoadedHidden (Streaming Rec) Left
         ∧ calls = []
  else Rec' = mkRecord (LevelName Rec) LoadedHidden (Streaming Rec)
                       (WarmUpSeconds Rec)
       ∧ calls = [].

(** The same for any record, by the state it is in: a frame leaves a record
    that is Unloaded or Visible alone, and one that is Loading as long as its
    streaming level does not report loaded; once it does, the record is
    loaded and hidden and the frame goes on as above. *)
Definition frame_table (E : Engine) (DeltaTime : float)
    (Rec Rec' : FTLDChunkRecord) (calls : list EngineCall) : Prop :=
  match State Rec with
  | Unloaded | Visible => Rec' = Rec ∧ calls = []
  | Loading =>
      match Streaming Rec with
      | Some SL =>
          if IsLevelLoaded E SL then warm_up_frame E DeltaTime Rec Rec' calls
          else Rec' = Rec ∧ calls = []
      | None => Rec' = Rec ∧ calls = []
      end
  | LoadedHidden => warm_up_frame E DeltaTime Rec Rec' calls
  end.

(** Load before show, on the requests of one method: whenever a level is
    asked to be visible, the engine reports it loaded or the same method has
    asked before for it to be loaded. *)
Definition load_before_show (E : Engine) (calls : list EngineCall) : Prop :=
  ∀ pre SL post,
    calls = pre ++ SetShouldBeVisible SL true :: post →
    IsLevelLoaded E SL = true ∨ SetShouldBeLoaded SL true ∈ pre.

End Streaming.

(** ** Overlays and the HUD event bus: TLDUIManager.cpp *)

Module UI.
Import Float32.

(** [ETLDUIOverlay] is declared in TLDUIShared.h, which is not among the
    sources.  The code names the members [HUD], [Pause] and [Wolf]; every
    other member is [OtherOverlay n]. *)
Inductive ETLDUIOverlay : Type :=
| HUD | Pause | Wolf | OtherOverlay (n : nat).

#[global] Instance ETLDUIOverlay_eq_dec : EqDecision ETLDUIOverlay.
Proof. solve_decision. Defined.

Definition overlay_code (o : ETLDUIOverlay) : nat :=
  match o with HUD => 0 | Pause => 1 | Wolf => 2 | OtherOverlay n => 3 + n end.

Definition overlay_of_code (c : nat) : ETLDUIOverlay :=
  match c with
  | 0 => HUD | 1 => Pause | 2 => Wolf
  | S (S (S n)) => OtherOverlay n
  end.

#[global] Instance ETLDUIOverlay_countable : Countable ETLDUIOverlay.
Proof.
  apply (inj_countable' overlay_code overlay_of_code).
  intros []; reflexivity.
Defined.

(** [ETLDUIInputMode], as the [switch] of [ApplyInputMode] lists it. *)
Inductive ETLDUIInputMode : Type := GameOnly | UIOnly | GameAndUI.

#[global] Instance ETLDUIInputMode_eq_dec : EqDecision ETLDUIInputMode.
Proof. solve_decision. Defined.

Inductive ESlateVisibility : Type := SelfHitTestInvisible | Collapsed.

(** A [UUserWidget] as a [TWeakObjectPtr] names it: the object's identity,
    never reused for another object. *)
Definition Widget : Type := positive.
(** A [TSubclassOf<UUserWidget>] that is not null. *)
Definition WidgetClass : Type := positive.
(** [ETLDUITransition]: only passed along. *)
Definition ETLDUITransition : Type := nat.

(** [FTLDOverlayConfig]: the fields the manager reads. *)
Record FTLDOverlayConfig : Type := mkOverlayConfig {
  Cfg_WidgetClass : option WidgetClass;
  Cfg_ZOrder : Z;
  Cfg_InputMode : ETLDUIInputMode;
  Cfg_ShowTransition : ETLDUITransition;
  Cfg_HideTransition : ETLDUITransition;
  Cfg_bPersistent : bool
}.

(** [UTLDUiConfig]: its [Overlays] map. *)
Record UTLDUiConfig : Type := mkUiConfig {
  Overlays : gmap ETLDUIOverlay FTLDOverlayConfig
}.

(** [UTLDUIPayload_Channel]. *)
Record UTLDUIPayload_Channel : Type := mkChannelPayload {
  Label : string;
  Icon : option positive;
  bShow : bool;
  bSuccess : bool;
  Progress01 : float
}.

Definition set_Progress01 (x : float) (P : UTLDUIPayload_Channel) :=
  mkChannelPayload (Label P) (Icon P) (bShow P) (bSuccess P) x.
Definition set_bShow (b : bool) (P : UTLDUIPayload_Channel) :=
  mkChannelPayload (Label P) (Icon P) b (bSuccess P) (Progress01 P).
Definition set_bSuccess (b : bool) (P : UTLDUIPayload_Channel) :=
  mkChannelPayload (Label P) (Icon P) (bShow P) b (Progress01 P).

Inductive EngineCall : Type :=
| AddToViewport (W : Widget) (ZOrder : Z)
| SetVisibility (W : Widget) (v : ESlateVisibility)
| RemoveFromParent (W : Widget)
(** [PC->bShowMouseCursor = cursor; PC->SetInputMode(mode)] *)
| SetInputMode (mode : ETLDUIInputMode) (cursor : bool)
| SetGamePaused (b : bool)
(** [HUDRoot->ProcessEvent(ApplyUIEvent, {EventTag, Payload})] *)
| ApplyUIEvent (Root : Widget) (EventTag : string) (Payload : UTLDUIPayload_Channel).

Record Engine : Type := mkEngine {
  (** [GetWorld()] is not null *)
  HasWorld : bool;
  (** the world's first player controller is not null *)
  HasPlayerController : bool;
  (** [TWeakObjectPtr::Get()] of this widget is not null *)
  IsValid : Widget → bool;
  (** [CreateWidget<UUserWidget>(World, Class)] *)
  CreateWidget : WidgetClass → option Widget;
  IsInViewport : Widget → bool;
  IsVisible : Widget → bool;
  (** [Cast<UTLDDesignerWidgetBase>(W)] is not null *)
  IsDesignerWidget : Widget → bool;
  (** [W->FindFunction("ApplyUIEvent")] is not null *)
  HasApplyUIEvent : Widget → bool;
  (** what [NewObject<UTLDUIPayload_Channel>] holds before any field is set *)
  NewPayload_Channel : UTLDUIPayload_Channel
}.

(** The fields of [UTLDUIManager] that overlays and the event bus use. *)
Record Manager : Type := mkManager {
  CurrentConfig : option UTLDUiConfig;
  LiveWidgets : gmap ETLDUIOverlay Widget;
  Pooled : gmap ETLDUIOverlay (list Widget);
  HUDRoot : option Widget
}.

Definition set_LiveWidgets (L : gmap ETLDUIOverlay Widget) (st : Manager) :=
  mkManager (CurrentConfig st) L (Pooled st) (HUDRoot st).
Definition set_Pooled (P : gmap ETLDUIOverlay (list Widget)) (st : Manager) :=
  mkManager (CurrentConfig st) (LiveWidgets st) P (HUDRoot st).
Definition set_HUDRoot (r : option Widget) (st : Manager) :=
  mkManager (CurrentConfig st) (LiveWidgets st) (Pooled st) r.

(** [LiveWidgets.FindRef(Overlay).Get()] *)
Definition GetOverlay (E : Engine) (Overlay : ETLDUIOverlay) (st : Manager)
    : option Widget :=
  match LiveWidgets st !! Overlay with
  | Some W => if IsValid E W then Some W else None
  | None => None
  end.

(** The backward loop of [CreateOrReuse] over the pool, entered with
    [i = Pool->Num()]: the index visited is [i - 1].  It returns the widget
    found, if any, and what is left of the pool. *)
Fixpoint scan_pool (E : Engine) (i : nat) (Pool : list Widget)
    : option Widget * list Widget :=
  match i with
  | 0 => (None, Pool)
  | S i' =>
      match Pool !! i' with
      | Some P =>
          if IsValid E P then (Some P, delete i' Pool)
          else scan_pool E i' (delete i' Pool)
      | None => (None, Pool)
      end
  end.

(** The last part of [CreateOrReuse]: a fresh widget. *)
Definition create_fresh (E : Engine) (Overlay : ETLDUIOverlay)
    (Cfg : FTLDOverlayConfig) (st : Manager) : option Widget * Manager :=
  match Cfg_WidgetClass Cfg with
  | None => (None, st)
  | Some Class =>
      if HasWorld E then
        match CreateWidget E Class with
        | Some NewW =>
            (Some NewW, set_LiveWidgets (<[Overlay := NewW]> (LiveWidgets st)) st)
        | None => (None, st)
        end
      else (None, st)
  end.

Definition CreateOrReuse (E : Engine) (Overlay : ETLDUIOverlay)
    (Cfg : FTLDOverlayConfig) (st : Manager) : option Widget * Manager :=
  match GetOverlay E Overlay st with
  | Some Live => (Some Live, st)
  | None =>
      match Pooled st !! Overlay with
      | Some Pool =>
          let '(found, Pool') := scan_pool E (length Pool) Pool in
          let st := set_Pooled (<[Overlay := Pool']> (Pooled st)) st in
          match found with
          | Some P =>
              (Some P, set_LiveWidgets (<[Overlay := P]> (LiveWidgets st)) st)
          | None => create_fresh E Overlay Cfg st
          end
      | None => create_fresh E Overlay Cfg st
      end
  end.

Definition ReturnToPoolOrDiscard (Overlay : ETLDUIOverlay)
    (Widget_ : option Widget) (bKeepInPool : bool) (st : Manager)
    : Manager * list EngineCall :=
  match Widget_ with
  | None => (st, [])
  | Some W =>
      let st := set_LiveWidgets (delete Overlay (LiveWidgets st)) st in
      let st :=
        if bKeepInPool
        then set_Pooled
               (<[Overlay := default [] (Pooled st !! Overlay) ++ [W]]> (Pooled st))
               st
        else st in
      (st, [RemoveFromParent W; SetVisibility W Collapsed])
  end.

Definition AddToViewportIfNeeded (E : Engine) (W : Widget) (ZOrder : Z)
    : list EngineCall :=
  (if IsInViewport E W then [] else [AddToViewport W ZOrder])
  ++ [SetVisibility W SelfHitTestInvisible].

Definition ApplyInputMode (E : Engine) (Mode : ETLDUIInputMode)
    : list EngineCall :=
  if HasWorld E && HasPlayerController E then
    match Mode with
    | GameOnly => [SetInputMode GameOnly false]
    | UIOnly => [SetInputMode UIOnly true]
    | GameAndUI => [SetInputMode GameAndUI true]
    end
  else [].

Definition PlayShowTransition (W : Widget) : list EngineCall :=
  [SetVisibility W SelfHitTestInvisible].

Definition CacheHUDIfPresent (E : Engine) (st : Manager) : Manager :=
  match GetOverlay E HUD st with
  | Some W => set_HUDRoot (if IsDesignerWidget E W then Some W else None) st
  | None => st
  end.

Definition ShowOverlay (E : Engine) (Overlay : ETLDUIOverlay) (st : Manager)
    : option Widget * Manager * list EngineCall :=
  match CurrentConfig st with
  | None => (None, st, [])
  | Some Config =>
      match Overlays Config !! Overlay with
      | None => (None, st, [])
      | Some Cfg =>
          match CreateOrReuse E Overlay Cfg st with
          | (Some W, st) =>
              let calls :=
                AddToViewportIfNeeded E W (Cfg_ZOrder Cfg)
                ++ ApplyInputMode E (Cfg_InputMode Cfg)
                ++ PlayShowTransition W in
              let st :=
                if bool_decide (Overlay = HUD) then CacheHUDIfPresent E st
                else st in
              (Some W, st, calls)
          | (None, st) => (None, st, [])
          end
      end
  end.

(** [PlayHideTransition] calls its completion at once, so the lambda of
    [HideOverlay] runs inside the call. *)
Definition HideOverlay (E : Engine) (Overlay : ETLDUIOverlay) (st : Manager)
    : Manager * list EngineCall :=
  match CurrentConfig st with
  | None => (st, [])
  | Some Config =>
      match Overlays Config !! Overlay with
      | None => (st, [])
      | Some Cfg =>
          match GetOverlay E Overlay st with
          | None => (st, [])
          | Some W =>
              let c1 :=
                if bool_decide (Cfg_InputMode Cfg = GameOnly) then []
                else ApplyInputMode E GameOnly in
              let c2 :=
                if bool_decide (Overlay = Pause) && HasWorld E
                then [SetGamePaused false] else [] in
              let '(st, c3) :=
                ReturnToPoolOrDiscard Overlay (Some W) (Cfg_bPersistent Cfg) st in
              (st, c1 ++ c2 ++ c3)
          end
      end
  end.

Definition IsOverlayVisible (E : Engine) (Overlay : ETLDUIOverlay)
    (st : Manager) : bool :=
  match GetOverlay E Overlay st with
  | Some W => IsVisible E W
  | None => false
  end.

Definition ToggleOverlay (E : Engine) (Overlay : ETLDUIOverlay) (st : Manager)
    : Manager * list EngineCall :=
  if IsOverlayVisible E Overlay st then HideOverlay E Overlay st
  else let '(_, st, calls) := ShowOverlay E Overlay st in (st, calls).

Definition SetConfig (InConfig : option UTLDUiConfig) (st : Manager) : Manager :=
  mkManager InConfig (LiveWidgets st) (Pooled st) (HUDRoot st).

(** [Deinitialize], on the fields above; the widgets still valid are taken
    off the screen, then every field is cleared.  The loop of lines 87-93
    walks [LiveWidgets] in the order the [TMap] holds its pairs, which is the
    order they were added in as long as none was removed.  The map of this
    model keeps no such order, so the walk is handed in: [Walk] is the list
    of the pairs of [LiveWidgets] as the [TMap] gives them at this call. *)
Definition is_walk (Walk : list (ETLDUIOverlay * Widget)) (st : Manager) : Prop :=
  Walk ≡ₚ map_to_list (LiveWidgets st).

Definition Deinitialize (E : Engine) (Walk : list (ETLDUIOverlay * Widget))
    (st : Manager) : Manager * list EngineCall :=
  (mkManager None ∅ ∅ None,
   map (λ kw, RemoveFromParent (snd kw))
       (filter (λ kw, IsValid E (snd kw) = true) Walk)).

Definition HUD_SendEvent (E : Engine) (st : Manager) (EventTag : string)
    (Payload : UTLDUIPayload_Channel) : list EngineCall :=
  match HUDRoot st with
  | Some Root =>
      if IsValid E Root && HasApplyUIEvent E Root
      then [ApplyUIEvent Root EventTag Payload]
      else []
  | None => []
  end.

(** Line 725: the progress of the cast bar. *)
Definition ChannelProgress (Elapsed Total : float) : float :=
  if gtb Total zero then Clamp (div Elapsed Total) zero one else zero.

Definition OnChannelTick_UI (E : Engine) (st : Manager) (Elapsed Total : float)
    : list EngineCall :=
  let Progress := ChannelProgress Elapsed Total in
  let P := set_Progress01 Progress (NewPayload_Channel E) in
  HUD_SendEvent E st "UI.HUD.Channel.Progress" P.

Definition OnChannelEnded_UI (E : Engine) (st : Manager) (bSuccess_ : bool)
    : list EngineCall :=
  let P := set_bSuccess bSuccess_ (set_bShow false (NewPayload_Channel E)) in
  HUD_SendEvent E st "UI.HUD.Channel.Hide" P.

(** The float [p] is the progress of [e] out of [t], for whole numbers with
    [t > 0], told without the code's division: 0 when [e <= 0], 1 when
    [e >= t], and else the fraction [e/t] up to the rounding of binary32, a
    relative error of at most 2^-24. *)
Definition is_progress_of (p : float) (e t : Z) : Prop :=
  ∃ q, to_Q p = Some q
       ∧ let x := QArith_base.Qmake e (Z.to_pos t) in
         if (e <=? 0)%Z then QArith_base.Qeq q (QArith_base.inject_Z 0)
         else if (t <=? e)%Z then QArith_base.Qeq q (QArith_base.inject_Z 1)
         else QArith_base.Qle (Qabs.Qabs (QArith_base.Qminus q x))
                (QArith_base.Qmult x (QArith_base.Qmake 1 (2 ^ 24))).

(** The same as a test that computes, and the test for [is_whole]. *)
Definition progress_check (e t : Z) : bool :=
  match to_Q (ChannelProgress (of_Z e) (of_Z t)) with
  | Some q =>
      let x := QArith_base.Qmake e (Z.to_pos t) in
      if (e <=? 0)%Z then QArith_base.Qeq_bool q (QArith_base.inject_Z 0)
      else if (t <=? e)%Z then QArith_base.Qeq_bool q (QArith_base.inject_Z 1)
      else QArith_base.Qle_bool (Qabs.Qabs (QArith_base.Qminus q x))
             (QArith_base.Qmult x (QArith_base.Qmake 1 (2 ^ 24)))
  | None => false
  end.

Definition whole_check (n : Z) : bool :=
  match to_Q (of_Z n) with
  | Some q => QArith_base.Qeq_bool q (QArith_base.inject_Z n)
  | None => false
  end.

(** *** The manager over a run of calls

    The public methods that touch the two overlay maps. *)
Inductive Call : Type :=
| Call_ShowOverlay (Overlay : ETLDUIOverlay)
| Call_HideOverlay (Overlay : ETLDUIOverlay)
| Call_ToggleOverlay (Overlay : ETLDUIOverlay)
| Call_SetConfig (InConfig : option UTLDUiConfig)
| Call_Deinitialize (Walk : list (ETLDUIOverlay * Widget)).

Definition exec (E : Engine) (c : Call) (st : Manager) : Manager :=
  match c with
  | Call_ShowOverlay Overlay => (ShowOverlay E Overlay st).1.2
  | Call_HideOverlay Overlay => (HideOverlay E Overlay st).1
  | Call_ToggleOverlay Overlay => (ToggleOverlay E Overlay st).1
  | Call_SetConfig InConfig => SetConfig InConfig st
  | Call_Deinitialize Walk => (Deinitialize E Walk st).1
  end.

(** A manager that has shown nothing yet. *)
Definition fresh : Manager := mkManager None ∅ ∅ None.

(** The managers reached from [fresh]; the engine may answer differently at
    every call (widgets are collected, the player controller comes and
    goes). *)
Inductive reachable : Manager → Prop :=
| reach_fresh : reachable fresh
| reach_call E c st : reachable st → reachable (exec E c st).

(** Live or pooled, never both: the pool of an overlay holds no widget twice
    and does not hold the overlay's live widget. *)
Definition live_xor_pooled (st : Manager) : Prop :=
  ∀ Overlay Pool,
    Pooled st !! Overlay = Some Pool →
    NoDup Pool ∧ ∀ W, LiveWidgets st !! Overlay = Some W → W ∉ Pool.

(** No widget of the list is valid any more. *)
Definition all_collected (E : Engine) (Pool : list Widget) : Prop :=
  Forall (λ W, IsValid E W = false) Pool.

End UI.

(** ** Cinematics: Source/TLDCinematicManager.cpp, Source/TLDCinematicConfig.cpp *)

Module Cinematic.
Import Float32 FString.

(** [ULevelSequence*], [ULevelSequencePlayer*] and [ALevelSequenceActor*]
    that are not null. *)
Definition LevelSequence : Type := positive.
Definition Player : Type := positive.
Definition Actor : Type := positive.

(** A soft object path; the null path is the empty one. *)
Definition FSoftObjectPath : Type := string.
Definition IsNull (p : FSoftObjectPath) : bool := bool_decide (p = EmptyString).
Definition IsValidPath (p : FSoftObjectPath) : bool := negb (IsNull p).

(** [FTLDCinematicEntry] and [UTLDCinematicConfig] (TLDCinematicConfig.h). *)
Record FTLDCinematicEntry : Type := mkEntry {
  CinematicName : FString;
  Sequence : FSoftObjectPath
}.

Record UTLDCinematicConfig : Type := mkConfig {
  Cinematics : list FTLDCinematicEntry
}.

(** [UTLDProjectSettings]: the one field read here. *)
Record UTLDProjectSettings : Type := mkSettings {
  CinematicConfigAsset : FSoftObjectPath
}.

Inductive TimerHandle : Type := PreDelayHandle | PostDelayHandle.

Inductive EngineCall : Type :=
(** [GetTimerManager().SetTimer(Handle, ..., Rate, false)] *)
| SetTimer (Handle : TimerHandle) (Rate : float)
| CreateLevelSequencePlayer (Sq : LevelSequence)
(** [P->OnFinished.AddDynamic(this, &HandleSequenceFinished)] *)
| OnFinished_AddDynamic (P : Player)
| SetPause (bPause : bool)
| Play (P : Player)
| Stop (P : Player).

Record Engine : Type := mkEngine {
  (** [GetWorld()] is not null *)
  HasWorld : bool;
  (** [UGameplayStatics::GetPlayerController(World, 0)] is not null *)
  HasPlayerController : bool;
  (** the player returned by [CreateLevelSequencePlayer] and the actor it
      leaves in its last argument *)
  NewPlayer : LevelSequence → option Player * option Actor;
  (** [UTLDProjectSettings::Get()] *)
  ProjectSettings : option UTLDProjectSettings;
  (** [LoadSynchronous] of a config asset and of a sequence asset *)
  LoadConfig : FSoftObjectPath → option UTLDCinematicConfig;
  LoadSequence : FSoftObjectPath → option LevelSequence
}.

Record Manager : Type := mkManager {
  PendingSequence : option LevelSequence;
  bPendingPause : bool;
  bPendingSkippable : bool;
  PendingPostDelay : float;
  bIsPlaying : bool;
  bAllowSkip : bool;
  ActivePlayer : option Player;
  ActiveActor : option Actor
}.

Definition set_bIsPlaying (b : bool) (st : Manager) : Manager :=
  mkManager (PendingSequence st) (bPendingPause st) (bPendingSkippable st)
    (PendingPostDelay st) b (bAllowSkip st) (ActivePlayer st) (ActiveActor st).
Definition set_bAllowSkip (b : bool) (st : Manager) : Manager :=
  mkManager (PendingSequence st) (bPendingPause st) (bPendingSkippable st)
    (PendingPostDelay st) (bIsPlaying st) b (ActivePlayer st) (ActiveActor st).
Definition set_Active (P : option Player) (A : option Actor) (st : Manager)
    : Manager :=
  mkManager (PendingSequence st) (bPendingPause st) (bPendingSkippable st)
    (PendingPostDelay st) (bIsPlaying st) (bAllowSkip st) P A.

Definition ApplyPause (E : Engine) (bPause : bool) : list EngineCall :=
  if HasWorld E && HasPlayerController E then [SetPause bPause] else [].

Definition StartSequence (E : Engine) (st : Manager)
    : Manager * list EngineCall :=
  match PendingSequence st with
  | None => (set_bIsPlaying false st, [])
  | Some Sq =>
      if negb (HasWorld E) then (set_bIsPlaying false st, [])
      else
        let '(P, A) := NewPlayer E Sq in
        let st := set_Active P A st in
        match P, A with
        | Some p, Some _ =>
            (set_bAllowSkip (bPendingSkippable st) st,
             [CreateLevelSequencePlayer Sq; OnFinished_AddDynamic p]
             ++ ApplyPause E (bPendingPause st) ++ [Play p])
        | _, _ => (set_bIsPlaying false st, [CreateLevelSequencePlayer Sq])
        end
  end.

Definition PlaySequence (E : Engine) (Sequence_ : option LevelSequence)
    (bPauseGame bSkippable : bool) (PreDelay PostDelay : float) (st : Manager)
    : Manager * list EngineCall :=
  match Sequence_ with
  | None => (st, [])
  | Some Sq =>
      if negb (HasWorld E) then (st, [])
      else if bIsPlaying st then (st, [])
      else
        let st :=
          mkManager (Some Sq) bPauseGame bSkippable (Max zero PostDelay)
                    true false (ActivePlayer st) (ActiveActor st) in
        if gtb PreDelay zero
        then (st, [SetTimer PreDelayHandle PreDelay])
        else StartSequence E st
  end.

(** What both the lambda of the post-delay timer and the last branch of
    [HandleSequenceFinished] do. *)
Definition finish_playback (E : Engine) (st : Manager)
    : Manager * list EngineCall :=
  (set_bIsPlaying false (set_Active None None st), ApplyPause E false).

Definition HandleSequenceFinished (E : Engine) (st : Manager)
    : Manager * list EngineCall :=
  if negb (HasWorld E) then (set_bIsPlaying false st, [])
  else
    let st := set_bAllowSkip false st in
    if gtb (PendingPostDelay st) zero
    then (st, [SetTimer PostDelayHandle (PendingPostDelay st)])
    else finish_playback E st.

Definition SkipCurrentCinematic (E : Engine) (st : Manager)
    : Manager * list EngineCall :=
  match ActivePlayer st with
  | Some p =>
      if negb (bIsPlaying st) || negb (bAllowSkip st) then (st, [])
      else
        let '(st, calls) := HandleSequenceFinished E st in
        (st, Stop p :: calls)
  | None => (st, [])
  end.

(** TLDCinematicConfig.cpp *)
Fixpoint GetSequenceByName (E : Engine) (Entries : list FTLDCinematicEntry)
    (Name : FString) : option LevelSequence :=
  match Entries with
  | [] => None
  | Entry :: rest =>
      if EqualsIgnoreCase (CinematicName Entry) Name
         && IsValidPath (Sequence Entry)
      then LoadSequence E (Sequence Entry)
      else GetSequenceByName E rest Name
  end.

Definition PlayCinematicByName (E : Engine) (Name : FString)
    (bPauseGame bSkippable : bool) (PreDelay PostDelay : float) (st : Manager)
    : bool * Manager * list EngineCall :=
  if IsEmpty Name then (false, st, [])
  else
    match ProjectSettings E with
    | None => (false, st, [])
    | Some Settings =>
        if IsNull (CinematicConfigAsset Settings) then (false, st, [])
        else
          match LoadConfig E (CinematicConfigAsset Settings) with
          | None => (false, st, [])
          | Some Config =>
              match GetSequenceByName E (Cinematics Config) Name with
              | None => (false, st, [])
              | Some Sq =>
                  let '(st, calls) :=
                    PlaySequence E (Some Sq) bPauseGame bSkippable
                                 PreDelay PostDelay st in
                  (true, st, calls)
              end
          end
    end.

(** *** The manager together with the engine objects it drives

    The two timers and the sequence players belong to the engine.  A timer
    set with [SetTimer] is pending until it fires; a player that was told to
    [Play] runs until it reaches its end, and broadcasts [OnFinished] then,
    or until it is told to [Stop]. *)
Record System : Type := mkSystem {
  Mgr : Manager;
  PreDelayPending : bool;
  PostDelayPending : bool;
  Running : list Player
}.

Definition apply_call (c : EngineCall) (sys : System) : System :=
  match c with
  | SetTimer PreDelayHandle _ =>
      mkSystem (Mgr sys) true (PostDelayPending sys) (Running sys)
  | SetTimer PostDelayHandle _ =>
      mkSystem (Mgr sys) (PreDelayPending sys) true (Running sys)
  | Play p =>
      mkSystem (Mgr sys) (PreDelayPending sys) (PostDelayPending sys)
               (p :: Running sys)
  | Stop p =>
      mkSystem (Mgr sys) (PreDelayPending sys) (PostDelayPending sys)
               (filter (λ q, q ≠ p) (Running sys))
  | _ => sys
  end.

Definition apply_calls (calls : list EngineCall) (sys : System) : System :=
  fold_left (λ s c, apply_call c s) calls sys.

(** A method of the manager run inside the system. *)
Definition run (f : Manager → Manager * list EngineCall) (sys : System)
    : System :=
  let '(m, calls) := f (Mgr sys) in
  apply_calls calls
    (mkSystem m (PreDelayPending sys) (PostDelayPending sys) (Running sys)).

(** What can happen to the manager: a call of one of its three public
    methods, a timer firing, or a running player reaching its end. *)
Inductive Event : Type :=
| Call_PlaySequence (Sequence_ : option LevelSequence)
    (bPauseGame bSkippable : bool) (PreDelay PostDelay : float)
| Call_PlayCinematicByName (Name : FString)
    (bPauseGame bSkippable : bool) (PreDelay PostDelay : float)
| Call_SkipCurrentCinematic
| PreDelayFires
| PostDelayFires
| PlayerFinished (P : Player).

Definition enabled (ev : Event) (sys : System) : Prop :=
  match ev with
  | PreDelayFires => PreDelayPending sys = true
  | PostDelayFires => PostDelayPending sys = true
  | PlayerFinished p => p ∈ Running sys
  | _ => True
  end.

Definition step (E : Engine) (ev : Event) (sys : System) : System :=
  match ev with
  | Call_PlaySequence Sq bP bS Pre Post =>
      run (PlaySequence E Sq bP bS Pre Post) sys
  | Call_PlayCinematicByName N bP bS Pre Post =>
      run (λ m, let '(_, m, calls) :=
                  PlayCinematicByName E N bP bS Pre Post m in (m, calls)) sys
  | Call_SkipCurrentCinematic => run (SkipCurrentCinematic E) sys
  | PreDelayFires =>
      run (StartSequence E)
          (mkSystem (Mgr sys) false (PostDelayPending sys) (Running sys))
  | PostDelayFires =>
      run (finish_playback E)
          (mkSystem (Mgr sys) (PreDelayPending sys) false (Running sys))
  | PlayerFinished p =>
      run (HandleSequenceFinished E)
          (mkSystem (Mgr sys) (PreDelayPending sys) (PostDelayPending sys)
                    (filter (λ q, q ≠ p) (Running sys)))
  end.

(** A manager that has played nothing yet. *)
Definition idle : System :=
  mkSystem (mkManager None false false zero false false None None)
           false false [].

(** The states reached from [idle] by events that all find a world. *)
Inductive reachable : System → Prop :=
| reach_idle : reachable idle
| reach_step E ev sys :
    reachable sys → enabled ev sys → HasWorld E = true →
    reachable (step E ev sys).

(** The same, when [GetWorld()] may also be null. *)
Inductive reachable_any : System → Prop :=
| reach_any_idle : reachable_any idle
| reach_any_step E ev sys :
    reachable_any sys → enabled ev sys → reachable_any (step E ev sys).

(** *** What the claims speak of *)

(** The config, when the project settings exist, name one, and it loads. *)
Definition config_of (E : Engine) : option UTLDCinematicConfig :=
  match ProjectSettings E with
  | None => None
  | Some Settings =>
      if IsNull (CinematicConfigAsset Settings) then None
      else LoadConfig E (CinematicConfigAsset Settings)
  end.

(** An entry of that name with a sequence reference that is valid. *)
Definition names (Name : FString) (Entry : FTLDCinematicEntry) : bool :=
  EqualsIgnoreCase (CinematicName Entry) Name && IsValidPath (Sequence Entry).

Definition has_entry (Config : UTLDCinematicConfig) (Name : FString) : bool :=
  existsb (names Name) (Cinematics Config).

Definition first_entry (Config : UTLDCinematicConfig) (Name : FString)
    : option FTLDCinematicEntry :=
  find (names Name) (Cinematics Config).

(** One cinematic at a time, on the whole system: a skip is allowed only
    while playing; a pending timer or a running player means playing; while a
    timer is pending no player runs and skipping is off; at most one player
    runs, the active one, and no timer is pending then. *)
Definition consistent (sys : System) : Prop :=
  (bAllowSkip (Mgr sys) = true → bIsPlaying (Mgr sys) = true)
  ∧ (PreDelayPending sys = true →
     bIsPlaying (Mgr sys) = true ∧ bAllowSkip (Mgr sys) = false
     ∧ Running sys = [] ∧ PostDelayPending sys = false)
  ∧ (PostDelayPending sys = true →
     bIsPlaying (Mgr sys) = true ∧ bAllowSkip (Mgr sys) = false
     ∧ Running sys = [])
  ∧ (Running sys = []
     ∨ ∃ p, Running sys = [p] ∧ ActivePlayer (Mgr sys) = Some p
            ∧ bIsPlaying (Mgr sys) = true
            ∧ PreDelayPending sys = false ∧ PostDelayPending sys = false).

End Cinematic.

(** ** Audio: TLDAudioManager.cpp *)

Module Audio.
Import Float32.

(** [FGameplayTag]: compared by its name. *)
Definition FGameplayTag : Type := string.
(** [EAudioState] is declared in TLDAudioManager.h, which is not among the
    sources; a member is held as its number. *)
Definition EAudioState : Type := N.
(** [USoundBase*], [UAudioComponent*], [USoundClass*], [USoundMix*] that are
    not null. *)
Definition Sound : Type := positive.
Definition Component : Type := positive.
Definition SoundClass : Type := positive.
Definition SoundMix : Type := positive.

(** [UTLDAudioCatalog]: its two maps; a value may be a null pointer. *)
Record UTLDAudioCatalog : Type := mkCatalog {
  MusicByTag : gmap FGameplayTag (option Sound);
  SFXByTag : gmap FGameplayTag (option Sound)
}.

Inductive EngineCall : Type :=
| RegisterComponentWithWorld (AC : Component)
| SetSoundClassOverride (AC : Component) (C : SoundClass)
(** [AC->SetSound(S)]; the sound may be a null pointer *)
| SetSound (AC : Component) (S_ : option Sound)
| FadeIn (AC : Component) (FadeTime Volume : float)
| FadeOut (AC : Component) (FadeTime Volume : float)
| Stop (AC : Component)
| PushSoundMixModifier (Mix : SoundMix).

Record Engine : Type := mkEngine {
  IsPlaying : Component → bool;
  (** [UTLDProjectSettings::Get()] is not null *)
  HasProjectSettings : bool;
  (** [ProjectSettings->AudioCatalog.LoadSynchronous()] *)
  LoadCatalog : option UTLDAudioCatalog
}.

(** The fields of [UTLDAudioManager].  [NextObject] is the engine's: the
    object that the next [NewObject] returns. *)
Record Manager : Type := mkManager {
  Catalog : option UTLDAudioCatalog;
  CurrentMusicTag : FGameplayTag;
  CurrentState : EAudioState;
  MusicByState : gmap EAudioState (option Sound);
  ActiveMusic : option Component;
  InactiveMusic : option Component;
  MusicAC : option Component;
  MusicClass : option SoundClass;
  DefaultMix : option SoundMix;
  SFXPool : list Component;
  PoolIndex : Z;
  NextObject : Component
}.

Definition set_CurrentMusicTag (t : FGameplayTag) (st : Manager) : Manager :=
  mkManager (Catalog st) t (CurrentState st) (MusicByState st)
    (ActiveMusic st) (InactiveMusic st) (MusicAC st) (MusicClass st)
    (DefaultMix st) (SFXPool st) (PoolIndex st) (NextObject st).
Definition set_CurrentState (s : EAudioState) (st : Manager) : Manager :=
  mkManager (Catalog st) (CurrentMusicTag st) s (MusicByState st)
    (ActiveMusic st) (InactiveMusic st) (MusicAC st) (MusicClass st)
    (DefaultMix st) (SFXPool st) (PoolIndex st) (NextObject st).
Definition set_Music (A I : option Component) (st : Manager) : Manager :=
  mkManager (Catalog st) (CurrentMusicTag st) (CurrentState st)
    (MusicByState st) A I (MusicAC st) (MusicClass st)
    (DefaultMix st) (SFXPool st) (PoolIndex st) (NextObject st).
Definition set_MusicAC (M : option Component) (st : Manager) : Manager :=
  mkManager (Catalog st) (CurrentMusicTag st) (CurrentState st)
    (MusicByState st) (ActiveMusic st) (InactiveMusic st) M (MusicClass st)
    (DefaultMix st) (SFXPool st) (PoolIndex st) (NextObject st).
Definition set_Catalog (C : option UTLDAudioCatalog) (st : Manager) : Manager :=
  mkManager C (CurrentMusicTag st) (CurrentState st)
    (MusicByState st) (ActiveMusic st) (InactiveMusic st) (MusicAC st)
    (MusicClass st) (DefaultMix st) (SFXPool st) (PoolIndex st) (NextObject st).
Definition set_SFXPool (P : list Component) (st : Manager) : Manager :=
  mkManager (Catalog st) (CurrentMusicTag st) (CurrentState st)
    (MusicByState st) (ActiveMusic st) (InactiveMusic st) (MusicAC st)
    (MusicClass st) (DefaultMix st) P (PoolIndex st) (NextObject st).
Definition set_PoolIndex (i : Z) (st : Manager) : Manager :=
  mkManager (Catalog st) (CurrentMusicTag st) (CurrentState st)
    (MusicByState st) (ActiveMusic st) (InactiveMusic st) (MusicAC st)
    (MusicClass st) (DefaultMix st) (SFXPool st) i (NextObject st).
Definition set_NextObject (n : Component) (st : Manager) : Manager :=
  mkManager (Catalog st) (CurrentMusicTag st) (CurrentState st)
    (MusicByState st) (ActiveMusic st) (InactiveMusic st) (MusicAC st)
    (MusicClass st) (DefaultMix st) (SFXPool st) (PoolIndex st) n.

(** [NewObject<UAudioComponent>] followed by the registration that every
    caller does: [bAutoActivate] and [bAutoDestroy] are cleared on the new
    component and it is registered with the world. *)
Definition NewAudioComponent (st : Manager)
    : Component * Manager * list EngineCall :=
  let AC := NextObject st in
  (AC, set_NextObject (Pos.succ AC) st, [RegisterComponentWithWorld AC]).

Definition class_override (st : Manager) (AC : Component) : list EngineCall :=
  match MusicClass st with
  | Some C => [SetSoundClassOverride AC C]
  | None => []
  end.

Definition ResolveMusicByTag (st : Manager) (Tag : FGameplayTag)
    : option Sound :=
  match Catalog st with
  | None => None
  | Some C =>
      match MusicByTag C !! Tag with
      | Some Found => Found
      | None => None
      end
  end.

Definition EnsureMusicComponents (st : Manager) : Manager * list EngineCall :=
  let '(st, c1) :=
    match ActiveMusic st with
    | Some _ => (st, [])
    | None =>
        let '(AC, st, c) := NewAudioComponent st in
        (set_Music (Some AC) (InactiveMusic st) st, c ++ class_override st AC)
    end in
  let '(st, c2) :=
    match InactiveMusic st with
    | Some _ => (st, [])
    | None =>
        let '(AC, st, c) := NewAudioComponent st in
        (set_Music (ActiveMusic st) (Some AC) st, c ++ class_override st AC)
    end in
  (st, c1 ++ c2).

Definition EnsureMusicComponent (st : Manager) : Manager * list EngineCall :=
  match MusicAC st with
  | Some _ => (st, [])
  | None =>
      let '(AC, st, c) := NewAudioComponent st in
      (set_MusicAC (Some AC) st, c ++ class_override st AC)
  end.

Definition is_playing (E : Engine) (AC : option Component) : bool :=
  match AC with Some c => IsPlaying E c | None => false end.

(** [CrossfadeTo], for a track that is not null. *)
Definition CrossfadeTo (E : Engine) (NewTrack : Sound)
    (FadeOutTime FadeInTime TargetVolume : float) (st : Manager)
    : Manager * list EngineCall :=
  let '(st, c0) := EnsureMusicComponents st in
  let Old := ActiveMusic st in
  let New := InactiveMusic st in
  let c1 :=
    match Old with
    | Some o => if IsPlaying E o then [FadeOut o FadeOutTime zero] else []
    | None => []
    end in
  let c2 :=
    match New with
    | Some n => [SetSound n (Some NewTrack); FadeIn n FadeInTime TargetVolume]
    | None => []
    end in
  (set_Music New Old st, c0 ++ c1 ++ c2).

Definition PlayMusicByTag (E : Engine) (MusicTag : FGameplayTag)
    (FadeTime : float) (st : Manager) : Manager * list EngineCall :=
  if bool_decide (MusicTag = CurrentMusicTag st) then (st, [])
  else
    match ResolveMusicByTag st MusicTag with
    | None => (st, [])
    | Some Track =>
        let '(st, c0) := EnsureMusicComponents st in
        let '(st, c1) :=
          if negb (is_playing E (ActiveMusic st))
             && negb (is_playing E (InactiveMusic st))
          then
            (st, match ActiveMusic st with
                 | Some a => [SetSound a (Some Track); FadeIn a FadeTime one]
                 | None => []
                 end)
          else CrossfadeTo E Track FadeTime FadeTime one st in
        (set_CurrentMusicTag MusicTag st, c0 ++ c1)
    end.

Definition PlayMusicState (E : Engine) (NewState : EAudioState)
    (FadeTime : float) (st : Manager) : Manager * list EngineCall :=
  if bool_decide (CurrentState st = NewState) then (st, [])
  else
    let st := set_CurrentState NewState st in
    let '(st, c0) := EnsureMusicComponent st in
    match MusicByState st !! NewState, MusicAC st with
    | Some NewTrack, Some M =>
        (st, c0 ++ (if IsPlaying E M then [FadeOut M FadeTime zero] else [])
                ++ [SetSound M NewTrack; FadeIn M FadeTime one])
    | _, _ => (st, c0)
    end.

(** [int32]: the value of a [Z] kept in 32 bits, two's complement. *)
Definition int32 (z : Z) : Z := (z + 2 ^ 31) `mod` 2 ^ 32 - 2 ^ 31.

(** [SFXPool.Num()] *)
Definition Num (st : Manager) : Z := int32 (Z.of_nat (length (SFXPool st))).

(** A method that indexes a [TArray] stops the program when the index is
    out of range. *)
Inductive result (A : Type) : Type :=
| Ok (a : A)
| OutOfRange.
Arguments Ok {A} a.
Arguments OutOfRange {A}.

(** [SFXPool[i]] *)
Definition at_index (Pool : list Component) (i : Z) : option Component :=
  if (0 <=? i)%Z then Pool !! Z.to_nat i else None.

Definition GetPooledSFX (st : Manager) : result (option Component * Manager) :=
  if bool_decide (Num st = 0%Z) then Ok (None, st)
  else
    match at_index (SFXPool st) (PoolIndex st) with
    | Some AC =>
        Ok (Some AC,
            set_PoolIndex (int32 (Z.rem (int32 (PoolIndex st + 1)) (Num st))) st)
    | None => OutOfRange
    end.

(** [n] calls of [GetPooledSFX] in a row: what they return, in order. *)
Fixpoint GetPooledSFX_times (n : nat) (st : Manager)
    : result (list (option Component) * Manager) :=
  match n with
  | 0 => Ok ([], st)
  | S n' =>
      match GetPooledSFX st with
      | Ok (AC, st) =>
          match GetPooledSFX_times n' st with
          | Ok (rest, st) => Ok (AC :: rest, st)
          | OutOfRange => OutOfRange
          end
      | OutOfRange => OutOfRange
      end
  end.

(** The loop of [Initialize] that fills the pool, [n] components to go. *)
Fixpoint fill_pool (n : nat) (st : Manager) : Manager * list EngineCall :=
  match n with
  | 0 => (st, [])
  | S n' =>
      let '(AC, st, c) := NewAudioComponent st in
      let st := set_SFXPool (SFXPool st ++ [AC]) st in
      let '(st, c') := fill_pool n' st in
      (st, c ++ c')
  end.

Definition Initialize (E : Engine) (st : Manager) : Manager * list EngineCall :=
  let st :=
    if HasProjectSettings E then set_Catalog (LoadCatalog E) st else st in
  match Catalog st with
  | None => (st, [])
  | Some _ =>
      let '(st, c0) := fill_pool 16 st in
      let '(st, c1) := EnsureMusicComponent st in
      (st, c0 ++ c1
           ++ match DefaultMix st with
              | Some Mix => [PushSoundMixModifier Mix]
              | None => []
              end)
  end.

Definition Deinitialize (st : Manager) : Manager * list EngineCall :=
  (set_SFXPool [] st,
   match MusicAC st with Some M => [Stop M] | None => [] end
   ++ map Stop (SFXPool st)).

(** *** What the claims speak of *)

(** The objects that [n] calls of [NewObject] in a row return, from [p] on. *)
Fixpoint new_objects (p : Component) (n : nat) : list Component :=
  match n with
  | 0 => []
  | S n' => p :: new_objects (Pos.succ p) n'
  end.

End Audio.


(** ** Level streaming, the rest: groups, start-up and the trigger volume
       (TLDLevelStreamingManager.cpp, TLDStreamingTrigger.cpp) *)

Module StreamingExt.
Import Float32 FString Streaming.

(** A [for] loop over an array: the body is run on every element in order,
    the state is threaded through and the engine calls are collected.  A
    [continue] is a body that returns the state as it is. *)
Fixpoint for_each {A S C : Type} (body : A → S → S * list C) (l : list A)
    (st : S) : S * list C :=
  match l with
  | [] => (st, [])
  | a :: rest =>
      let '(st, c) := body a st in
      let '(st, c') := for_each body rest st in
      (st, c ++ c')
  end.

(** Frames in a row; every frame has its own engine answers and delta. *)
Definition Ticks (frames : list (Engine * float)) (Mgr : Manager)
    : Manager * list EngineCall :=
  for_each (λ f, Tick f.1 f.2) frames Mgr.

(** The streaming level a request is addressed to. *)
Definition target (c : EngineCall) : LevelStreaming :=
  match c with
  | SetShouldBeLoaded SL _ => SL
  | SetShouldBeVisible SL _ => SL
  end.

(** The tracked names, in the order of the map. *)
Definition tracked (Mgr : Manager) : list FName := (ChunkRecords Mgr).*1.

(** What a method called for the name [n] adds to the tracked names. *)
Definition new_name (n : FName) (Mgr : Manager) : list FName :=
  if IsNone n then []
  else match Find n (ChunkRecords Mgr) with
       | Some _ => []
       | None => [n]
       end.

(** The state recorded for a name, if it is tracked. *)
Definition state_of (n : FName) (Mgr : Manager) : option ETLDChunkState :=
  State <$> Find n (ChunkRecords Mgr).

(** [Rec'] is the record [Rec] at a later time: the same name, and the same
    streaming level if [Rec] had one cached. *)
Definition same_chunk (Rec Rec' : FTLDChunkRecord) : Prop :=
  LevelName Rec' = LevelName Rec
  ∧ ∀ SL, Streaming Rec = Some SL → Streaming Rec' = Some SL.

(** The state recorded for [n] mirrors the requests made for it: there are
    requests, all of them for the level [SL]; Visible is recorded exactly when
    the level was asked to be visible, Unloaded exactly when it was asked to
    be unloaded. *)
Definition mirrors (n : FName) (SL : LevelStreaming)
    (r : Manager * list EngineCall) : Prop :=
  r.2 ≠ []
  ∧ (∀ c, c ∈ r.2 → target c = SL)
  ∧ (state_of n r.1 = Some Visible ↔ SetShouldBeVisible SL true ∈ r.2)
  ∧ (state_of n r.1 = Some Unloaded ↔ SetShouldBeLoaded SL false ∈ r.2).

(** No warm-up is pending on any record. *)
Definition no_warm_up (Mgr : Manager) : Prop :=
  Forall (λ kr, gtb (WarmUpSeconds kr.2) zero = false) (ChunkRecords Mgr).

(** Every record sits under its own name. *)
Definition well_keyed (Mgr : Manager) : Prop :=
  ∀ Key Rec, Find Key (ChunkRecords Mgr) = Some Rec → LevelName Rec = Key.

(** *** Short level names *)

Definition is_slash (c : ascii) : bool := bool_decide (c = "/"%char).

Fixpoint has_slash (s : FString) : bool :=
  match s with
  | EmptyString => false
  | String c r => is_slash c || has_slash r
  end.

(** [LongPkg.Split(TEXT("/"), nullptr, &Short, IgnoreCase, FromEnd)]: the
    text after the last "/", when there is a "/". *)
Fixpoint after_last_slash (s : FString) : option FString :=
  match s with
  | EmptyString => None
  | String c r =>
      match after_last_slash r with
      | Some Short => Some Short
      | None => if is_slash c then Some r else None
      end
  end.

(** [FString Short; LongPkg.Split(...); FName ShortName( *Short);]: [Short]
    stays empty when [Split] finds no "/". *)
Definition short_level_name (LongPkg : FString) : FName :=
  MakeFName (default EmptyString (after_last_slash LongPkg)).

(** A [TSoftObjectPtr<UWorld>]: whether [ToSoftObjectPath().IsValid()], and
    what [GetLongPackageName()] returns. *)
Record TSoftWorld : Type := mkSoftWorld {
  PathIsValid : bool;
  GetLongPackageName : FString
}.

(** [AssetToShortLevelName] (TLDStreamingTrigger.cpp). *)
Definition AssetToShortLevelName (LevelAsset : TSoftWorld) : FName :=
  if negb (PathIsValid LevelAsset) then NAME_None
  else if IsEmpty (GetLongPackageName LevelAsset) then NAME_None
  else short_level_name (GetLongPackageName LevelAsset).

(** *** The level config *)

(** [UTLDLevelConfig]: [GetLevelsInGroup] is defined in TLDLevelConfig.cpp,
    which is not among the sources; it is a field here. *)
Record UTLDLevelConfig : Type := mkLevelConfig {
  GetLevelsInGroup : FString → list TSoftWorld
}.

Record Assets : Type := mkAssets {
  (** [UTLDProjectSettings::Get()], as the path in its [LevelConfigAsset];
      the null path is the empty one *)
  LevelConfigAsset : option FString;
  (** [LevelConfigAsset.LoadSynchronous()] *)
  LoadLevelConfig : FString → option UTLDLevelConfig
}.

(** The body of the loop of [LoadLevelGroup]. *)
Definition load_group_level (d : float) (E : Engine) (bMake : bool)
    (WarmUp : float) (LevelAsset : TSoftWorld) (Mgr : Manager)
    : Manager * list EngineCall :=
  if negb (PathIsValid LevelAsset) then (Mgr, [])
  else if IsEmpty (GetLongPackageName LevelAsset) then (Mgr, [])
  else LoadChunkAsync d E (short_level_name (GetLongPackageName LevelAsset))
                      bMake WarmUp Mgr.

Definition LoadLevelGroup (d : float) (E : Engine) (A : Assets)
    (GroupName : FString) (bMakeVisibleAfterLoad : bool) (WarmUp : float)
    (Mgr : Manager) : Manager * list EngineCall :=
  match LevelConfigAsset A with
  | None => (Mgr, [])
  | Some Path =>
      if IsEmpty Path then (Mgr, [])
      else
        match LoadLevelConfig A Path with
        | None => (Mgr, [])
        | Some Config =>
            let GroupLevels := GetLevelsInGroup Config GroupName in
            if bool_decide (length GroupLevels = 0) then (Mgr, [])
            else for_each (load_group_level d E bMakeVisibleAfterLoad WarmUp)
                          GroupLevels Mgr
        end
  end.

(** The body of the loop of [UnloadLevelGroup]. *)
Definition unload_group_level (d : float) (E : Engine)
    (LevelAsset : TSoftWorld) (Mgr : Manager) : Manager * list EngineCall :=
  if negb (PathIsValid LevelAsset) then (Mgr, [])
  else if IsEmpty (GetLongPackageName LevelAsset) then (Mgr, [])
  else UnloadChunkAsync d E (short_level_name (GetLongPackageName LevelAsset)) Mgr.

Definition UnloadLevelGroup (d : float) (E : Engine) (A : Assets)
    (GroupName : FString) (Mgr : Manager) : Manager * list EngineCall :=
  match LevelConfigAsset A with
  | None => (Mgr, [])
  | Some Path =>
      if IsEmpty Path then (Mgr, [])
      else
        match LoadLevelConfig A Path with
        | None => (Mgr, [])
        | Some Config =>
            for_each (unload_group_level d E) (GetLevelsInGroup Config GroupName)
                     Mgr
        end
  end.

(** *** Start-up *)

(** [FTLDStarterChunk] and [FTLDStarterChunkRow] have the same three
    fields. *)
Record FTLDStarterChunk : Type := mkStarter {
  Starter_LevelName : FName;
  Starter_bVisibleOnLoad : bool;
  Starter_WarmUpSeconds : float
}.

(** The two properties of the manager that [BeginPlay] reads, and the table
    asset behind the first. *)
Record StartUp : Type := mkStartUp {
  (** [StarterChunksTable.IsValid() ||
       StarterChunksTable.ToSoftObjectPath().IsValid()] *)
  StarterChunksTable_set : bool;
  (** [StarterChunksTable.LoadSynchronous()], as the rows that
      [GetAllRows] gives; a row may be a null pointer *)
  StarterChunksTable_rows : option (list (option FTLDStarterChunk));
  StarterChunks : list FTLDStarterChunk
}.

Definition load_starter (d : float) (E : Engine) (Starter : FTLDStarterChunk)
    (Mgr : Manager) : Manager * list EngineCall :=
  if IsNone (Starter_LevelName Starter) then (Mgr, [])
  else LoadChunkAsync d E (Starter_LevelName Starter)
                      (Starter_bVisibleOnLoad Starter)
                      (Starter_WarmUpSeconds Starter) Mgr.

Definition load_starter_row (d : float) (E : Engine)
    (Row : option FTLDStarterChunk) (Mgr : Manager)
    : Manager * list EngineCall :=
  match Row with
  | None => (Mgr, [])
  | Some R => load_starter d E R Mgr
  end.

Definition LoadStarterChunksFromTable (d : float) (E : Engine) (P : StartUp)
    (Mgr : Manager) : Manager * list EngineCall :=
  match StarterChunksTable_rows P with
  | None => (Mgr, [])
  | Some Rows => for_each (load_starter_row d E) Rows Mgr
  end.

Definition BeginPlay (d : float) (E : Engine) (P : StartUp) (Mgr : Manager)
    : Manager * list EngineCall :=
  if StarterChunksTable_set P then LoadStarterChunksFromTable d E P Mgr
  else for_each (load_starter d E) (StarterChunks P) Mgr.

(** *** The trigger volume: TLDStreamingTrigger.cpp *)

(** The properties and fields of [ATLDStreamingTrigger].  There is one
    manager, the one modelled; [CachedManager] tells whether the trigger
    holds a pointer to it. *)
Record Trigger : Type := mkTrigger {
  LevelGroupName : FString;
  bVisibleAfterLoad : bool;
  Trigger_WarmUpSeconds : float;
  bOneShot : bool;
  bUnloadOnExit : bool;
  bOnlyPlayerPawn : bool;
  bHasFired : bool;
  LoadedByThisTrigger : list FName;
  CachedManager : bool
}.

Definition set_bHasFired (b : bool) (T : Trigger) : Trigger :=
  mkTrigger (LevelGroupName T) (bVisibleAfterLoad T) (Trigger_WarmUpSeconds T)
    (bOneShot T) (bUnloadOnExit T) (bOnlyPlayerPawn T) b
    (LoadedByThisTrigger T) (CachedManager T).
Definition set_LoadedByThisTrigger (l : list FName) (T : Trigger) : Trigger :=
  mkTrigger (LevelGroupName T) (bVisibleAfterLoad T) (Trigger_WarmUpSeconds T)
    (bOneShot T) (bUnloadOnExit T) (bOnlyPlayerPawn T) (bHasFired T)
    l (CachedManager T).
Definition set_CachedManager (b : bool) (T : Trigger) : Trigger :=
  mkTrigger (LevelGroupName T) (bVisibleAfterLoad T) (Trigger_WarmUpSeconds T)
    (bOneShot T) (bUnloadOnExit T) (bOnlyPlayerPawn T) (bHasFired T)
    (LoadedByThisTrigger T) b.

(** [ResolveManager]: [ManagerFound] tells whether the override is valid or
    [GetActorOfClass] finds the manager. *)
Definition ResolveManager (ManagerFound : bool) (T : Trigger) : Trigger :=
  if CachedManager T then T else set_CachedManager ManagerFound T.

(** [TArray<FName>::AddUnique]: the name is looked for with the equality of
    names, so a name is not added again under another spelling. *)
Definition AddUnique (n : FName) (l : list FName) : list FName :=
  if bool_decide (n ∈ l) then l else l ++ [n].

(** The body of the loop of [LoadConfiguredLevels], on the trigger and the
    manager together. *)
Definition load_configured_level (d : float) (E : Engine)
    (LevelAsset : TSoftWorld) (TM : Trigger * Manager)
    : Trigger * Manager * list EngineCall :=
  let Short := AssetToShortLevelName LevelAsset in
  if IsNone Short then (TM, [])
  else
    let '(Mgr, calls) :=
      LoadChunkAsync d E Short (bVisibleAfterLoad TM.1)
                     (Trigger_WarmUpSeconds TM.1) TM.2 in
    (set_LoadedByThisTrigger (AddUnique Short (LoadedByThisTrigger TM.1)) TM.1,
     Mgr, calls).

Definition LoadConfiguredLevels (d : float) (E : Engine) (A : Assets)
    (TM : Trigger * Manager) : Trigger * Manager * list EngineCall :=
  let TM := (set_LoadedByThisTrigger [] TM.1, TM.2) in
  if IsEmpty (LevelGroupName TM.1) then (TM, [])
  else
    match LevelConfigAsset A with
    | None => (TM, [])
    | Some Path =>
        if IsEmpty Path then (TM, [])
        else
          match LoadLevelConfig A Path with
          | None => (TM, [])
          | Some Config =>
              for_each (load_configured_level d E)
                       (GetLevelsInGroup Config (LevelGroupName TM.1)) TM
          end
    end.

(** [OnBoxBeginOverlap]; [IsPlayerPawn] tells whether the other actor is a
    pawn that a player controls. *)
Definition OnBoxBeginOverlap (d : float) (E : Engine) (A : Assets)
    (ManagerFound IsPlayerPawn : bool) (TM : Trigger * Manager)
    : Trigger * Manager * list EngineCall :=
  if bOnlyPlayerPawn TM.1 && negb IsPlayerPawn then (TM, [])
  else if bOneShot TM.1 && bHasFired TM.1 then (TM, [])
  else
    let T := ResolveManager ManagerFound TM.1 in
    if negb (CachedManager T) then ((T, TM.2), [])
    else
      let '(T, Mgr, calls) := LoadConfiguredLevels d E A (T, TM.2) in
      ((if bOneShot T then set_bHasFired true T else T, Mgr), calls).

Definition OnBoxEndOverlap (d : float) (E : Engine)
    (ManagerFound IsPlayerPawn : bool) (TM : Trigger * Manager)
    : Trigger * Manager * list EngineCall :=
  if bOnlyPlayerPawn TM.1 && negb IsPlayerPawn then (TM, [])
  else if bUnloadOnExit TM.1 then
    let T := ResolveManager ManagerFound TM.1 in
    let '(Mgr, calls) :=
      if CachedManager T
      then for_each (UnloadChunkAsync d E) (LoadedByThisTrigger T) TM.2
      else (TM.2, []) in
    ((set_bHasFired false (set_LoadedByThisTrigger [] T), Mgr), calls)
  else (TM, []).

(** [CheckInitialOverlapOnce], run by a timer a tenth of a second after
    [BeginPlay]: [HasPlayerPawn] tells whether [GetPlayerPawn] is not null,
    [IsOverlapping] is [Box->IsOverlappingActor(PlayerPawn)], and
    [IsPlayerControlled] is the pawn's answer inside [OnBoxBeginOverlap]. *)
Definition CheckInitialOverlapOnce (d : float) (E : Engine) (A : Assets)
    (ManagerFound HasPlayerPawn IsOverlapping IsPlayerControlled : bool)
    (TM : Trigger * Manager) : Trigger * Manager * list EngineCall :=
  if bHasFired TM.1 && bOneShot TM.1 then (TM, [])
  else
    let T := ResolveManager ManagerFound TM.1 in
    if negb (CachedManager T) then ((T, TM.2), [])
    else if negb HasPlayerPawn then ((T, TM.2), [])
    else if IsOverlapping
    then OnBoxBeginOverlap d E A ManagerFound IsPlayerControlled (T, TM.2)
    else ((T, TM.2), []).

(** What happens to a trigger and the manager over time: the trigger's three
    handlers, and calls of the manager's own methods from elsewhere (a
    frame, a load, an unload), which do not see the trigger. *)
Inductive TriggerEvent : Type :=
| Ev_BeginOverlap (E : Engine) (A : Assets) (ManagerFound IsPlayerPawn : bool)
| Ev_EndOverlap (E : Engine) (ManagerFound IsPlayerPawn : bool)
| Ev_CheckInitialOverlapOnce (E : Engine) (A : Assets)
    (ManagerFound HasPlayerPawn IsOverlapping IsPlayerControlled : bool)
| Ev_Manager (method : Manager → Manager * list EngineCall).

Definition trigger_step (d : float) (ev : TriggerEvent)
    (TM : Trigger * Manager) : Trigger * Manager * list EngineCall :=
  match ev with
  | Ev_BeginOverlap E A ManagerFound IsPlayerPawn =>
      OnBoxBeginOverlap d E A ManagerFound IsPlayerPawn TM
  | Ev_EndOverlap E ManagerFound IsPlayerPawn =>
      OnBoxEndOverlap d E ManagerFound IsPlayerPawn TM
  | Ev_CheckInitialOverlapOnce E A ManagerFound HasPlayerPawn IsOverlapping
      IsPlayerControlled =>
      CheckInitialOverlapOnce d E A ManagerFound HasPlayerPawn IsOverlapping
        IsPlayerControlled TM
  | Ev_Manager method =>
      let '(Mgr, calls) := method TM.2 in ((TM.1, Mgr), calls)
  end.

Definition trigger_run (d : float) (evs : list TriggerEvent)
    (TM : Trigger * Manager) : Trigger * Manager * list EngineCall :=
  for_each (trigger_step d) evs TM.

(** The event is an end-overlap that gets to line 227 on the trigger [T]:
    past the pawn filter, with [bUnloadOnExit]. *)
Definition rearms (T : Trigger) (ev : TriggerEvent) : bool :=
  match ev with
  | Ev_EndOverlap _ _ IsPlayerPawn =>
      negb (bOnlyPlayerPawn T && negb IsPlayerPawn) && bUnloadOnExit T
  | _ => false
  end.

Definition is_manager_call (ev : TriggerEvent) : bool :=
  match ev with Ev_Manager _ => true | _ => false end.

(** What the trigger remembers is sound: no name twice, no None, and every
    name tracked by the manager. *)
Definition remembered_ok (TM : Trigger * Manager) : Prop :=
  NoDup (LoadedByThisTrigger TM.1)
  ∧ ∀ n, n ∈ LoadedByThisTrigger TM.1 →
         IsNone n = false ∧ is_Some (Find n (ChunkRecords TM.2)).

End StreamingExt.

(** ** Cinematics, the rest: what the manager asks of the engine over time,
       and the trigger volume (TLDCinematicManager.cpp,
       TLDCinematicTrigger.cpp) *)

Module CinematicExt.
Import Float32 FString Cinematic.

(** The requests the manager sends at an event. *)
Definition calls_at (E : Engine) (ev : Event) (sys : System)
    : list EngineCall :=
  match ev with
  | Call_PlaySequence Sq bP bS Pre Post =>
      (PlaySequence E Sq bP bS Pre Post (Mgr sys)).2
  | Call_PlayCinematicByName N bP bS Pre Post =>
      (PlayCinematicByName E N bP bS Pre Post (Mgr sys)).2
  | Call_SkipCurrentCinematic => (SkipCurrentCinematic E (Mgr sys)).2
  | PreDelayFires => (StartSequence E (Mgr sys)).2
  | PostDelayFires => (finish_playback E (Mgr sys)).2
  | PlayerFinished _ => (HandleSequenceFinished E (Mgr sys)).2
  end.

(** The last thing the manager told [SetPause], after some more requests. *)
Definition last_pause (calls : list EngineCall) (b : option bool)
    : option bool :=
  fold_left (λ b c, match c with SetPause p => Some p | _ => b end) calls b.

(** The system together with the last pause request of the manager. *)
Record Game : Type := mkGame {
  Sys : System;
  LastPause : option bool
}.

Definition game_step (E : Engine) (ev : Event) (g : Game) : Game :=
  mkGame (step E ev (Sys g)) (last_pause (calls_at E ev (Sys g)) (LastPause g)).

(** The states reached when every event finds a world and a player
    controller. *)
Inductive game_reachable : Game → Prop :=
| game_idle : game_reachable (mkGame idle None)
| game_next E ev g :
    game_reachable g → enabled ev (Sys g) →
    HasWorld E = true → HasPlayerController E = true →
    game_reachable (game_step E ev g).

(** Playing is never stuck: while the manager is playing, a timer is pending
    or a player runs, so that the manager is called back. *)
Definition will_be_called_back (sys : System) : Prop :=
  PreDelayPending sys = true ∨ PostDelayPending sys = true ∨ Running sys ≠ [].

Definition never_stuck (sys : System) : Prop :=
  bIsPlaying (Mgr sys) = true → will_be_called_back sys.

(** Skipping is on only for a request that allowed it. *)
Definition skip_as_requested (m : Manager) : Prop :=
  bAllowSkip m = true → bPendingSkippable m = true.

(** The manager asked for a pause last only while it is playing a request
    that asked for the pause, past the pre-delay. *)
Definition paused_while_playing (g : Game) : Prop :=
  LastPause g = Some true →
  bIsPlaying (Mgr (Sys g)) = true ∧ bPendingPause (Mgr (Sys g)) = true
  ∧ PreDelayPending (Sys g) = false.

(** *** The trigger volume: TLDCinematicTrigger.cpp *)

(** The other actor of an overlap: null, an actor that is no pawn, or a
    pawn, player controlled or not. *)
Inductive OtherActor : Type :=
| NullActor
| NotAPawn
| APawn (IsPlayerControlled : bool).

(** The properties and fields of [ATLDCinematicTrigger].  The manager is a
    subsystem of the game instance, the one modelled; [CachedManager] tells
    whether the trigger holds a pointer to it. *)
Record Trigger : Type := mkTrigger {
  Trigger_CinematicName : FString;
  bPauseGame : bool;
  bSkippable : bool;
  PreDelay : float;
  PostDelay : float;
  bOneShot : bool;
  bOnlyPlayerPawn : bool;
  bHasFired : bool;
  CachedManager : bool
}.

Definition set_bHasFired (b : bool) (T : Trigger) : Trigger :=
  mkTrigger (Trigger_CinematicName T) (bPauseGame T) (bSkippable T)
    (PreDelay T) (PostDelay T) (bOneShot T) (bOnlyPlayerPawn T) b
    (CachedManager T).
Definition set_CachedManager (b : bool) (T : Trigger) : Trigger :=
  mkTrigger (Trigger_CinematicName T) (bPauseGame T) (bSkippable T)
    (PreDelay T) (PostDelay T) (bOneShot T) (bOnlyPlayerPawn T) (bHasFired T)
    b.

(** [ResolveManager]: [ManagerFound] tells whether [GetGameInstance()] and
    its [GetSubsystem] are not null. *)
Definition ResolveManager (ManagerFound : bool) (T : Trigger) : Trigger :=
  if CachedManager T then T else set_CachedManager ManagerFound T.

Definition IsValidInstigator (T : Trigger) (Other : OtherActor) : bool :=
  match Other with
  | NullActor => false
  | NotAPawn => negb (bOnlyPlayerPawn T)
  | APawn IsPlayerControlled =>
      if bOnlyPlayerPawn T then IsPlayerControlled else true
  end.

Definition TriggerCinematic (E : Engine) (T : Trigger) (M : Manager)
    : Manager * list EngineCall :=
  if negb (CachedManager T) then (M, [])
  else if IsEmpty (Trigger_CinematicName T) then (M, [])
  else
    let '(_, M, calls) :=
      PlayCinematicByName E (Trigger_CinematicName T) (bPauseGame T)
                          (bSkippable T) (PreDelay T) (PostDelay T) M in
    (M, calls).

Definition OnBoxBeginOverlap (E : Engine) (ManagerFound : bool)
    (Other : OtherActor) (TM : Trigger * Manager)
    : Trigger * Manager * list EngineCall :=
  if bOneShot TM.1 && bHasFired TM.1 then (TM, [])
  else if negb (IsValidInstigator TM.1 Other) then (TM, [])
  else
    let T := ResolveManager ManagerFound TM.1 in
    if negb (CachedManager T) then ((T, TM.2), [])
    else
      let '(M, calls) := TriggerCinematic E T TM.2 in
      ((if bOneShot T then set_bHasFired true T else T, M), calls).

(** An overlap gets through: the trigger has not fired as a one-shot, the
    instigator is valid and the manager is found. *)
Definition accepted (ManagerFound : bool) (Other : OtherActor) (T : Trigger)
    : bool :=
  negb (bOneShot T && bHasFired T) && IsValidInstigator T Other
  && (CachedManager T || ManagerFound).

(** What the manager does at an overlap, as a method of the manager. *)
Definition overlap (E : Engine) (ManagerFound : bool) (Other : OtherActor)
    (T : Trigger) (M : Manager) : Manager * list EngineCall :=
  let r := OnBoxBeginOverlap E ManagerFound Other (T, M) in (r.1.2, r.2).

End CinematicExt.

(** ** Audio, the rest: sound effects, voice logs and music by prefix
       (TLDAudioManager.cpp) *)

Module AudioExt.
Import Float32 Audio.

Definition add : float → float → float := SFadd prec emax.
(** The literals [0.25f], [0.1f], [10.f] and [20.f]. *)
Definition quarter : float :=
  Eval vm_compute in binary_normalize prec emax 1 (-2) false.
Definition tenth : float :=
  Eval vm_compute in binary_normalize prec emax 13421773 (-27) false.
Definition ten : float := Eval vm_compute in of_Z 10.
Definition twenty : float := Eval vm_compute in of_Z 20.

Definition FVector : Type := float * float * float.
Definition ZeroVector : FVector := (zero, zero, zero).
(** A [USceneComponent*] that is not null. *)
Definition SceneComponent : Type := positive.

(** What the manager asks of the engine here: the requests on music
    components as before, and those on pooled components and on the duck
    timer. *)
Inductive AudioCall : Type :=
| Of (c : EngineCall)
| SetWorldLocation (AC : Component) (Location : FVector)
| AttachToComponent (AC : Component) (Parent : SceneComponent)
    (SocketName : string)
| SetRelativeLocation (AC : Component) (Location : FVector)
| SetVolumeMultiplier (AC : Component) (Volume : float)
| SetPitchMultiplier (AC : Component) (Pitch : float)
| Play (AC : Component)
| AdjustVolume (AC : Component) (Duration Level : float)
(** [GetTimerManager().ClearTimer(DuckTimer)] and
    [GetTimerManager().SetTimer(DuckTimer, this, &RestoreAfterVO, Rate, false)] *)
| ClearTimer_DuckTimer
| SetTimer_DuckTimer (Rate : float).

(** What the engine answers here. *)
Record Host : Type := mkHost {
  (** [GetWorld()] is not null *)
  HasWorld : bool;
  (** the location of the pawn of player controller 0, when both exist *)
  ListenerPawnLocation : option FVector;
  (** [Voice->GetDuration()] *)
  GetDuration : Sound → float;
  (** [FMath::Pow] *)
  Pow : float → float → float;
  (** [RequestGameplayTagChildren(Prefix)], as the array that
      [GetGameplayTagArray] fills *)
  RequestGameplayTagChildren : FGameplayTag → list FGameplayTag;
  (** [FMath::RandRange] *)
  RandRange : Z → Z → Z
}.

(** A call stops the program when it indexes an array out of range or
    dereferences a null world. *)
Inductive outcome (A : Type) : Type :=
| Done (a : A)
| IndexOutOfRange
| NullWorld.
Arguments Done {A} a.
Arguments IndexOutOfRange {A}.
Arguments NullWorld {A}.

Definition GetSFXByTag (st : Manager) (Tag : FGameplayTag) : option Sound :=
  match Catalog st with
  | None => None
  | Some C =>
      match SFXByTag C !! Tag with
      | Some Found => Found
      | None => None
      end
  end.

Definition PlaySFXAtLocation (Sound_ : option Sound) (Location : FVector)
    (Volume Pitch : float) (st : Manager) : result (Manager * list AudioCall) :=
  match Sound_ with
  | None => Ok (st, [])
  | Some S_ =>
      match GetPooledSFX st with
      | OutOfRange => OutOfRange
      | Ok (None, st) => Ok (st, [])
      | Ok (Some AC, st) =>
          Ok (st, [SetWorldLocation AC Location; Of (SetSound AC (Some S_));
                   SetVolumeMultiplier AC Volume; SetPitchMultiplier AC Pitch;
                   Play AC])
      end
  end.

Definition PlaySFXByTag (Tag : FGameplayTag) (Location : FVector)
    (Volume Pitch : float) (st : Manager) : result (Manager * list AudioCall) :=
  match GetSFXByTag st Tag with
  | Some S_ => PlaySFXAtLocation (Some S_) Location Volume Pitch st
  | None => Ok (st, [])
  end.

Definition PlaySFXAttached (Sound_ : option Sound)
    (Parent : option SceneComponent) (SocketName : string)
    (Volume Pitch : float) (st : Manager) : result (Manager * list AudioCall) :=
  match Sound_, Parent with
  | Some S_, Some P =>
      match GetPooledSFX st with
      | OutOfRange => OutOfRange
      | Ok (None, st) => Ok (st, [])
      | Ok (Some AC, st) =>
          Ok (st, [AttachToComponent AC P SocketName;
                   SetRelativeLocation AC ZeroVector;
                   Of (SetSound AC (Some S_));
                   SetVolumeMultiplier AC Volume; SetPitchMultiplier AC Pitch;
                   Play AC])
      end
  | _, _ => Ok (st, [])
  end.

(** The first part of [PlayVoiceLog]: the music is lowered. *)
Definition duck (H : Host) (DuckDb : float) (st : Manager) : list AudioCall :=
  match MusicAC st with
  | Some M => [AdjustVolume M quarter (Pow H ten (div DuckDb twenty))]
  | None => []
  end.

Definition PlayVoiceLog (H : Host) (Voice : option Sound) (DuckDb : float)
    (st : Manager) : outcome (Manager * list AudioCall) :=
  match Voice with
  | None => Done (st, [])
  | Some V =>
      let c0 := duck H DuckDb st in
      let ListenerLoc := default ZeroVector (ListenerPawnLocation H) in
      match GetPooledSFX st with
      | OutOfRange => IndexOutOfRange
      | Ok (None, st) => Done (st, c0)
      | Ok (Some AC, st) =>
          if HasWorld H then
            Done (st, c0 ++ [SetWorldLocation AC ListenerLoc;
                             Of (SetSound AC (Some V)); Play AC;
                             ClearTimer_DuckTimer;
                             SetTimer_DuckTimer (add (GetDuration H V) tenth)])
          else NullWorld
      end
  end.

Definition RestoreAfterVO (st : Manager) : list AudioCall :=
  match MusicAC st with
  | Some M => [AdjustVolume M quarter one]
  | None => []
  end.

(** [Candidates[i]] *)
Definition index_of {A : Type} (l : list A) (i : Z) : result A :=
  match (if (0 <=? i)%Z then l !! Z.to_nat i else None) with
  | Some x => Ok x
  | None => OutOfRange
  end.

(** The candidates of [ResolveMusicByPrefix]: the catalog's tracks of the
    children of the prefix that the catalog knows, in the order of the
    children. *)
Definition Candidates (H : Host) (C : UTLDAudioCatalog) (Prefix : FGameplayTag)
    : list (option Sound) :=
  omap (λ ChildTag, MusicByTag C !! ChildTag)
       (RequestGameplayTagChildren H Prefix).

Definition ResolveMusicByPrefix (H : Host) (st : Manager)
    (Prefix : FGameplayTag) (PickIndex : Z) (bRandom : bool)
    : result (option Sound) :=
  match Catalog st with
  | None => Ok None
  | Some C =>
      let Cands := Candidates H C Prefix in
      let N := int32 (Z.of_nat (length Cands)) in
      if bool_decide (N = 0%Z) then Ok None
      else if (0 <=? PickIndex)%Z && ((0 <=? PickIndex)%Z && (PickIndex <? N)%Z)
      then index_of Cands PickIndex
      else if bRandom then index_of Cands (RandRange H 0 (int32 (N - 1)))
      else index_of Cands 0
  end.

(** The part that [PlayMusicByTag] and [PlayMusicByPrefix] have in common:
    the track starts on the active component, or is crossfaded to. *)
Definition start_or_crossfade (E : Engine) (Track : Sound) (FadeTime : float)
    (st : Manager) : Manager * list EngineCall :=
  let '(st, c0) := EnsureMusicComponents st in
  let '(st, c1) :=
    if negb (is_playing E (ActiveMusic st))
       && negb (is_playing E (InactiveMusic st))
    then
      (st, match ActiveMusic st with
           | Some a => [SetSound a (Some Track); FadeIn a FadeTime one]
           | None => []
           end)
    else CrossfadeTo E Track FadeTime FadeTime one st in
  (st, c0 ++ c1).

Definition PlayMusicByPrefix (E : Engine) (H : Host) (MusicPrefix : FGameplayTag)
    (FadeTime : float) (PickIndex : Z) (bRandom : bool) (st : Manager)
    : result (Manager * list EngineCall) :=
  match ResolveMusicByPrefix H st MusicPrefix PickIndex bRandom with
  | OutOfRange => OutOfRange
  | Ok None => Ok (st, [])
  | Ok (Some Track) => Ok (start_or_crossfade E Track FadeTime st)
  end.

(** *** The music calls in a row *)

Inductive MusicCall : Type :=
| Call_PlayMusicByTag (MusicTag : FGameplayTag) (FadeTime : float)
| Call_PlayMusicByPrefix (H : Host) (MusicPrefix : FGameplayTag)
    (FadeTime : float) (PickIndex : Z) (bRandom : bool)
| Call_PlayMusicState (NewState : EAudioState) (FadeTime : float)
| Call_CrossfadeTo (NewTrack : option Sound)
    (FadeOutTime FadeInTime TargetVolume : float).

(** A music call that stops the program changes nothing here. *)
Definition exec_music (Ec : Engine * MusicCall) (st : Manager)
    : Manager * list EngineCall :=
  match Ec.2 with
  | Call_PlayMusicByTag T f => PlayMusicByTag Ec.1 T f st
  | Call_PlayMusicByPrefix H P f i b =>
      match PlayMusicByPrefix Ec.1 H P f i b st with
      | Ok r => r
      | OutOfRange => (st, [])
      end
  | Call_PlayMusicState S_ f => PlayMusicState Ec.1 S_ f st
  | Call_CrossfadeTo None _ _ _ => (st, [])
  | Call_CrossfadeTo (Some T) o i v => CrossfadeTo Ec.1 T o i v st
  end.

Definition run_music (l : list (Engine * MusicCall)) (st : Manager)
    : Manager * list EngineCall :=
  StreamingExt.for_each exec_music l st.

(** The music components the manager holds, and the components that a list
    of requests registers. *)
Definition music_components (st : Manager) : list Component :=
  option_list (ActiveMusic st) ++ option_list (InactiveMusic st)
  ++ option_list (MusicAC st).

Definition registered (calls : list EngineCall) : list Component :=
  omap (λ c, match c with
             | RegisterComponentWithWorld AC => Some AC
             | _ => None
             end) calls.

(** *** The plays in a row *)

Inductive PlayCall : Type :=
| Call_PlaySFXAtLocation (Sound_ : option Sound) (Location : FVector)
    (Volume Pitch : float)
| Call_PlaySFXByTag (Tag : FGameplayTag) (Location : FVector)
    (Volume Pitch : float)
| Call_PlaySFXAttached (Sound_ : option Sound) (Parent : option SceneComponent)
    (SocketName : string) (Volume Pitch : float)
| Call_PlayVoiceLog (H : Host) (Voice : option Sound) (DuckDb : float).

Definition outcome_of {A : Type} (r : result A) : outcome A :=
  match r with
  | Ok a => Done a
  | OutOfRange => IndexOutOfRange
  end.

Definition exec_play (c : PlayCall) (st : Manager)
    : outcome (Manager * list AudioCall) :=
  match c with
  | Call_PlaySFXAtLocation S_ L V P => outcome_of (PlaySFXAtLocation S_ L V P st)
  | Call_PlaySFXByTag T L V P => outcome_of (PlaySFXByTag T L V P st)
  | Call_PlaySFXAttached S_ Pa So V P =>
      outcome_of (PlaySFXAttached S_ Pa So V P st)
  | Call_PlayVoiceLog H Vo D => PlayVoiceLog H Vo D st
  end.

Fixpoint run_plays (l : list PlayCall) (st : Manager)
    : outcome (Manager * list AudioCall) :=
  match l with
  | [] => Done (st, [])
  | c :: rest =>
      match exec_play c st with
      | Done (st, calls) =>
          match run_plays rest st with
          | Done (st, calls') => Done (st, calls ++ calls')
          | IndexOutOfRange => IndexOutOfRange
          | NullWorld => NullWorld
          end
      | IndexOutOfRange => IndexOutOfRange
      | NullWorld => NullWorld
      end
  end.

(** The call has something to play: its sound is not null (for a tag, the
    catalog gives a sound), and so is the parent to attach to. *)
Definition sounds (st : Manager) (c : PlayCall) : bool :=
  match c with
  | Call_PlaySFXAtLocation S_ _ _ _ => bool_decide (is_Some S_)
  | Call_PlaySFXByTag T _ _ _ => bool_decide (is_Some (GetSFXByTag st T))
  | Call_PlaySFXAttached S_ Pa _ _ _ =>
      bool_decide (is_Some S_) && bool_decide (is_Some Pa)
  | Call_PlayVoiceLog _ Vo _ => bool_decide (is_Some Vo)
  end.

(** A voice log finds a world. *)
Definition finds_world (c : PlayCall) : bool :=
  match c with
  | Call_PlayVoiceLog H _ _ => HasWorld H
  | _ => true
  end.

(** The components that a list of requests starts playing, in order. *)
Definition played (calls : list AudioCall) : list Component :=
  omap (λ c, match c with Play AC => Some AC | _ => None end) calls.

End AudioExt.
(** * Properties *)

(** ** binary32 comparisons *)

Module Float32Props.
Import Float32.

Lemma ltb_leb (a b : float) : ltb a b = true → leb a b = true.
Proof.
  unfold ltb, leb, SFltb, SFleb.
  by destruct (SFcompare a b) as [[]|].
Qed.

(** [T <= 0] excludes [T > 0]. *)
Lemma leb_zero_not_gtb (T : float) : leb T zero = true → gtb T zero = false.
Proof. by destruct T as [[]|[]| |[] m e]. Qed.

(** [Clamp(X, 0, 1)] lies between 0 and 1, whatever [X] is, a NaN too. *)
Lemma Clamp_unit_range (X : float) :
  leb zero (Clamp X zero one) = true ∧ leb (Clamp X zero one) one = true.
Proof.
  unfold Clamp, Min, Max.
  destruct (ltb X one) eqn:H1.
  - destruct (ltb zero X) eqn:H0.
    + split; by apply ltb_leb.
    + split; reflexivity.
  - split; reflexivity.
Qed.

End Float32Props.

(** ** Level streaming *)

Module StreamingProps.
Import Float32 FString Streaming.

(** *** Names *)

Lemma ToString_inj (a b : FName) : ToString a = ToString b → a = b.
Proof. apply dsig_eq. Qed.

Lemma ToString_MakeFName (Text : FString) :
  ToString (MakeFName Text)
  = lower (if IsEmpty Text then "None"%string else Text).
Proof. done. Qed.

(** Two texts make the same name exactly when they are equal ignoring
    case. *)
Lemma MakeFName_eq (a b : FString) :
  IsEmpty a = false → IsEmpty b = false →
  MakeFName a = MakeFName b ↔ EqualsIgnoreCase a b = true.
Proof.
  intros Ha Hb. unfold EqualsIgnoreCase. rewrite bool_decide_eq_true. split.
  - intros H. apply (f_equal ToString) in H.
    by rewrite !ToString_MakeFName, Ha, Hb in H.
  - intros H. apply ToString_inj. by rewrite !ToString_MakeFName, Ha, Hb.
Qed.

(** The name of the empty text, and of "None" in any case, is [NAME_None],
    and no other is. *)
Lemma IsNone_MakeFName (Text : FString) :
  IsNone (MakeFName Text) = IsEmpty Text || EqualsIgnoreCase Text "None".
Proof.
  unfold IsNone. destruct (IsEmpty Text) eqn:HE.
  - apply bool_decide_eq_true_1 in HE. by subst.
  - cbn [orb]. destruct (EqualsIgnoreCase Text "None") eqn:HN.
    + apply bool_decide_eq_true_2. by apply MakeFName_eq.
    + apply bool_decide_eq_false_2. intros H.
      apply MakeFName_eq in H; [congruence|done..].
Qed.

Lemma Find_Add_eq (Key : FName) (Rec : FTLDChunkRecord) (M : TMap) :
  Find Key (Add Key Rec M) = Some Rec.
Proof.
  induction M as [|[k r] M IH]; simpl.
  - by rewrite bool_decide_eq_true_2.
  - destruct (bool_decide (k = Key)) eqn:Hk; simpl; rewrite Hk; [done | apply IH].
Qed.

Lemma Find_Add_ne (Key Key' : FName) (Rec : FTLDChunkRecord) (M : TMap) :
  Key ≠ Key' → Find Key' (Add Key Rec M) = Find Key' M.
Proof.
  intros Hne. induction M as [|[k r] M IH]; simpl.
  - by rewrite bool_decide_eq_false_2.
  - destruct (bool_decide (k = Key)) eqn:Hk; simpl.
    + apply bool_decide_eq_true_1 in Hk. subst k.
      by rewrite !bool_decide_eq_false_2.
    + destruct (bool_decide (k = Key')); [done | apply IH].
Qed.

(** [Tick] updates every record on its own: the record found under a key
    after the frame is the one found before, passed through [TickRecord]. *)
Lemma Find_TickRecords (E : Engine) (dt : float) (Key : FName) (M : TMap) :
  Find Key (TickRecords E dt M).1 = (λ Rec, (TickRecord E dt Rec).1) <$> Find Key M.
Proof.
  induction M as [|[k r] M IH]; simpl; [done|].
  destruct (TickRecord E dt r) as [r' c] eqn:Hr.
  destruct (TickRecords E dt M) as [M' c'] eqn:HM. simpl in *.
  destruct (bool_decide (k = Key)); simpl; [by rewrite Hr | done].
Qed.

Lemma resolve_Streaming_State (E : Engine) (Rec : FTLDChunkRecord) :
  State (resolve_Streaming E Rec) = State Rec
  ∧ WarmUpSeconds (resolve_Streaming E Rec) = WarmUpSeconds Rec
  ∧ LevelName (resolve_Streaming E Rec) = LevelName Rec.
Proof. unfold resolve_Streaming. by destruct (Streaming Rec). Qed.

Lemma Find_Tick (E : Engine) (dt : float) (Key : FName) (Mgr : Manager) :
  Find Key (ChunkRecords (Tick E dt Mgr).1)
  = (λ Rec, (TickRecord E dt Rec).1) <$> Find Key (ChunkRecords Mgr).
Proof.
  unfold Tick. rewrite <- Find_TickRecords.
  by destruct (TickRecords E dt (ChunkRecords Mgr)).
Qed.

(** What one frame does to one record, by the state it is in. *)
Lemma TickRecord_table (E : Engine) (dt : float) (Rec : FTLDChunkRecord) :
  frame_table E dt Rec (TickRecord E dt Rec).1 (TickRecord E dt Rec).2.
Proof.
  destruct Rec as [n s p w].
  unfold frame_table, warm_up_frame, TickRecord, ApplyVisibility,
    resolve_Streaming.
  destruct s; simpl; try done.
  - destruct p as [SL|]; simpl; [|done].
    destruct (IsLevelLoaded E SL) eqn:HL; simpl; [|done].
    destruct (gtb w zero); simpl; [|done].
    destruct (leb (sub w dt) zero); simpl; [|done].
    by rewrite HL.
  - destruct (gtb w zero); simpl; [|done].
    destruct (leb (sub w dt) zero); simpl; [|done].
    destruct p as [SL|]; simpl.
    + by destruct (IsLevelLoaded E SL).
    + destruct (FindStreamingLevelByName E n) as [SL|]; simpl; [|done].
      by destruct (IsLevelLoaded E SL).
Qed.

(** The requests of a frame hold the requests made for each record. *)
Lemma TickRecords_calls (E : Engine) (dt : float) (Key : FName)
    (Rec : FTLDChunkRecord) (M : TMap) :
  Find Key M = Some Rec →
  ∃ pre post, (TickRecords E dt M).2 = pre ++ (TickRecord E dt Rec).2 ++ post.
Proof.
  induction M as [|[k r] M IH]; [done|]. cbn [Find TickRecords].
  destruct (TickRecord E dt r) as [r' c] eqn:Hr.
  destruct (TickRecords E dt M) as [M' c'] eqn:HM. cbn [snd] in *.
  destruct (bool_decide (k = Key)).
  - intros [= <-]. exists [], c'. by rewrite Hr.
  - intros HF. destruct (IH HF) as (pre & post & ->).
    exists (c ++ pre), post. by rewrite <- app_assoc.
Qed.

Lemma ltb_zero_not_gtb (W : float) : ltb W zero = true → gtb W zero = false.
Proof. by destruct W as [[]|[]| |[] m e]. Qed.

(** After a load request a warm-up is pending exactly when the chunk is to
    be shown and the warm-up asked for is positive. *)
Lemma ApplyLoad_WarmUp_pending (bMake : bool) (WarmUp : float) :
  gtb (if bMake && gtb WarmUp zero then WarmUp else zero) zero
  = bMake && gtb WarmUp zero
  ∧ gtb (if bMake then Max zero WarmUp else zero) zero
    = bMake && gtb WarmUp zero.
Proof.
  destruct bMake; cbn [andb]; [|done]. split.
  - by destruct (gtb WarmUp zero) eqn:H.
  - unfold Max. destruct (ltb WarmUp zero) eqn:H; [|done].
    by rewrite (ltb_zero_not_gtb WarmUp H).
Qed.

(** C1, as stated, fails.  The claim lets a record in state LoadedHidden
    become Visible as soon as its warm-up timer, less the frame delta, is zero
    or below.  [Tick] goes through [ApplyVisibility], which first asks the
    streaming level whether it is loaded: for the record of "Cave" with one
    second left, a frame of two seconds and a level that reports not loaded,
    the record is put back to Loading. *)
Lemma Tick_warmup_elapsed_not_visible :
  ¬ (∀ (E : Engine) (dt : float) (Mgr : Manager) (Key : FName)
       (Rec : FTLDChunkRecord),
       Find Key (ChunkRecords Mgr) = Some Rec →
       State Rec = LoadedHidden →
       gtb (WarmUpSeconds Rec) zero = true →
       leb (sub (WarmUpSeconds Rec) dt) zero = true →
       ∃ Rec', Find Key (ChunkRecords (Tick E dt Mgr).1) = Some Rec'
               ∧ State Rec' = Visible).
Proof.
  intros H.
  pose (E := mkEngine None (λ _, false) (λ _, false)).
  pose (Rec := mkRecord (MakeFName "Cave") LoadedHidden (Some 1%positive) (of_Z 1)).
  destruct (H E (of_Z 2) (mkManager [(MakeFName "Cave", Rec)]) (MakeFName "Cave") Rec)
    as (Rec' & HF & HS); try reflexivity.
  vm_compute in HF. inversion HF; subst Rec'. discriminate HS.
Qed.

(** C1 (amended).  Every record holds one of the four states, and the states
    are taken in the order Unloaded, Loading, LoadedHidden, Visible as long as
    the streaming level reports loaded when it is polled.

    A load request for a chunk whose streaming level exists asks the level
    to be loaded when it is not loaded yet, and then to be visible or not;
    it records Visible when the chunk is to be shown with no warm-up, and
    else LoadedHidden when the level is loaded and Loading when it is not;
    the timer it stores is the warm-up asked for when the chunk is to be
    shown (zero otherwise, and never below zero), so that a warm-up is
    pending afterwards exactly when the chunk is to be shown and the warm-up
    asked for is positive.  With no streaming level nothing is requested and
    the state is kept.

    A frame of [Tick] does to every record what [frame_table] says, and the
    requests of the frame hold the requests made for the record: a record
    that is Unloaded or Visible is left as it is; a Loading record is left
    as it is until its streaming level reports loaded, and is LoadedHidden
    from then on; for a LoadedHidden record with a warm-up pending the timer
    is decremented by the frame delta and stored, and when it is then zero
    or below the record becomes Visible, with the timer cleared and the level
    asked to be visible, if the streaming level reports loaded, and goes
    back to Loading, the level being asked to load again with visibility
    off, if it reports not loaded. *)
Theorem chunk_state_transitions (E : Engine) :
  (∀ Rec bMake WarmUp,
     let r := ApplyLoad E Rec bMake WarmUp in
     match Streaming (resolve_Streaming E Rec) with
     | None => r = (resolve_Streaming E Rec, []) ∧ State r.1 = State Rec
     | Some SL =>
         let bShow := bMake && leb WarmUp zero in
         LevelName r.1 = LevelName Rec ∧ Streaming r.1 = Some SL
         ∧ State r.1
           = (if bShow then Visible
              else if IsLevelLoaded E SL then LoadedHidden else Loading)
         ∧ r.2 = (if IsLevelLoaded E SL then [] else [SetShouldBeLoaded SL true])
                 ++ [SetShouldBeVisible SL bShow]
         ∧ WarmUpSeconds r.1
           = (if bMake
              then if IsLevelLoaded E SL
                   then if gtb WarmUp zero then WarmUp else zero
                   else Max zero WarmUp
              else zero)
         ∧ gtb (WarmUpSeconds r.1) zero = bMake && gtb WarmUp zero
         ∧ ltb (WarmUpSeconds r.1) zero = false
     end)
  ∧ (∀ dt Mgr Key Rec,
       Find Key (ChunkRecords Mgr) = Some Rec →
       ∃ Rec' calls pre post,
         Find Key (ChunkRecords (Tick E dt Mgr).1) = Some Rec'
         ∧ (Tick E dt Mgr).2 = pre ++ calls ++ post
         ∧ State Rec' ∈ [Unloaded; Loading; LoadedHidden; Visible]
         ∧ frame_table E dt Rec Rec' calls).
Proof.
  split.
  - intros Rec bMake WarmUp. cbn zeta. unfold ApplyLoad.
    destruct (resolve_Streaming_State E Rec) as (HS & HW & HN).
    destruct (Streaming (resolve_Streaming E Rec)) as [SL|] eqn:HSL; cbn.
    + destruct (ApplyLoad_WarmUp_pending bMake WarmUp) as [Hp1 Hp2].
      destruct (IsLevelLoaded E SL); cbn.
      * split; [done|]. split; [done|].
        split; [by destruct (bMake && leb WarmUp zero)|]. split; [done|].
        split; [by destruct bMake|]. split; [exact Hp1|].
        destruct (bMake && gtb WarmUp zero) eqn:Hb; [|done].
        apply andb_true_iff in Hb as [_ Hb].
        destruct (ltb WarmUp zero) eqn:Hl; [|done].
        by rewrite (ltb_zero_not_gtb WarmUp Hl) in Hb.
      * split; [done|]. split; [done|].
        split; [by destruct (bMake && leb WarmUp zero)|]. split; [done|].
        split; [done|]. split; [exact Hp2|].
        destruct bMake; [|done]. unfold Max.
        by destruct (ltb WarmUp zero) eqn:Hl.
    + done.
  - intros dt Mgr Key Rec HF.
    destruct (TickRecords_calls E dt Key Rec (ChunkRecords Mgr) HF)
      as (pre & post & Hc).
    exists (TickRecord E dt Rec).1, (TickRecord E dt Rec).2, pre, post.
    split; [by rewrite Find_Tick, HF|]. split.
    + unfold Tick. by destruct (TickRecords E dt (ChunkRecords Mgr)).
    + split; [destruct (State _); set_solver | apply TickRecord_table].
Qed.

Lemma chunk_state_transitions_witness :
  let E := mkEngine None (λ SL, bool_decide (SL = 1%positive)) (λ _, false) in
  let Rec := mkRecord (MakeFName "Cave") LoadedHidden (Some 1%positive) (of_Z 1) in
  let Pit := mkRecord (MakeFName "Pit") LoadedHidden (Some 2%positive) (of_Z 1) in
  let Mgr := mkManager [(MakeFName "Hall",
                          mkRecord (MakeFName "Hall") Loading (Some 1%positive) zero);
                        (MakeFName "Cave", Rec); (MakeFName "Pit", Pit)] in
  (Find (MakeFName "Cave") (ChunkRecords Mgr) = Some Rec
   ∧ Find (MakeFName "pit") (ChunkRecords Mgr) = Some Pit)
  ∧ Find (MakeFName "Cave") (ChunkRecords (Tick E (of_Z 2) Mgr).1)
    = Some (mkRecord (MakeFName "Cave") Visible (Some 1%positive) zero)
  ∧ Find (MakeFName "Pit") (ChunkRecords (Tick E (of_Z 2) Mgr).1)
    = Some (mkRecord (MakeFName "Pit") Loading (Some 2%positive) (of_Z (-1)))
  ∧ (Tick E (of_Z 2) Mgr).2
    = [SetShouldBeVisible 1%positive true;
       SetShouldBeLoaded 2%positive true; SetShouldBeVisible 2%positive false].
Proof.
  intros E Rec Pit Mgr. split; [done|].
  destruct (proj2 (chunk_state_transitions E) (of_Z 2) Mgr (MakeFName "Cave")
              Rec eq_refl) as (Rec' & calls & pre & post & HF & _ & _ & HT).
  destruct (proj2 (chunk_state_transitions E) (of_Z 2) Mgr (MakeFName "pit")
              Pit eq_refl) as (Pit' & calls' & pre' & post' & HF' & _ & _ & HT').
  destruct HT as [-> _]. destruct HT' as [-> _].
  split; [exact HF|]. split; [exact HF'|]. done.
Defined.

(** *** The record a public method works on *)

Lemma chunk_streaming_GetOrAddRecord (d : float) (E : Engine) (n : FName)
    (Mgr : Manager) :
  chunk_streaming E n Mgr = Streaming (resolve_Streaming E (GetOrAddRecord d E n Mgr).1).
Proof.
  unfold chunk_streaming, GetOrAddRecord.
  destruct (Find n (ChunkRecords Mgr)) as [Rec|]; simpl; [done|].
  unfold resolve_Streaming; simpl.
  by destruct (FindStreamingLevelByName E n).
Qed.

Lemma on_record_spec (d : float) (E : Engine) (n : FName)
    (f : FTLDChunkRecord → FTLDChunkRecord * list EngineCall) (Mgr : Manager) :
  let Rec := (GetOrAddRecord d E n Mgr).1 in
  (on_record d E n f Mgr).2 = (f Rec).2
  ∧ Find n (ChunkRecords (on_record d E n f Mgr).1) = Some (f Rec).1.
Proof.
  unfold on_record. destruct (GetOrAddRecord d E n Mgr) as [Rec Mgr1]. simpl.
  destruct (f Rec) as [Rec' calls]. simpl. by rewrite Find_Add_eq.
Qed.

(** *** Load before show *)

Lemma load_before_show_nil (E : Engine) : load_before_show E [].
Proof. intros [|? ?] ? ? ?; discriminate. Qed.

Lemma load_before_show_app (E : Engine) (a b : list EngineCall) :
  load_before_show E a → load_before_show E b → load_before_show E (a ++ b).
Proof.
  intros Ha Hb pre SL post Heq.
  apply app_eq_app in Heq as [l [[-> Hl]|[-> Hl]]].
  - destruct l as [|c l]; simpl in Hl.
    + destruct (Hb [] SL post) as [?|Hin]; [done|by left|].
      by apply elem_of_nil in Hin.
    + inversion Hl; subst.
      destruct (Ha pre SL l eq_refl) as [?|?]; [by left|by right].
  - destruct (Hb l SL post Hl) as [?|Hin]; [by left|].
    right. apply elem_of_app. by right.
Qed.

Ltac short_calls :=
  let pre := fresh "pre" in
  intros pre ? ? ?;
  repeat (destruct pre as [|? pre]; simplify_eq/=);
  try (by left); try (right; set_solver).

Lemma ApplyVisibility_load_before_show (E : Engine) (Rec : FTLDChunkRecord)
    (bVisible : bool) :
  load_before_show E (ApplyVisibility E Rec bVisible).2.
Proof.
  unfold ApplyVisibility.
  destruct (Streaming (resolve_Streaming E Rec)) as [SL|]; simpl;
    [|apply load_before_show_nil].
  destruct (IsLevelLoaded E SL) eqn:HL; simpl; short_calls.
Qed.

Lemma ApplyLoad_load_before_show (E : Engine) (Rec : FTLDChunkRecord)
    (bMake : bool) (WarmUp : float) :
  load_before_show E (ApplyLoad E Rec bMake WarmUp).2.
Proof.
  unfold ApplyLoad.
  destruct (Streaming (resolve_Streaming E Rec)) as [SL|]; simpl;
    [|apply load_before_show_nil].
  destruct (IsLevelLoaded E SL) eqn:HL; simpl; short_calls.
Qed.

Lemma ApplyUnload_load_before_show (E : Engine) (Rec : FTLDChunkRecord) :
  load_before_show E (ApplyUnload E Rec).2.
Proof.
  unfold ApplyUnload.
  destruct (Streaming (resolve_Streaming E Rec)) as [SL|]; simpl;
    [short_calls | apply load_before_show_nil].
Qed.

Lemma TickRecord_load_before_show (E : Engine) (dt : float)
    (Rec : FTLDChunkRecord) :
  load_before_show E (TickRecord E dt Rec).2.
Proof.
  unfold TickRecord.
  repeat match goal with
         | |- context [if ?b then _ else _] => destruct b; simpl
         end;
    first [apply ApplyVisibility_load_before_show | apply load_before_show_nil].
Qed.

Lemma TickRecords_load_before_show (E : Engine) (dt : float) (M : TMap) :
  load_before_show E (TickRecords E dt M).2.
Proof.
  induction M as [|[k r] M IH]; simpl; [apply load_before_show_nil|].
  pose proof (TickRecord_load_before_show E dt r) as Hr.
  destruct (TickRecord E dt r) as [r' c].
  destruct (TickRecords E dt M) as [M' c']. simpl in *.
  by apply load_before_show_app.
Qed.

(** C2.  A request to change the visibility of a chunk whose streaming level
    exists and is not loaded yet asks the engine to load the level, keeps its
    visibility off and records Loading.  A load request for such a level asks
    for the load first and for visibility with it only when the chunk is to be
    shown with no warm-up left to wait for.  In [SetChunkVisible],
    [LoadChunkAsync], [UnloadChunkAsync] and [Tick], a level is asked to be
    visible only when the engine reports it loaded or after the load has been
    asked for. *)
Theorem load_precedes_show (d : float) (E : Engine) (Mgr : Manager) :
  (∀ LevelName bVisible SL,
     IsNone LevelName = false →
     chunk_streaming E LevelName Mgr = Some SL →
     IsLevelLoaded E SL = false →
     (SetChunkVisible d E LevelName bVisible Mgr).2
     = [SetShouldBeLoaded SL true; SetShouldBeVisible SL false]
     ∧ ∃ Rec', Find LevelName
                 (ChunkRecords (SetChunkVisible d E LevelName bVisible Mgr).1)
               = Some Rec'
               ∧ State Rec' = Loading)
  ∧ (∀ LevelName bMake WarmUp SL,
     IsNone LevelName = false →
     chunk_streaming E LevelName Mgr = Some SL →
     IsLevelLoaded E SL = false →
     (LoadChunkAsync d E LevelName bMake WarmUp Mgr).2
     = [SetShouldBeLoaded SL true;
        SetShouldBeVisible SL (bMake && leb WarmUp zero)])
  ∧ (∀ LevelName bVisible,
     load_before_show E (SetChunkVisible d E LevelName bVisible Mgr).2)
  ∧ (∀ LevelName bMake WarmUp,
     load_before_show E (LoadChunkAsync d E LevelName bMake WarmUp Mgr).2)
  ∧ (∀ LevelName, load_before_show E (UnloadChunkAsync d E LevelName Mgr).2)
  ∧ (∀ dt, load_before_show E (Tick E dt Mgr).2).
Proof.
  split; [|split; [|split; [|split; [|split]]]].
  - intros LevelName bVisible SL HN HS HL.
    unfold SetChunkVisible. rewrite HN.
    destruct (on_record_spec d E LevelName
                (λ Rec, ApplyVisibility E Rec bVisible) Mgr) as [-> ->].
    rewrite (chunk_streaming_GetOrAddRecord d) in HS.
    unfold ApplyVisibility. rewrite HS, HL. simpl. eauto.
  - intros LevelName bMake WarmUp SL HN HS HL.
    unfold LoadChunkAsync. rewrite HN.
    destruct (on_record_spec d E LevelName
                (λ Rec, ApplyLoad E Rec bMake WarmUp) Mgr) as [-> _].
    rewrite (chunk_streaming_GetOrAddRecord d) in HS.
    unfold ApplyLoad. by rewrite HS, HL.
  - intros LevelName bVisible. unfold SetChunkVisible.
    destruct (IsNone LevelName); [apply load_before_show_nil|].
    destruct (on_record_spec d E LevelName
                (λ Rec, ApplyVisibility E Rec bVisible) Mgr) as [-> _].
    apply ApplyVisibility_load_before_show.
  - intros LevelName bMake WarmUp. unfold LoadChunkAsync.
    destruct (IsNone LevelName); [apply load_before_show_nil|].
    destruct (on_record_spec d E LevelName
                (λ Rec, ApplyLoad E Rec bMake WarmUp) Mgr) as [-> _].
    apply ApplyLoad_load_before_show.
  - intros LevelName. unfold UnloadChunkAsync.
    destruct (IsNone LevelName); [apply load_before_show_nil|].
    destruct (on_record_spec d E LevelName (ApplyUnload E) Mgr) as [-> _].
    apply ApplyUnload_load_before_show.
  - intros dt. unfold Tick.
    pose proof (TickRecords_load_before_show E dt (ChunkRecords Mgr)) as HT.
    by destruct (TickRecords E dt (ChunkRecords Mgr)).
Qed.

Lemma load_precedes_show_witness :
  let W := mkWorld (λ n, if bool_decide (n = MakeFName "Cave") then Some 7%positive else None)
                   [] (λ _, "Cave") in
  let E := mkEngine (Some W) (λ _, false) (λ _, false) in
  let Mgr := mkManager [] in
  (IsNone (MakeFName "Cave") = false
   ∧ chunk_streaming E (MakeFName "Cave") Mgr = Some 7%positive
   ∧ IsLevelLoaded E 7%positive = false)
  ∧ (SetChunkVisible zero E (MakeFName "Cave") true Mgr).2
    = [SetShouldBeLoaded 7%positive true; SetShouldBeVisible 7%positive false]
  ∧ (LoadChunkAsync zero E (MakeFName "Cave") true (of_Z 3) Mgr).2
    = [SetShouldBeLoaded 7%positive true; SetShouldBeVisible 7%positive false]
  ∧ (LoadChunkAsync zero E (MakeFName "Cave") true zero Mgr).2
    = [SetShouldBeLoaded 7%positive true; SetShouldBeVisible 7%positive true].
Proof.
  intros W E Mgr.
  destruct (load_precedes_show zero E Mgr) as (HV & HL & _).
  split; [repeat split; reflexivity|].
  split; [|split].
  - apply (HV (MakeFName "Cave") true 7%positive); reflexivity.
  - apply (HL (MakeFName "Cave") true (of_Z 3) 7%positive); reflexivity.
  - apply (HL (MakeFName "Cave") true zero 7%positive); reflexivity.
Defined.

(** C3.  Unloading a chunk whose streaming level exists asks the engine to
    hide the level and then to unload it, in that order, and leaves the
    chunk's record in state Unloaded with [WarmUpSeconds] at 0. *)
Theorem unload_hides_first (E : Engine) (SL : LevelStreaming) :
  (∀ Rec,
     Streaming (resolve_Streaming E Rec) = Some SL →
     (ApplyUnload E Rec).2
     = [SetShouldBeVisible SL false; SetShouldBeLoaded SL false]
     ∧ State (ApplyUnload E Rec).1 = Unloaded
     ∧ WarmUpSeconds (ApplyUnload E Rec).1 = zero)
  ∧ (∀ d LevelName Mgr,
     IsNone LevelName = false →
     chunk_streaming E LevelName Mgr = Some SL →
     (UnloadChunkAsync d E LevelName Mgr).2
     = [SetShouldBeVisible SL false; SetShouldBeLoaded SL false]
     ∧ ∃ Rec', Find LevelName (ChunkRecords (UnloadChunkAsync d E LevelName Mgr).1)
               = Some Rec'
               ∧ State Rec' = Unloaded ∧ WarmUpSeconds Rec' = zero).
Proof.
  assert (∀ Rec, Streaming (resolve_Streaming E Rec) = Some SL →
     (ApplyUnload E Rec).2
     = [SetShouldBeVisible SL false; SetShouldBeLoaded SL false]
     ∧ State (ApplyUnload E Rec).1 = Unloaded
     ∧ WarmUpSeconds (ApplyUnload E Rec).1 = zero) as HA.
  { intros Rec HS. unfold ApplyUnload. by rewrite HS. }
  split; [exact HA|].
  intros d LevelName Mgr HN HS. unfold UnloadChunkAsync. rewrite HN.
  rewrite (chunk_streaming_GetOrAddRecord d) in HS.
  destruct (on_record_spec d E LevelName (ApplyUnload E) Mgr) as [-> ->].
  destruct (HA _ HS) as (? & ? & ?). eauto.
Qed.

Lemma unload_hides_first_witness :
  let E := mkEngine None (λ _, true) (λ _, true) in
  let Rec := mkRecord (MakeFName "Cave") Visible (Some 7%positive) (of_Z 3) in
  let Mgr := mkManager [(MakeFName "Cave", Rec)] in
  (IsNone (MakeFName "Cave") = false ∧ chunk_streaming E (MakeFName "Cave") Mgr = Some 7%positive)
  ∧ (UnloadChunkAsync zero E (MakeFName "Cave") Mgr).2
    = [SetShouldBeVisible 7%positive false; SetShouldBeLoaded 7%positive false]
  ∧ ∃ Rec', Find (MakeFName "Cave") (ChunkRecords (UnloadChunkAsync zero E (MakeFName "Cave") Mgr).1)
            = Some Rec'
            ∧ State Rec' = Unloaded ∧ WarmUpSeconds Rec' = zero.
Proof.
  intros E Rec Mgr. split; [split; reflexivity|].
  apply (proj2 (unload_hides_first E 7%positive) zero (MakeFName "Cave") Mgr); reflexivity.
Defined.

(** C4.  For a name with a record, [IsChunkLoaded] is true exactly when the
    record's state is LoadedHidden or Visible and [IsChunkVisible] exactly
    when it is Visible.  For a name without a record both ask the streaming
    level that [FindStreamingLevelByName] gives, and are false when it gives
    none.  A name has a record whatever the case it is written in: two texts
    that are equal ignoring case name the same record and get the same
    answers. *)
Theorem chunk_queries (E : Engine) (LevelName : FName) (Mgr : Manager) :
  (∀ Rec,
     Find LevelName (ChunkRecords Mgr) = Some Rec →
     (IsChunkLoaded E LevelName Mgr = true
      ↔ State Rec = LoadedHidden ∨ State Rec = Visible)
     ∧ (IsChunkVisible E LevelName Mgr = true ↔ State Rec = Visible))
  ∧ (Find LevelName (ChunkRecords Mgr) = None →
     (∀ SL, FindStreamingLevelByName E LevelName = Some SL →
        IsChunkLoaded E LevelName Mgr = IsLevelLoaded E SL
        ∧ IsChunkVisible E LevelName Mgr = IsLevelVisible E SL)
     ∧ (FindStreamingLevelByName E LevelName = None →
        IsChunkLoaded E LevelName Mgr = false
        ∧ IsChunkVisible E LevelName Mgr = false))
  ∧ (∀ Text Text',
       IsEmpty Text = false → IsEmpty Text' = false →
       EqualsIgnoreCase Text Text' = true →
       Find (MakeFName Text) (ChunkRecords Mgr)
       = Find (MakeFName Text') (ChunkRecords Mgr)
       ∧ IsChunkLoaded E (MakeFName Text) Mgr
         = IsChunkLoaded E (MakeFName Text') Mgr
       ∧ IsChunkVisible E (MakeFName Text) Mgr
         = IsChunkVisible E (MakeFName Text') Mgr).
Proof.
  unfold IsChunkLoaded, IsChunkVisible. split; [|split].
  - intros Rec ->. split.
    + rewrite orb_true_iff, !bool_decide_eq_true. done.
    + by rewrite bool_decide_eq_true.
  - intros ->. split.
    + by intros SL ->.
    + by intros ->.
  - intros Text Text' HE HE' Heq.
    by rewrite (proj2 (MakeFName_eq Text Text' HE HE') Heq).
Qed.

Lemma chunk_queries_witness :
  let E := mkEngine None (λ _, false) (λ _, false) in
  let Rec := mkRecord (MakeFName "Cave") LoadedHidden (Some 7%positive) zero in
  let Mgr := mkManager [(MakeFName "Cave", Rec)] in
  (Find (MakeFName "cave") (ChunkRecords Mgr) = Some Rec
   ∧ Find (MakeFName "Hall") (ChunkRecords Mgr) = None
   ∧ FindStreamingLevelByName E (MakeFName "Hall") = None)
  ∧ (IsChunkLoaded E (MakeFName "cave") Mgr = true
     ↔ State Rec = LoadedHidden ∨ State Rec = Visible)
  ∧ (IsChunkVisible E (MakeFName "cave") Mgr = true ↔ State Rec = Visible)
  ∧ IsChunkLoaded E (MakeFName "CAVE") Mgr = true
  ∧ IsChunkLoaded E (MakeFName "Hall") Mgr = false
  ∧ IsChunkVisible E (MakeFName "Hall") Mgr = false.
Proof.
  intros E Rec Mgr. split; [repeat split; reflexivity|].
  destruct (proj1 (chunk_queries E (MakeFName "cave") Mgr) Rec eq_refl)
    as [HL HV].
  destruct (proj1 (proj2 (chunk_queries E (MakeFName "Hall") Mgr)) eq_refl)
    as [_ HN].
  destruct (HN eq_refl) as [? ?].
  split; [exact HL|]. split; [exact HV|].
  split; [|done]. apply HL. by left.
Defined.

End StreamingProps.

(** ** Overlays and the HUD event bus *)

Module UIProps.
Import Float32 UI.

(** *** The scan of the pool *)

Lemma scan_pool_last (E : Engine) (kept : list Widget) (P : Widget) :
  scan_pool E (length (kept ++ [P])) (kept ++ [P])
  = if IsValid E P then (Some P, kept) else scan_pool E (length kept) kept.
Proof.
  rewrite length_app, Nat.add_1_r. simpl.
  rewrite (list_lookup_middle kept [] P (length kept) eq_refl).
  pose proof (delete_middle kept [] P) as Hd. rewrite app_nil_r in Hd.
  by rewrite Hd.
Qed.

Lemma scan_pool_found (E : Engine) (kept dead : list Widget) (P : Widget) :
  IsValid E P = true → all_collected E dead →
  scan_pool E (length (kept ++ P :: dead)) (kept ++ P :: dead) = (Some P, kept).
Proof.
  intros HP. induction dead as [|x dead IH] using rev_ind; intros Hd.
  - by rewrite scan_pool_last, HP.
  - unfold all_collected in *.
    rewrite Forall_app, Forall_singleton in Hd. destruct Hd as [Hd Hx].
    replace (kept ++ P :: dead ++ [x]) with ((kept ++ P :: dead) ++ [x])
      by by rewrite <- app_assoc.
    rewrite scan_pool_last, Hx. by apply IH.
Qed.

Lemma scan_pool_none (E : Engine) (Pool : list Widget) :
  all_collected E Pool → scan_pool E (length Pool) Pool = (None, []).
Proof.
  induction Pool as [|x Pool IH] using rev_ind; intros Hd; [done|].
  unfold all_collected in *.
  rewrite Forall_app, Forall_singleton in Hd. destruct Hd as [Hd Hx].
  rewrite scan_pool_last, Hx. by apply IH.
Qed.

(** A pool holds no valid widget, or it has a last valid one. *)
Lemma pool_last_valid (E : Engine) (Pool : list Widget) :
  all_collected E Pool
  ∨ ∃ kept P dead,
      Pool = kept ++ P :: dead ∧ IsValid E P = true ∧ all_collected E dead.
Proof.
  induction Pool as [|x Pool IH] using rev_ind; [left; constructor|].
  destruct (IsValid E x) eqn:Hx.
  - right. exists Pool, x, []. repeat split; [done|constructor].
  - destruct IH as [Hd|(kept & P & dead & -> & HP & Hd)].
    + left. apply Forall_app. split; [done|by apply Forall_singleton].
    + right. exists kept, P, (dead ++ [x]). repeat split; [|done|].
      * by rewrite <- app_assoc.
      * apply Forall_app. split; [done|by apply Forall_singleton].
Qed.

(** *** Live or pooled, never both *)

Lemma create_fresh_keeps (E : Engine) (o : ETLDUIOverlay)
    (Cfg : FTLDOverlayConfig) (st : Manager) :
  live_xor_pooled st →
  (∀ Pool, Pooled st !! o = Some Pool → Pool = []) →
  live_xor_pooled (create_fresh E o Cfg st).2.
Proof.
  intros Hinv Hempty. unfold create_fresh.
  destruct (Cfg_WidgetClass Cfg) as [C|]; [|done].
  destruct (HasWorld E); [|done].
  destruct (CreateWidget E C) as [NewW|]; [|done].
  intros o' Pool HP. simpl in *. destruct (Hinv o' Pool HP) as [Hnd Hlive].
  split; [done|]. intros W HW.
  destruct (decide (o = o')) as [<-|Hne].
  - rewrite (Hempty Pool HP). apply not_elem_of_nil.
  - rewrite lookup_insert_ne in HW by done. by apply Hlive.
Qed.

Lemma CreateOrReuse_keeps (E : Engine) (o : ETLDUIOverlay)
    (Cfg : FTLDOverlayConfig) (st : Manager) :
  live_xor_pooled st → live_xor_pooled (CreateOrReuse E o Cfg st).2.
Proof.
  intros Hinv. unfold CreateOrReuse.
  destruct (GetOverlay E o st) as [Live|]; [done|].
  destruct (Pooled st !! o) as [Pool|] eqn:HPool.
  - destruct (Hinv o Pool HPool) as [Hnd _].
    destruct (pool_last_valid E Pool) as [Hd|(kept & P & dead & -> & HP & Hd)].
    + rewrite (scan_pool_none E Pool Hd). apply create_fresh_keeps.
      * intros o' Pool' HP'. simpl in *.
        destruct (decide (o = o')) as [<-|Hne].
        -- rewrite lookup_insert_eq in HP'. inversion HP'; subst Pool'.
           split; [constructor|]. intros; apply not_elem_of_nil.
        -- rewrite lookup_insert_ne in HP' by done. by apply Hinv.
      * intros Pool' HP'. simpl in HP'. rewrite lookup_insert_eq in HP'.
        by inversion HP'.
    + rewrite (scan_pool_found E kept dead P HP Hd).
      intros o' Pool' HP'. simpl in *.
      destruct (decide (o = o')) as [<-|Hne].
      * rewrite lookup_insert_eq in HP'. inversion HP'; subst Pool'.
        apply NoDup_app in Hnd as (Hk & Hdisj & _).
        split; [done|]. intros W HW. rewrite lookup_insert_eq in HW.
        inversion HW; subst W. intros Hin. apply (Hdisj P Hin). by left.
      * rewrite lookup_insert_ne in HP' by done.
        destruct (Hinv o' Pool' HP') as [? Hl]. split; [done|].
        intros W HW. rewrite lookup_insert_ne in HW by done. by apply Hl.
  - apply create_fresh_keeps; [done|]. intros Pool HP. congruence.
Qed.

Lemma ReturnToPoolOrDiscard_keeps (o : ETLDUIOverlay) (W : Widget)
    (bKeepInPool : bool) (st : Manager) :
  live_xor_pooled st →
  LiveWidgets st !! o = Some W →
  live_xor_pooled (ReturnToPoolOrDiscard o (Some W) bKeepInPool st).1.
Proof.
  intros Hinv HW o' Pool HP. unfold ReturnToPoolOrDiscard in HP |- *.
  destruct bKeepInPool; simpl in *.
  - destruct (decide (o = o')) as [<-|Hne].
    + rewrite lookup_insert_eq in HP. inversion HP; subst Pool.
      split; [|intros W'; by rewrite lookup_delete_eq].
      destruct (Pooled st !! o) as [Pool|] eqn:HPool; simpl.
      * destruct (Hinv o Pool HPool) as [Hnd Hl].
        apply NoDup_app. split; [done|]. split; [|apply NoDup_singleton].
        intros x Hx Hx'. apply list_elem_of_singleton in Hx'. subst x.
        by apply (Hl W HW).
      * apply NoDup_singleton.
    + rewrite lookup_insert_ne in HP by done.
      destruct (Hinv o' Pool HP) as [? Hl]. split; [done|].
      intros W'. rewrite lookup_delete_ne by done. apply Hl.
  - destruct (Hinv o' Pool HP) as [? Hl]. split; [done|].
    intros W' HW'. destruct (decide (o = o')) as [<-|Hne].
    + by rewrite lookup_delete_eq in HW'.
    + rewrite lookup_delete_ne in HW' by done. by apply Hl.
Qed.

Lemma GetOverlay_live (E : Engine) (o : ETLDUIOverlay) (st : Manager) (W : Widget) :
  GetOverlay E o st = Some W → LiveWidgets st !! o = Some W ∧ IsValid E W = true.
Proof.
  unfold GetOverlay. destruct (LiveWidgets st !! o) as [W'|]; [|done].
  destruct (IsValid E W') eqn:HV; [|done]. by intros [= ->].
Qed.

Lemma CacheHUDIfPresent_keeps (E : Engine) (st : Manager) :
  live_xor_pooled st → live_xor_pooled (CacheHUDIfPresent E st).
Proof. unfold CacheHUDIfPresent. by destruct (GetOverlay E HUD st). Qed.

Lemma ShowOverlay_keeps (E : Engine) (o : ETLDUIOverlay) (st : Manager) :
  live_xor_pooled st → live_xor_pooled (ShowOverlay E o st).1.2.
Proof.
  intros Hinv. unfold ShowOverlay.
  destruct (CurrentConfig st) as [Config|]; [|done].
  destruct (Overlays Config !! o) as [Cfg|]; [|done].
  pose proof (CreateOrReuse_keeps E o Cfg st Hinv) as HC.
  destruct (CreateOrReuse E o Cfg st) as [[W|] st']; simpl in *; [|done].
  destruct (bool_decide (o = HUD)); [by apply CacheHUDIfPresent_keeps|done].
Qed.

Lemma HideOverlay_keeps (E : Engine) (o : ETLDUIOverlay) (st : Manager) :
  live_xor_pooled st → live_xor_pooled (HideOverlay E o st).1.
Proof.
  intros Hinv. unfold HideOverlay.
  destruct (CurrentConfig st) as [Config|]; [|done].
  destruct (Overlays Config !! o) as [Cfg|]; [|done].
  destruct (GetOverlay E o st) as [W|] eqn:HG; [|done].
  apply GetOverlay_live in HG as [HL _].
  pose proof (ReturnToPoolOrDiscard_keeps o W (Cfg_bPersistent Cfg) st Hinv HL) as HR.
  by destruct (ReturnToPoolOrDiscard o (Some W) (Cfg_bPersistent Cfg) st).
Qed.

Lemma exec_keeps (E : Engine) (c : Call) (st : Manager) :
  live_xor_pooled st → live_xor_pooled (exec E c st).
Proof.
  intros Hinv. destruct c as [o|o|o|cfg|]; simpl.
  - by apply ShowOverlay_keeps.
  - by apply HideOverlay_keeps.
  - unfold ToggleOverlay. destruct (IsOverlayVisible E o st).
    + by apply HideOverlay_keeps.
    + pose proof (ShowOverlay_keeps E o st Hinv) as HS.
      by destruct (ShowOverlay E o st) as [[? ?] ?].
  - done.
  - intros o Pool HP. simpl in HP. by rewrite lookup_empty in HP.
Qed.

Lemma reachable_live_xor_pooled (st : Manager) :
  reachable st → live_xor_pooled st.
Proof.
  induction 1 as [|E c st _ IH].
  - intros o Pool HP. simpl in HP. by rewrite lookup_empty in HP.
  - by apply exec_keeps.
Qed.

(** C5.  A widget of an overlay is live or pooled, never both: in every
    manager reached by the public methods, the pool of an overlay holds no
    widget twice and does not hold the overlay's live widget, and
    [CreateOrReuse] and [ReturnToPoolOrDiscard] (called, as [HideOverlay]
    does, on the live widget) keep it so.  [CreateOrReuse] returns the live
    widget when there is one; otherwise it takes the last valid widget of the
    pool out of the pool and makes it live; otherwise it makes the widget that
    [CreateWidget] gives live, and returns the null pointer, with
    [LiveWidgets] as it was, when no widget can be created.
    [ReturnToPoolOrDiscard], for a widget that is
    not null, removes the overlay's entry from [LiveWidgets], and appends the
    widget to the pool exactly when [bKeepInPool] is true. *)
Theorem live_or_pooled_never_both :
  (∀ st, reachable st → live_xor_pooled st)
  ∧ (∀ E o Cfg st,
       live_xor_pooled st → live_xor_pooled (CreateOrReuse E o Cfg st).2)
  ∧ (∀ o W keep st,
       live_xor_pooled st → LiveWidgets st !! o = Some W →
       live_xor_pooled (ReturnToPoolOrDiscard o (Some W) keep st).1)
  ∧ (∀ E o Cfg st Live,
       GetOverlay E o st = Some Live →
       CreateOrReuse E o Cfg st = (Some Live, st))
  ∧ (∀ E o Cfg st kept P dead,
       GetOverlay E o st = None →
       Pooled st !! o = Some (kept ++ P :: dead) →
       IsValid E P = true → all_collected E dead →
       CreateOrReuse E o Cfg st
       = (Some P,
          mkManager (CurrentConfig st) (<[o := P]> (LiveWidgets st))
                    (<[o := kept]> (Pooled st)) (HUDRoot st)))
  ∧ (∀ E o Cfg st C NewW,
       GetOverlay E o st = None →
       (∀ Pool, Pooled st !! o = Some Pool → all_collected E Pool) →
       Cfg_WidgetClass Cfg = Some C → HasWorld E = true →
       CreateWidget E C = Some NewW →
       (CreateOrReuse E o Cfg st).1 = Some NewW
       ∧ LiveWidgets (CreateOrReuse E o Cfg st).2 = <[o := NewW]> (LiveWidgets st))
  ∧ (∀ E o Cfg st,
       GetOverlay E o st = None →
       (∀ Pool, Pooled st !! o = Some Pool → all_collected E Pool) →
       Cfg_WidgetClass Cfg ≫= CreateWidget E = None ∨ HasWorld E = false →
       (CreateOrReuse E o Cfg st).1 = None
       ∧ LiveWidgets (CreateOrReuse E o Cfg st).2 = LiveWidgets st)
  ∧ (∀ o W keep st,
       LiveWidgets (ReturnToPoolOrDiscard o (Some W) keep st).1
       = delete o (LiveWidgets st)
       ∧ Pooled (ReturnToPoolOrDiscard o (Some W) keep st).1
         = if keep
           then <[o := default [] (Pooled st !! o) ++ [W]]> (Pooled st)
           else Pooled st).
Proof.
  split; [exact reachable_live_xor_pooled|].
  split; [exact CreateOrReuse_keeps|].
  split; [exact ReturnToPoolOrDiscard_keeps|].
  split; [|split; [|split; [|split]]].
  - intros E o Cfg st Live HG. unfold CreateOrReuse. by rewrite HG.
  - intros E o Cfg st kept P dead HG HP HV Hd. unfold CreateOrReuse.
    by rewrite HG, HP, (scan_pool_found E kept dead P HV Hd).
  - intros E o Cfg st C NewW HG Hd HC HW HN. unfold CreateOrReuse. rewrite HG.
    destruct (Pooled st !! o) as [Pool|].
    + rewrite (scan_pool_none E Pool (Hd Pool eq_refl)).
      unfold create_fresh. by rewrite HC, HW, HN.
    + unfold create_fresh. by rewrite HC, HW, HN.
  - intros E o Cfg st HG Hd Hfail.
    assert (∀ st', (create_fresh E o Cfg st').1 = None
                   ∧ LiveWidgets (create_fresh E o Cfg st').2 = LiveWidgets st')
      as Hnone.
    { intros st'. unfold create_fresh.
      destruct (Cfg_WidgetClass Cfg) as [C|]; simpl in *; [|done].
      destruct (HasWorld E); [|done].
      destruct Hfail as [->|?]; done. }
    unfold CreateOrReuse. rewrite HG.
    destruct (Pooled st !! o) as [Pool|]; [|apply Hnone].
    rewrite (scan_pool_none E Pool (Hd Pool eq_refl)).
    apply (Hnone (set_Pooled (<[o := []]> (Pooled st)) st)).
  - intros o W keep st. unfold ReturnToPoolOrDiscard. by destruct keep.
Qed.

Lemma live_or_pooled_never_both_witness :
  let Cfg := mkOverlayConfig (Some 1%positive) 0 GameOnly 0 0 true in
  let E := mkEngine true true (λ W, bool_decide (W ≠ 4%positive))
             (λ _, Some 9%positive) (λ _, false) (λ _, true) (λ _, true)
             (λ _, true) (mkChannelPayload "Cast" None false false zero) in
  let live := mkManager None {[HUD := 5%positive]} ∅ None in
  let pooled := mkManager None ∅ {[Pause := [3%positive; 4%positive]]} None in
  let shown :=
    exec E (Call_ShowOverlay HUD)
         (exec E (Call_SetConfig (Some (mkUiConfig {[HUD := Cfg]}))) fresh) in
  (reachable shown ∧ live_xor_pooled shown)
  ∧ (GetOverlay E HUD live = Some 5%positive
     ∧ CreateOrReuse E HUD Cfg live = (Some 5%positive, live))
  ∧ ((GetOverlay E Pause pooled = None
      ∧ Pooled pooled !! Pause = Some ([] ++ 3%positive :: [4%positive])
      ∧ IsValid E 3%positive = true ∧ all_collected E [4%positive])
     ∧ CreateOrReuse E Pause Cfg pooled
       = (Some 3%positive,
          mkManager None (<[Pause := 3%positive]> ∅) (<[Pause := []]> (Pooled pooled))
                    None))
  ∧ (CreateOrReuse E Wolf Cfg fresh).1 = Some 9%positive
  ∧ (live_xor_pooled live ∧ LiveWidgets live !! HUD = Some 5%positive)
  ∧ live_xor_pooled (ReturnToPoolOrDiscard HUD (Some 5%positive) true live).1.
Proof.
  intros Cfg E live pooled shown.
  destruct live_or_pooled_never_both as (HR & _ & HK & HL & HP & HF & _ & _).
  assert (reachable shown) as Hshown by (do 2 apply reach_call; apply reach_fresh).
  assert (live_xor_pooled live) as Hlive.
  { intros o Pool HPool. simpl in HPool. by rewrite lookup_empty in HPool. }
  split; [split; [exact Hshown | exact (HR shown Hshown)]|].
  split; [split; [reflexivity | by apply HL]|].
  split.
  { assert (all_collected E [4%positive]) as Hd
      by (apply Forall_singleton; reflexivity).
    split; [split; [reflexivity|split; [reflexivity|split; [reflexivity|exact Hd]]]|].
    by apply (HP E Pause Cfg pooled [] 3%positive [4%positive]). }
  split.
  { apply (HF E Wolf Cfg fresh 1%positive 9%positive); try reflexivity.
    intros Pool HPool. simpl in HPool. by rewrite lookup_empty in HPool. }
  split; [split; [exact Hlive | reflexivity]|].
  by apply (HK HUD 5%positive true live).
Defined.

(** *** The cast bar *)

(** [Deinitialize] clears every field and takes off the screen exactly the
    live widgets that are still valid, in the order of the walk. *)
Lemma Deinitialize_requests (E : Engine)
    (Walk : list (ETLDUIOverlay * Widget)) (st : Manager) :
  is_walk Walk st →
  (Deinitialize E Walk st).1 = fresh
  ∧ ∀ c, c ∈ (Deinitialize E Walk st).2
         ↔ ∃ Overlay W, LiveWidgets st !! Overlay = Some W
                        ∧ IsValid E W = true ∧ c = RemoveFromParent W.
Proof.
  intros HW. split; [done|]. intros c. unfold Deinitialize. cbn [snd].
  rewrite list_elem_of_fmap. split.
  - intros ([k W] & -> & [HV Hin]%list_elem_of_filter).
    unfold is_walk in HW. rewrite HW in Hin.
    apply elem_of_map_to_list in Hin. by exists k, W.
  - intros (k & W & HL & HV & ->). exists (k, W). split; [done|].
    apply list_elem_of_filter. split; [done|].
    unfold is_walk in HW. rewrite HW. by apply elem_of_map_to_list.
Qed.

Lemma progress_check_spec (e t : Z) :
  progress_check e t = true →
  is_progress_of (ChannelProgress (of_Z e) (of_Z t)) e t.
Proof.
  unfold progress_check, is_progress_of.
  destruct (to_Q (ChannelProgress (of_Z e) (of_Z t))) as [q|]; [|done].
  intros H. exists q. split; [done|]. cbn zeta in *.
  destruct (e <=? 0)%Z; [by apply QArith_base.Qeq_bool_iff|].
  destruct (t <=? e)%Z; [by apply QArith_base.Qeq_bool_iff|].
  by apply QArith_base.Qle_bool_iff.
Qed.

Lemma whole_check_spec (n : Z) : whole_check n = true → is_whole (of_Z n) n.
Proof.
  unfold whole_check, is_whole. destruct (to_Q (of_Z n)) as [q|]; [|done].
  intros H. exists q. split; [done|]. by apply QArith_base.Qeq_bool_iff.
Qed.

(** Every progress of up to a hundred parts, checked by evaluation. *)
Lemma progress_checks :
  forallb (λ t, forallb (λ e, progress_check e t) (seqZ (-100) 301))
          (seqZ 1 100) = true
  ∧ forallb whole_check (seqZ (-100) 301) = true.
Proof. split; vm_compute; reflexivity. Qed.

(** C8.  Whatever [OnChannelTick_UI] sends to the HUD is the event
    "UI.HUD.Channel.Progress" with [Progress01] set to the progress of line
    725, and that event is sent when the HUD root is valid and has
    [ApplyUIEvent].  With [Total > 0] the progress is the quotient
    [Elapsed / Total] itself when the quotient lies between 0 and 1, is 0
    when the quotient is not above 0, and is 1 when the quotient is not below
    1; it is 0 when [Total <= 0]; it always lies between 0 and 1.  The
    quotient is the fraction: for whole numbers [e] and [t] of up to a
    hundred parts, which binary32 holds exactly, the progress of [e] out of
    [t] is exactly 0 for [e <= 0], exactly 1 for [e >= t], and in between
    the fraction [e/t] up to the rounding of binary32. *)
Theorem channel_progress_clamped (E : Engine) (st : Manager)
    (Elapsed Total : float) :
  (∀ c, c ∈ OnChannelTick_UI E st Elapsed Total →
     ∃ Root P, c = ApplyUIEvent Root "UI.HUD.Channel.Progress" P
               ∧ Progress01 P = ChannelProgress Elapsed Total)
  ∧ (∀ Root, HUDRoot st = Some Root → IsValid E Root = true →
       HasApplyUIEvent E Root = true →
       ∃ P, OnChannelTick_UI E st Elapsed Total
            = [ApplyUIEvent Root "UI.HUD.Channel.Progress" P]
            ∧ Progress01 P = ChannelProgress Elapsed Total)
  ∧ (gtb Total zero = true →
     ChannelProgress Elapsed Total = Clamp (div Elapsed Total) zero one
     ∧ (ltb zero (div Elapsed Total) = true →
        ltb (div Elapsed Total) one = true →
        ChannelProgress Elapsed Total = div Elapsed Total)
     ∧ (ltb (div Elapsed Total) one = true →
        ltb zero (div Elapsed Total) = false →
        ChannelProgress Elapsed Total = zero)
     ∧ (ltb (div Elapsed Total) one = false →
        ChannelProgress Elapsed Total = one))
  ∧ (leb Total zero = true → ChannelProgress Elapsed Total = zero)
  ∧ leb zero (ChannelProgress Elapsed Total) = true
  ∧ leb (ChannelProgress Elapsed Total) one = true
  ∧ (∀ e t : Z,
       (0 < t ≤ 100)%Z → (-100 ≤ e ≤ 200)%Z →
       is_whole (of_Z e) e ∧ is_whole (of_Z t) t
       ∧ is_progress_of (ChannelProgress (of_Z e) (of_Z t)) e t).
Proof.
  split; [|split; [|split; [|split; [|split; [|split]]]]].
  - intros c. unfold OnChannelTick_UI, HUD_SendEvent.
    destruct (HUDRoot st) as [Root|]; [|by intros ?%elem_of_nil].
    destruct (IsValid E Root && HasApplyUIEvent E Root);
      [|by intros ?%elem_of_nil].
    intros ->%list_elem_of_singleton. eauto.
  - intros Root HR HV HF. unfold OnChannelTick_UI, HUD_SendEvent.
    rewrite HR, HV, HF. simpl. eauto.
  - intros HT. unfold ChannelProgress. rewrite HT. split; [done|].
    unfold Clamp, Min, Max. split; [|split].
    + intros H0 H1. by rewrite H1, H0.
    + intros H1 H0. by rewrite H1, H0.
    + by intros ->.
  - intros HT. unfold ChannelProgress.
    by rewrite (Float32Props.leb_zero_not_gtb Total HT).
  - unfold ChannelProgress. destruct (gtb Total zero).
    + apply Float32Props.Clamp_unit_range.
    + reflexivity.
  - unfold ChannelProgress. destruct (gtb Total zero).
    + apply Float32Props.Clamp_unit_range.
    + reflexivity.
  - intros e t Ht He. destruct progress_checks as [HP HW].
    rewrite forallb_forall in HW. rewrite forallb_forall in HP.
    assert (∀ n, (-100 ≤ n ≤ 200)%Z → is_whole (of_Z n) n) as Hwhole.
    { intros n Hn. apply whole_check_spec, HW.
      apply list_elem_of_In, elem_of_seqZ. lia. }
    split; [by apply Hwhole|]. split; [apply Hwhole; lia|].
    apply progress_check_spec.
    assert (In t (seqZ 1 100)) as Hin
      by (apply list_elem_of_In, elem_of_seqZ; lia).
    specialize (HP t Hin). rewrite forallb_forall in HP. apply HP.
    apply list_elem_of_In, elem_of_seqZ. lia.
Qed.

Lemma channel_progress_clamped_witness :
  let E := mkEngine true true (λ _, true) (λ _, None) (λ _, true) (λ _, true)
             (λ _, true) (λ _, true)
             (mkChannelPayload "Cast" None true false zero) in
  let st := mkManager None {[HUD := 5%positive]} ∅ (Some 5%positive) in
  (gtb (of_Z 4) zero = true ∧ leb (of_Z (-4)) zero = true
   ∧ ltb zero (div (of_Z 1) (of_Z 4)) = true
   ∧ ltb (div (of_Z 1) (of_Z 4)) one = true)
  ∧ (∃ P, OnChannelTick_UI E st (of_Z 1) (of_Z 4)
          = [ApplyUIEvent 5%positive "UI.HUD.Channel.Progress" P]
          ∧ Progress01 P = div (of_Z 1) (of_Z 4))
  ∧ to_Q (ChannelProgress (of_Z 1) (of_Z 4))
    = Some (QArith_base.Qmake 8388608 33554432)
  ∧ is_progress_of (ChannelProgress (of_Z 1) (of_Z 4)) 1 4
  ∧ ChannelProgress (of_Z 6) (of_Z 4) = one
  ∧ ChannelProgress (of_Z 1) (of_Z (-4)) = zero.
Proof.
  intros E st. split; [repeat split; reflexivity|].
  destruct (channel_progress_clamped E st (of_Z 1) (of_Z 4))
    as (_ & HS & HC & _ & _ & _ & HQ).
  destruct (HS 5%positive eq_refl eq_refl eq_refl) as (P & HE & HP).
  destruct (HC eq_refl) as (_ & Hin & _).
  split; [|split; [|split; [|split]]].
  - exists P. split; [exact HE|]. rewrite HP. by apply Hin.
  - reflexivity.
  - by apply HQ.
  - destruct (proj1 (proj2 (proj2 (channel_progress_clamped E st (of_Z 6) (of_Z 4))))
                eq_refl) as (_ & _ & _ & H1).
    by apply H1.
  - apply (proj1 (proj2 (proj2 (proj2
             (channel_progress_clamped E st (of_Z 1) (of_Z (-4))))))).
    reflexivity.
Defined.

End UIProps.

(** ** Cinematics *)

Module CinematicProps.
Import Float32 FString Cinematic.

#[local] Arguments PlaySequence : simpl never.

Lemma GetSequenceByName_first (E : Engine) (Config : UTLDCinematicConfig)
    (Name : FString) :
  GetSequenceByName E (Cinematics Config) Name
  = first_entry Config Name ≫= λ Entry, LoadSequence E (Sequence Entry).
Proof.
  unfold first_entry. induction (Cinematics Config) as [|Entry rest IH]; simpl.
  - done.
  - unfold names at 1. by destruct (EqualsIgnoreCase _ _ && IsValidPath _).
Qed.

Lemma first_entry_has_entry (Config : UTLDCinematicConfig) (Name : FString) :
  has_entry Config Name = true ↔ is_Some (first_entry Config Name).
Proof.
  unfold has_entry, first_entry.
  induction (Cinematics Config) as [|Entry rest IH]; simpl.
  - split; [done | by intros [? ?]].
  - destruct (names Name Entry); simpl; [by split; eauto | done].
Qed.

Lemma filter_ne_singleton (p : Player) : filter (λ q, q ≠ p) [p] = [].
Proof.
  rewrite filter_cons. by destruct (decide (p ≠ p)).
Qed.

Ltac split_consistent :=
  unfold consistent in *; simpl in *.

Lemma StartSequence_consistent (E : Engine) (m : Manager) :
  HasWorld E = true →
  bIsPlaying m = true → bAllowSkip m = false →
  consistent (run (StartSequence E) (mkSystem m false false [])).
Proof.
  intros HW HP HS. unfold run, StartSequence. rewrite HW. simpl.
  destruct (PendingSequence m) as [Sq|]; simpl.
  - destruct (NewPlayer E Sq) as [[p|] [a|]]; simpl;
      unfold ApplyPause; rewrite ?HW; simpl;
      try destruct (HasPlayerController E); simpl;
      split_consistent; naive_solver.
  - split_consistent; naive_solver.
Qed.

Lemma finish_playback_consistent (E : Engine) (m : Manager) :
  bAllowSkip m = false →
  consistent (run (finish_playback E) (mkSystem m false false [])).
Proof.
  intros HS. unfold run, finish_playback, ApplyPause.
  destruct (HasWorld E && HasPlayerController E); simpl;
    split_consistent; naive_solver.
Qed.

Lemma HandleSequenceFinished_consistent (E : Engine) (m : Manager) :
  HasWorld E = true → bIsPlaying m = true →
  consistent (run (HandleSequenceFinished E) (mkSystem m false false [])).
Proof.
  intros HW HP. unfold run, HandleSequenceFinished. rewrite HW. simpl.
  destruct (gtb (PendingPostDelay m) zero); simpl.
  - split_consistent; naive_solver.
  - by apply (finish_playback_consistent E (set_bAllowSkip false m)).
Qed.

Lemma PlaySequence_consistent (E : Engine) (Sq : option LevelSequence)
    (bP bS : bool) (Pre Post : float) (sys : System) :
  HasWorld E = true → consistent sys →
  consistent (run (PlaySequence E Sq bP bS Pre Post) sys).
Proof.
  intros HW Hc. destruct sys as [m pre post running].
  unfold run, PlaySequence. destruct Sq as [Sq|]; [|done]. rewrite HW. simpl.
  destruct (bIsPlaying m) eqn:HP; [done|].
  assert (pre = false ∧ post = false ∧ running = []) as (-> & -> & ->).
  { destruct Hc as (_ & H2 & H3 & H4); simpl in *.
    destruct pre; [destruct (H2 eq_refl) as [? _]; congruence|].
    destruct post; [destruct (H3 eq_refl) as [? _]; congruence|].
    destruct H4 as [->|(q & _ & _ & ? & _)]; [done | congruence]. }
  destruct (gtb Pre zero); simpl.
  - split_consistent. repeat split; try done. by left.
  - by apply (StartSequence_consistent E
                (mkManager (Some Sq) bP bS (Max zero Post) true false
                           (ActivePlayer m) (ActiveActor m))).
Qed.

Lemma SkipCurrentCinematic_consistent (E : Engine) (sys : System) :
  HasWorld E = true → consistent sys →
  consistent (run (SkipCurrentCinematic E) sys).
Proof.
  intros HW Hc. destruct sys as [m pre post running].
  unfold run, SkipCurrentCinematic. simpl.
  destruct (ActivePlayer m) as [p|] eqn:HA; [|exact Hc].
  destruct (bIsPlaying m) eqn:HP; [|exact Hc].
  destruct (bAllowSkip m) eqn:HS; [|exact Hc]. simpl.
  assert (pre = false ∧ post = false
          ∧ filter (λ q, q ≠ p) running = []) as (-> & -> & HR).
  { destruct Hc as (_ & H2 & H3 & H4); simpl in *.
    destruct pre; [destruct (H2 eq_refl) as (_ & ? & _); congruence|].
    destruct post; [destruct (H3 eq_refl) as (_ & ? & _); congruence|].
    destruct H4 as [->|(q & -> & Hq & _)]; [done|].
    rewrite HA in Hq. inversion Hq; subst q.
    split; [done|]. split; [done|]. apply filter_ne_singleton. }
  pose proof (HandleSequenceFinished_consistent E m HW HP) as HH.
  unfold run in HH. simpl in HH.
  destruct (HandleSequenceFinished E m) as [m' calls]. simpl.
  unfold apply_calls in *. simpl. by rewrite HR.
Qed.

Lemma PlayCinematicByName_run (E : Engine) (Name : FString) (bP bS : bool)
    (Pre Post : float) (sys : System) :
  run (λ m, let '(_, m, calls) :=
              PlayCinematicByName E Name bP bS Pre Post m in (m, calls)) sys
  = sys
  ∨ ∃ Sq, run (λ m, let '(_, m, calls) :=
                      PlayCinematicByName E Name bP bS Pre Post m in (m, calls)) sys
          = run (PlaySequence E (Some Sq) bP bS Pre Post) sys.
Proof.
  destruct sys as [m pre post running]. unfold run, PlayCinematicByName.
  destruct (IsEmpty Name); [by left|].
  destruct (ProjectSettings E) as [Settings|]; [|by left].
  destruct (IsNull (CinematicConfigAsset Settings)); [by left|].
  destruct (LoadConfig E (CinematicConfigAsset Settings)) as [Config|]; [|by left].
  destruct (GetSequenceByName E (Cinematics Config) Name) as [Sq|]; [|by left].
  right. exists Sq. cbn [Mgr PreDelayPending PostDelayPending Running].
  by destruct (PlaySequence E (Some Sq) bP bS Pre Post m).
Qed.

Lemma step_consistent (E : Engine) (ev : Event) (sys : System) :
  HasWorld E = true → enabled ev sys → consistent sys →
  consistent (step E ev sys).
Proof.
  intros HW Hen Hc. destruct ev as [Sq bP bS Pre Post|N bP bS Pre Post| | | |p];
    simpl in *.
  - by apply PlaySequence_consistent.
  - destruct (PlayCinematicByName_run E N bP bS Pre Post sys) as [->|[Sq ->]];
      [done | by apply PlaySequence_consistent].
  - by apply SkipCurrentCinematic_consistent.
  - destruct sys as [m pre post running]. simpl in *. subst pre.
    destruct Hc as (_ & H2 & _). simpl in H2.
    destruct (H2 eq_refl) as (HP & HS & -> & ->).
    by apply StartSequence_consistent.
  - destruct sys as [m pre post running]. simpl in *. subst post.
    destruct Hc as (_ & H2 & H3 & _). simpl in *.
    destruct (H3 eq_refl) as (HP & HS & ->).
    destruct pre; [destruct (H2 eq_refl) as (_ & _ & _ & ?); congruence|].
    by apply finish_playback_consistent.
  - destruct sys as [m pre post running]. simpl in *.
    destruct Hc as (_ & _ & _ & H4). simpl in H4.
    destruct H4 as [->|(q & -> & _ & HP & -> & ->)];
      [by apply elem_of_nil in Hen|].
    apply list_elem_of_singleton in Hen. subst q.
    rewrite filter_ne_singleton.
    by apply HandleSequenceFinished_consistent.
Qed.

Lemma idle_consistent : consistent idle.
Proof. split_consistent. naive_solver. Qed.

Lemma reachable_consistent (sys : System) : reachable sys → consistent sys.
Proof.
  induction 1 as [|E ev sys _ IH Hen HW];
    [apply idle_consistent | by apply step_consistent].
Qed.

(** *** Playing by name *)

(** C6, as stated, fails.  The claim lets [PlayCinematicByName] return false
    only for an empty name, a config that is unset or does not load, or a
    config without an entry of that name and a valid sequence reference.  The
    entry found is loaded with [LoadSynchronous], which may give a null
    pointer: with the entry "Intro" at the valid path "/Game/Intro" and no
    asset behind that path, the method returns false. *)
Lemma PlayCinematicByName_false_with_entry :
  ¬ (∀ (E : Engine) (Name : FString) (bP bS : bool) (Pre Post : float)
       (st : Manager),
       (PlayCinematicByName E Name bP bS Pre Post st).1.1 = false
       ↔ IsEmpty Name = true
         ∨ config_of E = None
         ∨ ∃ Config, config_of E = Some Config ∧ has_entry Config Name = false).
Proof.
  intros H.
  pose (Config := mkConfig [mkEntry "Intro" "/Game/Intro"]).
  pose (E := mkEngine true true (λ _, (None, None)) (Some (mkSettings "/Game/Cfg"))
               (λ _, Some Config) (λ _, None)).
  destruct (proj1 (H E "Intro" false true zero zero (Mgr idle)) eq_refl)
    as [HE|[HC|(C & HC & HN)]].
  - discriminate HE.
  - discriminate HC.
  - inversion HC; subst C. discriminate HN.
Qed.

(** C6 (amended).  [PlayCinematicByName] returns false, and changes nothing,
    exactly when the name is empty, or the project settings are missing or
    name no config or the config does not load, or the config has no entry
    of that name with a valid sequence reference, or the sequence of the first
    such entry does not load.  In every other case it hands the sequence of
    that entry to [PlaySequence] and returns true. *)
Theorem PlayCinematicByName_result (E : Engine) (Name : FString)
    (bP bS : bool) (Pre Post : float) (st : Manager) :
  let r := PlayCinematicByName E Name bP bS Pre Post st in
  (r.1.1 = false
   ↔ IsEmpty Name = true
     ∨ config_of E = None
     ∨ ∃ Config, config_of E = Some Config
         ∧ (has_entry Config Name = false
            ∨ ∃ Entry, first_entry Config Name = Some Entry
                       ∧ LoadSequence E (Sequence Entry) = None))
  ∧ (r.1.1 = false → r = (false, st, []))
  ∧ (r.1.1 = true →
     ∃ Config Entry Sq,
       config_of E = Some Config
       ∧ first_entry Config Name = Some Entry
       ∧ LoadSequence E (Sequence Entry) = Some Sq
       ∧ (r.1.2, r.2) = PlaySequence E (Some Sq) bP bS Pre Post st).
Proof.
  unfold PlayCinematicByName, config_of.
  destruct (IsEmpty Name); simpl; [by repeat split; eauto|].
  destruct (ProjectSettings E) as [Settings|]; simpl; [|by repeat split; eauto].
  destruct (IsNull (CinematicConfigAsset Settings)); simpl;
    [by repeat split; eauto|].
  destruct (LoadConfig E (CinematicConfigAsset Settings)) as [Config|]; simpl;
    [|by repeat split; eauto].
  rewrite GetSequenceByName_first.
  pose proof (first_entry_has_entry Config Name) as HH.
  destruct (first_entry Config Name) as [Entry|] eqn:HF; simpl.
  - destruct (LoadSequence E (Sequence Entry)) as [Sq|] eqn:HL; simpl.
    + destruct (PlaySequence E (Some Sq) bP bS Pre Post st) as [st' calls] eqn:HP.
      simpl. split; [|split; [done|]].
      * split; [done|].
        intros [?|[?|(C & HC & [HN|(En & HE & HN)])]]; try done;
          inversion HC; subst C.
        -- rewrite (proj2 HH) in HN; [done | by eexists].
        -- rewrite HF in HE. inversion HE; subst En. congruence.
      * intros _. by exists Config, Entry, Sq.
    + split; [|done]. split; [|done].
      intros _. right. right. exists Config. split; [done|]. right. eauto.
  - split; [|done]. split; [|done].
    intros _. right. right. exists Config. split; [done|]. left.
    destruct (has_entry Config Name); [|done].
    destruct (proj1 HH eq_refl) as [? ?]. done.
Qed.

Lemma PlayCinematicByName_result_witness :
  let Config := mkConfig [mkEntry "Intro" "/Game/Intro"] in
  let E := mkEngine true true (λ _, (Some 2%positive, Some 3%positive))
             (Some (mkSettings "/Game/Cfg")) (λ _, Some Config)
             (λ _, Some 1%positive) in
  let r := PlayCinematicByName E "intro" false true zero zero (Mgr idle) in
  r.1.1 = true
  ∧ ∃ Sq, (r.1.2, r.2) = PlaySequence E (Some Sq) false true zero zero (Mgr idle).
Proof.
  intros Config E r. split; [reflexivity|].
  destruct (PlayCinematicByName_result E "intro" false true zero zero (Mgr idle))
    as (_ & _ & HT).
  destruct (HT eq_refl) as (C & En & Sq & _ & _ & _ & HP).
  exists Sq. exact HP.
Defined.

(** *** One cinematic at a time *)

(** C10, as stated, fails.  The claim has [bAllowSkip] imply [bIsPlaying]
    across all operations.  When a skippable sequence is playing and its
    player reaches the end while [GetWorld()] is null, the first branch of
    [HandleSequenceFinished] clears [bIsPlaying] and returns before
    [bAllowSkip] is cleared. *)
Lemma bAllowSkip_without_bIsPlaying :
  ¬ (∀ sys, reachable_any sys →
       bAllowSkip (Mgr sys) = true → bIsPlaying (Mgr sys) = true).
Proof.
  intros H.
  pose (E := λ w, mkEngine w true (λ _, (Some 2%positive, Some 3%positive))
                    None (λ _, None) (λ _, None)).
  pose (playing :=
          step (E true) (Call_PlaySequence (Some 1%positive) false true zero zero)
               idle).
  pose (finished := step (E false) (PlayerFinished 2%positive) playing).
  assert (reachable_any finished) as HR.
  { apply reach_any_step; [apply reach_any_step; [apply reach_any_idle|done]|].
    apply list_elem_of_singleton. reflexivity. }
  discriminate (H finished HR eq_refl).
Qed.

(** C10 (amended).  A call of [PlaySequence] while [bIsPlaying] is true
    changes nothing and asks nothing of the engine.  In every state reached
    by calls and engine events that find a world, [bAllowSkip] implies
    [bIsPlaying] and at most one sequence player is running.
    [SkipCurrentCinematic] changes nothing and asks nothing of the engine
    unless [bIsPlaying] and [bAllowSkip] are true and there is an active
    player. *)
Theorem one_cinematic_at_a_time :
  (∀ E Sq bP bS Pre Post st,
     bIsPlaying st = true →
     PlaySequence E Sq bP bS Pre Post st = (st, []))
  ∧ (∀ sys, reachable sys →
       (bAllowSkip (Mgr sys) = true → bIsPlaying (Mgr sys) = true)
       ∧ length (Running sys) ≤ 1)
  ∧ (∀ E st,
       bIsPlaying st = false ∨ bAllowSkip st = false ∨ ActivePlayer st = None →
       SkipCurrentCinematic E st = (st, [])).
Proof.
  split; [|split].
  - intros E Sq bP bS Pre Post st HP. unfold PlaySequence.
    destruct Sq; [|done]. destruct (HasWorld E); [|done]. by rewrite HP.
  - intros sys HR. destruct (reachable_consistent sys HR) as (H1 & _ & _ & H4).
    split; [exact H1|].
    destruct H4 as [->|(p & -> & _)]; simpl; lia.
  - intros E st H. unfold SkipCurrentCinematic.
    destruct (ActivePlayer st); [|done].
    destruct H as [->|[->|?]]; [done| |done].
    by destruct (bIsPlaying st).
Qed.

Lemma one_cinematic_at_a_time_witness :
  let E := mkEngine true true (λ _, (Some 2%positive, Some 3%positive))
             None (λ _, None) (λ _, None) in
  let playing :=
    step E (Call_PlaySequence (Some 1%positive) true true zero (of_Z 2)) idle in
  let waiting := step E Call_SkipCurrentCinematic playing in
  (bIsPlaying (Mgr playing) = true ∧ reachable waiting
   ∧ bAllowSkip (Mgr waiting) = false)
  ∧ PlaySequence E (Some 5%positive) false false zero zero (Mgr playing)
    = (Mgr playing, [])
  ∧ length (Running waiting) ≤ 1
  ∧ SkipCurrentCinematic E (Mgr waiting) = (Mgr waiting, []).
Proof.
  intros E playing waiting.
  destruct one_cinematic_at_a_time as (HP & HI & HS).
  assert (reachable waiting) as HR.
  { apply reach_step; [apply reach_step; [apply reach_idle|done|done]|done|done]. }
  split; [split; [reflexivity | split; [exact HR | reflexivity]]|].
  split; [by apply HP|].
  split; [apply (HI waiting HR)|].
  apply HS. right. left. reflexivity.
Defined.

End CinematicProps.

(** ** Audio *)

Module AudioProps.
Import Float32 Audio.

(** *** The same music again *)

Lemma EnsureMusicComponent_CurrentState (st : Manager) :
  CurrentState (EnsureMusicComponent st).1 = CurrentState st.
Proof. unfold EnsureMusicComponent. by destruct (MusicAC st). Qed.

Lemma PlayMusicByTag_tag (E : Engine) (T : FGameplayTag) (f : float)
    (st : Manager) :
  (∀ E' f', PlayMusicByTag E' T f' st = (st, []))
  ∨ CurrentMusicTag (PlayMusicByTag E T f st).1 = T.
Proof.
  unfold PlayMusicByTag.
  destruct (bool_decide (T = CurrentMusicTag st)); [by left|].
  destruct (ResolveMusicByTag st T) as [Track|]; [|by left].
  right. destruct (EnsureMusicComponents st) as [st1 c0].
  by destruct (if negb (is_playing E (ActiveMusic st1))
                  && negb (is_playing E (InactiveMusic st1))
               then _ else _) as [st2 c1].
Qed.

Lemma PlayMusicState_state (E : Engine) (S_ : EAudioState) (f : float)
    (st : Manager) :
  CurrentState (PlayMusicState E S_ f st).1 = S_.
Proof.
  unfold PlayMusicState.
  destruct (bool_decide (CurrentState st = S_)) eqn:HS.
  - by apply bool_decide_eq_true_1 in HS.
  - pose proof (EnsureMusicComponent_CurrentState (set_CurrentState S_ st)) as HE.
    destruct (EnsureMusicComponent (set_CurrentState S_ st)) as [st1 c0].
    simpl in HE. by destruct (MusicByState st1 !! S_), (MusicAC st1).
Qed.

(** C7.  [PlayMusicByTag] with the tag that is current, and [PlayMusicState]
    with the state that is current, return at once: no field changes and the
    engine is asked nothing.  So a second call with the same tag, or the same
    state, right after a first one changes nothing any more. *)
Theorem same_music_is_noop :
  (∀ E T f st,
     CurrentMusicTag st = T → PlayMusicByTag E T f st = (st, []))
  ∧ (∀ E E' T f f' st,
       PlayMusicByTag E' T f' (PlayMusicByTag E T f st).1
       = ((PlayMusicByTag E T f st).1, []))
  ∧ (∀ E S_ f st,
       CurrentState st = S_ → PlayMusicState E S_ f st = (st, []))
  ∧ (∀ E E' S_ f f' st,
       PlayMusicState E' S_ f' (PlayMusicState E S_ f st).1
       = ((PlayMusicState E S_ f st).1, [])).
Proof.
  assert (∀ E T f st,
            CurrentMusicTag st = T → PlayMusicByTag E T f st = (st, [])) as HT.
  { intros E T f st <-. unfold PlayMusicByTag.
    by rewrite bool_decide_eq_true_2. }
  assert (∀ E S_ f st,
            CurrentState st = S_ → PlayMusicState E S_ f st = (st, [])) as HS.
  { intros E S_ f st <-. unfold PlayMusicState.
    by rewrite bool_decide_eq_true_2. }
  split; [exact HT|]. split; [|split; [exact HS|]].
  - intros E E' T f f' st.
    destruct (PlayMusicByTag_tag E T f st) as [Hsame|Htag].
    + rewrite (Hsame E f). simpl. apply Hsame.
    + by apply HT.
  - intros E E' S_ f f' st. apply HS, PlayMusicState_state.
Qed.

Lemma same_music_is_noop_witness :
  let C := mkCatalog {["Music.Cave" := Some 8%positive]} ∅ in
  let E := mkEngine (λ _, false) true (Some C) in
  let st := mkManager (Some C) "Music.Town" 0%N ∅ None None None None None
                      [] 0 20%positive in
  (CurrentMusicTag st = "Music.Town" ∧ CurrentState st = 0%N)
  ∧ PlayMusicByTag E "Music.Town" one st = (st, [])
  ∧ PlayMusicState E 0%N one st = (st, [])
  ∧ (PlayMusicByTag E "Music.Cave" one st).2 ≠ []
  ∧ (PlayMusicByTag E "Music.Cave" one (PlayMusicByTag E "Music.Cave" one st).1).2
    = [].
Proof.
  intros C E st.
  destruct same_music_is_noop as (HT & HT2 & HS & _).
  split; [split; reflexivity|].
  split; [by apply HT|]. split; [by apply HS|].
  split; [discriminate|].
  by rewrite (HT2 E E "Music.Cave" one one st).
Defined.

(** *** The pool of sound effects *)

Lemma int32_small (z : Z) : (- 2 ^ 31 ≤ z < 2 ^ 31)%Z → int32 z = z.
Proof. intros Hz. unfold int32. rewrite Z.mod_small; lia. Qed.

Lemma Num_length (st : Manager) :
  (Z.of_nat (length (SFXPool st)) < 2 ^ 31)%Z →
  Num st = Z.of_nat (length (SFXPool st)).
Proof. intros H. unfold Num. apply int32_small. lia. Qed.

(** One call, with the index in range. *)
Lemma GetPooledSFX_at (st : Manager) (i : nat) (AC : Component) :
  (Z.of_nat (length (SFXPool st)) < 2 ^ 31)%Z →
  PoolIndex st = Z.of_nat i →
  SFXPool st !! i = Some AC →
  GetPooledSFX st
  = Ok (Some AC, set_PoolIndex (Z.of_nat (S i `mod` length (SFXPool st))) st).
Proof.
  intros HN Hi HAC. pose proof (lookup_lt_Some _ _ _ HAC) as Hlt.
  unfold GetPooledSFX. rewrite (Num_length st HN).
  rewrite bool_decide_eq_false_2 by lia.
  unfold at_index. rewrite Hi.
  destruct (0 <=? Z.of_nat i)%Z eqn:H0; [|lia].
  rewrite Nat2Z.id, HAC. do 3 f_equal.
  rewrite (int32_small (Z.of_nat i + 1)) by lia.
  rewrite Z.rem_mod_nonneg by lia.
  rewrite int32_small.
  - rewrite Nat2Z.inj_mod. f_equal. lia.
  - pose proof (Z.mod_pos_bound (Z.of_nat i + 1) (Z.of_nat (length (SFXPool st)))).
    lia.
Qed.

(** [k] calls in a row, started at index [i]: call [j] returns the component
    at index [(i + j) mod N]. *)
Lemma GetPooledSFX_times_from (k : nat) (st : Manager) (i : nat) :
  (Z.of_nat (length (SFXPool st)) < 2 ^ 31)%Z →
  PoolIndex st = Z.of_nat i →
  i < length (SFXPool st) →
  GetPooledSFX_times k st
  = Ok ((λ j, SFXPool st !! ((i + j) `mod` length (SFXPool st))) <$> seq 0 k,
        set_PoolIndex (Z.of_nat ((i + k) `mod` length (SFXPool st))) st).
Proof.
  revert st i. induction k as [|k IH]; intros st i HN Hi Hlt.
  - simpl. rewrite Nat.add_0_r, Nat.mod_small by done.
    rewrite <- Hi. by destruct st.
  - destruct (lookup_lt_is_Some_2 _ _ Hlt) as [AC HAC].
    cbn [GetPooledSFX_times]. rewrite (GetPooledSFX_at st i AC HN Hi HAC).
    set (N := length (SFXPool st)).
    rewrite (IH _ (S i `mod` N));
      [|done|done|simpl; apply Nat.mod_upper_bound; unfold N; lia].
    simpl. rewrite Nat.add_0_r, (Nat.mod_small i) by done.
    rewrite HAC. fold N. f_equal. f_equal; [f_equal|].
    + change (seq 1 k) with (seq (S 0) k).
      rewrite <- fmap_S_seq, <- list_fmap_compose. apply list_fmap_ext.
      intros _ j _. simpl. f_equal.
      rewrite Nat.Div0.add_mod_idemp_l. f_equal. lia.
    + unfold set_PoolIndex. simpl. f_equal.
      rewrite Nat.Div0.add_mod_idemp_l. do 2 f_equal. lia.
Qed.

Lemma rotate_Permutation {A : Type} (n : nat) (l : list A) : rotate n l ≡ₚ l.
Proof.
  unfold rotate. rewrite Permutation_app_comm. by rewrite take_drop.
Qed.

Lemma new_objects_ge (p : Component) (n : nat) (x : Component) :
  x ∈ new_objects p n → (p ≤ x)%positive.
Proof.
  revert p. induction n as [|n IH]; intros p; simpl.
  - by intros ?%elem_of_nil.
  - intros [->|Hx]%elem_of_cons; [lia|]. apply IH in Hx. lia.
Qed.

Lemma new_objects_NoDup (p : Component) (n : nat) : NoDup (new_objects p n).
Proof.
  revert p. induction n as [|n IH]; intros p; simpl; [constructor|].
  constructor; [|apply IH]. intros Hx%new_objects_ge. lia.
Qed.

Lemma length_new_objects (p : Component) (n : nat) :
  length (new_objects p n) = n.
Proof. revert p. induction n as [|n IH]; intros p; simpl; [done|by rewrite IH]. Qed.

Lemma fill_pool_SFXPool (n : nat) (st : Manager) :
  SFXPool (fill_pool n st).1 = SFXPool st ++ new_objects (NextObject st) n
  ∧ PoolIndex (fill_pool n st).1 = PoolIndex st.
Proof.
  revert st. induction n as [|n IH]; intros st; simpl.
  - by rewrite app_nil_r.
  - destruct (IH (set_SFXPool (SFXPool (set_NextObject (Pos.succ (NextObject st)) st)
                               ++ [NextObject st])
                    (set_NextObject (Pos.succ (NextObject st)) st))) as [HP HI].
    destruct (fill_pool n _) as [st' c']. simpl in *.
    by rewrite HP, <- app_assoc.
Qed.

#[local] Arguments fill_pool : simpl never.
#[local] Arguments new_objects : simpl never.

Lemma round_of_calls (l : list Component) (i : nat) :
  i < length l →
  (λ j, l !! ((i + j) `mod` length l)) <$> seq 0 (length l)
  = Some <$> rotate i l.
Proof.
  intros Hi. apply list_eq. intros j. rewrite !list_lookup_fmap.
  destruct (decide (j < length l)) as [Hj|Hj].
  - rewrite lookup_seq_lt, lookup_rotate_r by done. simpl.
    replace (rotate_nat_add i j (length l)) with ((i + j) `mod` length l).
    + assert ((i + j) `mod` length l < length l) as Hlt
        by (apply Nat.mod_upper_bound; lia).
      by destruct (lookup_lt_is_Some_2 _ _ Hlt) as [x ->].
    + rewrite <- (Nat.add_0_l j) at 2.
      rewrite rotate_nat_add_add, rotate_nat_add_0 by lia. done.
  - rewrite lookup_seq_ge by lia.
    rewrite (lookup_ge_None_2 (rotate i l)); [done|].
    rewrite length_rotate. lia.
Qed.

(** C9.  The pool is served round-robin.  On an empty pool [GetPooledSFX]
    returns the null pointer.  On a pool of N components, with the index in
    range, it returns the component at [PoolIndex] and moves [PoolIndex] to
    the next index modulo N; N calls in a row return the pool rotated to start
    at [PoolIndex], that is every pooled component exactly once, and leave the
    manager as it was.  The pool that [Initialize] builds holds 16 components,
    all different. *)
Theorem sfx_pool_round_robin (st : Manager) :
  (SFXPool st = [] → GetPooledSFX st = Ok (None, st))
  ∧ (∀ i AC,
       (Z.of_nat (length (SFXPool st)) < 2 ^ 31)%Z →
       PoolIndex st = Z.of_nat i →
       SFXPool st !! i = Some AC →
       GetPooledSFX st
       = Ok (Some AC,
             set_PoolIndex (Z.of_nat (S i `mod` length (SFXPool st))) st))
  ∧ (∀ i,
       (Z.of_nat (length (SFXPool st)) < 2 ^ 31)%Z →
       PoolIndex st = Z.of_nat i →
       i < length (SFXPool st) →
       GetPooledSFX_times (length (SFXPool st)) st
       = Ok (Some <$> rotate i (SFXPool st), st)
       ∧ rotate i (SFXPool st) ≡ₚ SFXPool st)
  ∧ (∀ E C,
       HasProjectSettings E = true → LoadCatalog E = Some C →
       SFXPool st = [] →
       SFXPool (Initialize E st).1 = new_objects (NextObject st) 16
       ∧ length (SFXPool (Initialize E st).1) = 16
       ∧ NoDup (SFXPool (Initialize E st).1)
       ∧ PoolIndex (Initialize E st).1 = PoolIndex st).
Proof.
  split; [|split; [|split]].
  - intros HP. unfold GetPooledSFX, Num. by rewrite HP.
  - intros i AC. apply GetPooledSFX_at.
  - intros i HN Hi Hlt. split; [|apply rotate_Permutation].
    rewrite (GetPooledSFX_times_from _ st i HN Hi Hlt).
    rewrite round_of_calls by done. do 2 f_equal.
    replace ((i + length (SFXPool st)) `mod` length (SFXPool st)) with i.
    + rewrite <- Hi. by destruct st.
    + rewrite <- (Nat.mul_1_l (length (SFXPool st))) at 1.
      rewrite Nat.Div0.mod_add. by rewrite Nat.mod_small.
  - intros E C HS HC HP. unfold Initialize. rewrite HS.
    cbn [Catalog set_Catalog]. rewrite HC.
    destruct (fill_pool_SFXPool 16 (set_Catalog (Some C) st)) as [HF HI].
    destruct (fill_pool 16 (set_Catalog (Some C) st)) as [st1 c0].
    cbn [fst NextObject SFXPool PoolIndex set_Catalog] in HF, HI.
    rewrite HP, app_nil_l in HF.
    assert (SFXPool (EnsureMusicComponent st1).1 = SFXPool st1
            ∧ PoolIndex (EnsureMusicComponent st1).1 = PoolIndex st1) as [HE1 HE2].
    { unfold EnsureMusicComponent. by destruct (MusicAC st1). }
    destruct (EnsureMusicComponent st1) as [st2 c1]. cbn [fst] in *.
    rewrite HE1, HE2, HF, HI.
    split; [reflexivity|]. split; [apply length_new_objects|].
    split; [apply new_objects_NoDup | reflexivity].
Qed.

Lemma sfx_pool_round_robin_witness :
  let C := mkCatalog ∅ ∅ in
  let E := mkEngine (λ _, false) true (Some C) in
  let st := mkManager None "Music.Town" 0%N ∅ None None None None None
                      [4%positive; 5%positive; 6%positive] 1 20%positive in
  let empty := mkManager None "Music.Town" 0%N ∅ None None None None None
                         [] 0 20%positive in
  ((Z.of_nat (length (SFXPool st)) < 2 ^ 31)%Z
   ∧ PoolIndex st = Z.of_nat 1 ∧ 1 < length (SFXPool st)
   ∧ SFXPool st !! 1 = Some 5%positive)
  ∧ GetPooledSFX empty = Ok (None, empty)
  ∧ GetPooledSFX st = Ok (Some 5%positive, set_PoolIndex 2 st)
  ∧ GetPooledSFX_times 3 st
    = Ok ([Some 5%positive; Some 6%positive; Some 4%positive], st)
  ∧ length (SFXPool (Initialize E empty).1) = 16.
Proof.
  intros C E st empty.
  split; [split; [done|split; [done|split; [simpl; lia|done]]]|].
  split; [by apply (proj1 (sfx_pool_round_robin empty))|].
  destruct (sfx_pool_round_robin st) as (_ & H1 & HN & _).
  split; [by apply (H1 1 5%positive)|].
  split.
  - assert (1 < length (SFXPool st)) as Hlt by (simpl; lia).
    exact (proj1 (HN 1 eq_refl eq_refl Hlt)).
  - destruct (sfx_pool_round_robin empty) as (_ & _ & _ & HI).
    by destruct (HI E C eq_refl eq_refl eq_refl) as (_ & ? & _).
Defined.

End AudioProps.

(** ** Level streaming, further properties *)

Module StreamingMore.
Import Float32 FString Streaming StreamingExt.

(** *** Records under [Add] and [on_record] *)

Lemma tracked_Add (Key : FName) (Rec : FTLDChunkRecord) (M : TMap) :
  (Add Key Rec M).*1
  = match Find Key M with Some _ => M.*1 | None => M.*1 ++ [Key] end.
Proof.
  induction M as [|[k r] M IH]; [done|]. cbn [Add Find].
  destruct (bool_decide (k = Key)) eqn:Hk; [done|].
  rewrite !fmap_cons, IH. by destruct (Find Key M).
Qed.

Lemma on_record_Find (d : float) (E : Engine) (n Key : FName)
    (f : FTLDChunkRecord → FTLDChunkRecord * list EngineCall) (Mgr : Manager) :
  Find Key (ChunkRecords (on_record d E n f Mgr).1)
  = if bool_decide (n = Key) then Some (f (GetOrAddRecord d E n Mgr).1).1
    else Find Key (ChunkRecords Mgr).
Proof.
  unfold on_record, GetOrAddRecord.
  destruct (Find n (ChunkRecords Mgr)) as [Rec|] eqn:HF; simpl.
  - destruct (f Rec) as [Rec' calls]. simpl.
    destruct (bool_decide (n = Key)) eqn:Hn.
    + apply bool_decide_eq_true_1 in Hn. subst. apply StreamingProps.Find_Add_eq.
    + apply bool_decide_eq_false_1 in Hn. by apply StreamingProps.Find_Add_ne.
  - destruct (f _) as [Rec' calls]. simpl.
    destruct (bool_decide (n = Key)) eqn:Hn.
    + apply bool_decide_eq_true_1 in Hn. subst. apply StreamingProps.Find_Add_eq.
    + apply bool_decide_eq_false_1 in Hn.
      by rewrite !StreamingProps.Find_Add_ne.
Qed.

Lemma on_record_tracked (d : float) (E : Engine) (n : FName)
    (f : FTLDChunkRecord → FTLDChunkRecord * list EngineCall) (Mgr : Manager) :
  tracked (on_record d E n f Mgr).1
  = tracked Mgr ++ match Find n (ChunkRecords Mgr) with
                   | Some _ => []
                   | None => [n]
                   end.
Proof.
  unfold tracked, on_record, GetOrAddRecord.
  destruct (Find n (ChunkRecords Mgr)) as [Rec|] eqn:HF; simpl.
  - destruct (f Rec) as [Rec' calls]. simpl.
    by rewrite tracked_Add, HF, app_nil_r.
  - destruct (f _) as [Rec' calls]. simpl.
    by rewrite tracked_Add, StreamingProps.Find_Add_eq, tracked_Add, HF.
Qed.

Lemma GetOrAddRecord_tracked (d : float) (E : Engine) (n : FName)
    (Mgr : Manager) (Rec : FTLDChunkRecord) :
  Find n (ChunkRecords Mgr) = Some Rec → (GetOrAddRecord d E n Mgr).1 = Rec.
Proof. unfold GetOrAddRecord. by intros ->. Qed.

Lemma GetOrAddRecord_new (d : float) (E : Engine) (n : FName) (Mgr : Manager) :
  Find n (ChunkRecords Mgr) = None →
  (GetOrAddRecord d E n Mgr).1
  = mkRecord n Unloaded (FindStreamingLevelByName E n) d.
Proof. unfold GetOrAddRecord. by intros ->. Qed.

Lemma TickRecords_tracked (E : Engine) (dt : float) (M : TMap) :
  (TickRecords E dt M).1.*1 = M.*1.
Proof.
  induction M as [|[k r] M IH]; [done|]. cbn [TickRecords].
  destruct (TickRecord E dt r) as [r' c].
  destruct (TickRecords E dt M) as [M' c']. cbn [fst] in *.
  by rewrite !fmap_cons, IH.
Qed.

(** X1.  Tracking only grows.  [LoadChunkAsync], [UnloadChunkAsync] and
    [SetChunkVisible] keep every tracked name at its place and append the
    name they are called for when it is not None and not tracked yet; [Tick]
    keeps the tracked names and their order. *)
Theorem tracking_only_grows (d : float) (E : Engine) (Mgr : Manager) :
  (∀ n bMake WarmUp,
     tracked (LoadChunkAsync d E n bMake WarmUp Mgr).1
     = tracked Mgr ++ new_name n Mgr)
  ∧ (∀ n, tracked (UnloadChunkAsync d E n Mgr).1 = tracked Mgr ++ new_name n Mgr)
  ∧ (∀ n bVisible,
       tracked (SetChunkVisible d E n bVisible Mgr).1
       = tracked Mgr ++ new_name n Mgr)
  ∧ (∀ dt, tracked (Tick E dt Mgr).1 = tracked Mgr).
Proof.
  unfold LoadChunkAsync, UnloadChunkAsync, SetChunkVisible, new_name.
  repeat split; intros.
  - destruct (IsNone n); [by rewrite app_nil_r | apply on_record_tracked].
  - destruct (IsNone n); [by rewrite app_nil_r | apply on_record_tracked].
  - destruct (IsNone n); [by rewrite app_nil_r | apply on_record_tracked].
  - unfold Tick, tracked.
    pose proof (TickRecords_tracked E dt (ChunkRecords Mgr)) as HT.
    by destruct (TickRecords E dt (ChunkRecords Mgr)).
Qed.

Lemma tracking_only_grows_witness :
  let E := mkEngine None (λ _, true) (λ _, true) in
  let M1 := (LoadChunkAsync zero E (MakeFName "Cave") true zero (mkManager [])).1 in
  let M2 := (LoadChunkAsync zero E (MakeFName "cave") true zero M1).1 in
  let M3 := (UnloadChunkAsync zero E (MakeFName "none") M2).1 in
  let M4 := (SetChunkVisible zero E (MakeFName "HALL") true M3).1 in
  tracked M1 = [MakeFName "Cave"]
  ∧ tracked M2 = tracked M1
  ∧ tracked M3 = tracked M1
  ∧ tracked M4 = [MakeFName "Cave"; MakeFName "Hall"]
  ∧ tracked (Tick E one M4).1 = tracked M4.
Proof.
  intros E M1 M2 M3 M4.
  assert (tracked M1 = [MakeFName "Cave"]) as H1.
  { unfold M1.
    by rewrite (proj1 (tracking_only_grows zero E (mkManager []))). }
  assert (tracked M2 = tracked M1) as H2.
  { unfold M2. rewrite (proj1 (tracking_only_grows zero E M1)).
    by rewrite app_nil_r. }
  assert (tracked M3 = tracked M1) as H3.
  { unfold M3. rewrite (proj1 (proj2 (tracking_only_grows zero E M2))), H2.
    by rewrite app_nil_r. }
  split; [exact H1|]. split; [exact H2|]. split; [exact H3|].
  split.
  - unfold M4.
    by rewrite (proj1 (proj2 (proj2 (tracking_only_grows zero E M3)))), H3, H1.
  - apply (proj2 (proj2 (proj2 (tracking_only_grows zero E M4)))).
Defined.

(** X2.  A method called for one name leaves the records of all other names
    as they are; two names are the same name when they differ in case
    only. *)
Theorem other_chunks_untouched (d : float) (E : Engine) (Mgr : Manager)
    (n Key : FName) :
  n ≠ Key →
  (∀ bMake WarmUp,
     Find Key (ChunkRecords (LoadChunkAsync d E n bMake WarmUp Mgr).1)
     = Find Key (ChunkRecords Mgr))
  ∧ Find Key (ChunkRecords (UnloadChunkAsync d E n Mgr).1)
    = Find Key (ChunkRecords Mgr)
  ∧ (∀ bVisible,
       Find Key (ChunkRecords (SetChunkVisible d E n bVisible Mgr).1)
       = Find Key (ChunkRecords Mgr)).
Proof.
  intros Hne. unfold LoadChunkAsync, UnloadChunkAsync, SetChunkVisible.
  repeat split; intros; (destruct (IsNone n); [done|]);
    by rewrite on_record_Find, bool_decide_eq_false_2.
Qed.

Lemma other_chunks_untouched_witness :
  let E := mkEngine None (λ _, true) (λ _, true) in
  let Rec := mkRecord (MakeFName "Cave") Visible (Some 7%positive) zero in
  let Mgr := mkManager [(MakeFName "Cave", Rec)] in
  (MakeFName "Hall") ≠ (MakeFName "Cave")
  ∧ Find (MakeFName "Cave") (ChunkRecords (UnloadChunkAsync zero E (MakeFName "Hall") Mgr).1) = Some Rec
  ∧ Find (MakeFName "CAVE") (ChunkRecords (UnloadChunkAsync zero E (MakeFName "HALL") Mgr).1) = Some Rec
  ∧ MakeFName "CAVE" = MakeFName "Cave"
  ∧ state_of (MakeFName "Cave") (UnloadChunkAsync zero E (MakeFName "CAVE") Mgr).1
    = Some Unloaded.
Proof.
  intros E Rec Mgr. split; [done|].
  pose proof (proj1 (proj2 (other_chunks_untouched zero E Mgr (MakeFName "Hall")
                              (MakeFName "Cave") ltac:(done)))) as H.
  split; [by rewrite H|]. split; [|done].
  change (MakeFName "HALL") with (MakeFName "Hall").
  change (MakeFName "CAVE") with (MakeFName "Cave"). by rewrite H.
Defined.

(** *** What a method does to the record it works on *)

Lemma resolve_same_chunk (E : Engine) (Rec : FTLDChunkRecord) :
  same_chunk Rec (resolve_Streaming E Rec).
Proof.
  unfold same_chunk, resolve_Streaming.
  destruct (Streaming Rec) eqn:HS; (split; [done|]); intros; [congruence|done].
Qed.

Lemma same_chunk_trans (a b c : FTLDChunkRecord) :
  same_chunk a b → same_chunk b c → same_chunk a c.
Proof.
  intros [H1 H2] [H3 H4]. split; [congruence|].
  intros SL HS. by apply H4, H2.
Qed.

Lemma same_chunk_refl (a : FTLDChunkRecord) : same_chunk a a.
Proof. by split. Qed.

Lemma ApplyLoad_same_chunk (E : Engine) (Rec : FTLDChunkRecord) (b : bool)
    (w : float) :
  same_chunk Rec (ApplyLoad E Rec b w).1.
Proof.
  apply (same_chunk_trans _ _ _ (resolve_same_chunk E Rec)).
  unfold ApplyLoad.
  destruct (Streaming (resolve_Streaming E Rec)) as [SL|] eqn:HS;
    [|apply same_chunk_refl].
  by destruct (IsLevelLoaded E SL).
Qed.

Lemma ApplyUnload_same_chunk (E : Engine) (Rec : FTLDChunkRecord) :
  same_chunk Rec (ApplyUnload E Rec).1.
Proof.
  apply (same_chunk_trans _ _ _ (resolve_same_chunk E Rec)).
  unfold ApplyUnload.
  by destruct (Streaming (resolve_Streaming E Rec)) as [SL|] eqn:HS.
Qed.

Lemma ApplyVisibility_same_chunk (E : Engine) (Rec : FTLDChunkRecord)
    (b : bool) :
  same_chunk Rec (ApplyVisibility E Rec b).1.
Proof.
  apply (same_chunk_trans _ _ _ (resolve_same_chunk E Rec)).
  unfold ApplyVisibility.
  destruct (Streaming (resolve_Streaming E Rec)) as [SL|] eqn:HS;
    [|apply same_chunk_refl].
  by destruct (IsLevelLoaded E SL).
Qed.

Lemma TickRecord_same_chunk (E : Engine) (dt : float) (Rec : FTLDChunkRecord) :
  same_chunk Rec (TickRecord E dt Rec).1.
Proof.
  unfold TickRecord.
  remember (if bool_decide (State Rec = Loading)
               && match Streaming Rec with
                  | Some SL => IsLevelLoaded E SL
                  | None => false
                  end
            then set_State LoadedHidden Rec else Rec) as Rec1 eqn:HR.
  assert (same_chunk Rec Rec1) as H1.
  { subst Rec1. by destruct (bool_decide _ && _). }
  clear HR. apply (same_chunk_trans _ _ _ H1).
  destruct (bool_decide (State Rec1 = LoadedHidden) && gtb (WarmUpSeconds Rec1) zero);
    [|apply same_chunk_refl].
  simpl. destruct (leb (sub (WarmUpSeconds Rec1) dt) zero); [|by split].
  apply (same_chunk_trans _ (set_WarmUpSeconds (sub (WarmUpSeconds Rec1) dt) Rec1));
    [by split | apply ApplyVisibility_same_chunk].
Qed.

Lemma on_record_same_chunk (d : float) (E : Engine) (n Key : FName)
    (f : FTLDChunkRecord → FTLDChunkRecord * list EngineCall)
    (Mgr : Manager) (Rec : FTLDChunkRecord) :
  (∀ R, same_chunk R (f R).1) →
  Find Key (ChunkRecords Mgr) = Some Rec →
  ∃ Rec', Find Key (ChunkRecords (on_record d E n f Mgr).1) = Some Rec'
          ∧ same_chunk Rec Rec'.
Proof.
  intros Hf HF. rewrite on_record_Find.
  destruct (bool_decide (n = Key)) eqn:Hn.
  - apply bool_decide_eq_true_1 in Hn. subst n.
    rewrite (GetOrAddRecord_tracked d E Key Mgr Rec HF). eauto.
  - exists Rec. split; [done | apply same_chunk_refl].
Qed.

Lemma on_record_well_keyed (d : float) (E : Engine) (n : FName)
    (f : FTLDChunkRecord → FTLDChunkRecord * list EngineCall) (Mgr : Manager) :
  (∀ R, same_chunk R (f R).1) →
  well_keyed Mgr → well_keyed (on_record d E n f Mgr).1.
Proof.
  intros Hf Hwk Key Rec'. rewrite on_record_Find.
  destruct (bool_decide (n = Key)) eqn:Hn; [|apply Hwk].
  apply bool_decide_eq_true_1 in Hn. subst n. intros [= <-].
  rewrite (proj1 (Hf _)).
  destruct (Find Key (ChunkRecords Mgr)) as [Rec|] eqn:HF.
  - rewrite (GetOrAddRecord_tracked d E Key Mgr Rec HF). by apply Hwk.
  - by rewrite (GetOrAddRecord_new d E Key Mgr HF).
Qed.

Lemma well_keyed_Forall (M : TMap) :
  Forall (λ kr, LevelName kr.2 = kr.1) M → well_keyed (mkManager M).
Proof.
  intros HM Key Rec. simpl. induction HM as [|[k r] M Hk _ IH]; simpl; [done|].
  destruct (bool_decide (k = Key)) eqn:HK; [|exact IH].
  apply bool_decide_eq_true_1 in HK. intros [= <-]. by subst.
Qed.

(** X3.  A tracked record keeps its identity: through every method it stays
    tracked under its key with the same [LevelName], and a streaming level
    that it has cached is never replaced or cleared.  Records filed under
    their own name stay so. *)
Theorem records_keep_identity (d : float) (E : Engine) (Mgr : Manager) :
  (∀ Key Rec,
     Find Key (ChunkRecords Mgr) = Some Rec →
     (∀ n bMake WarmUp,
        ∃ Rec', Find Key (ChunkRecords (LoadChunkAsync d E n bMake WarmUp Mgr).1)
                = Some Rec' ∧ same_chunk Rec Rec')
     ∧ (∀ n, ∃ Rec', Find Key (ChunkRecords (UnloadChunkAsync d E n Mgr).1)
                     = Some Rec' ∧ same_chunk Rec Rec')
     ∧ (∀ n bVisible,
          ∃ Rec', Find Key (ChunkRecords (SetChunkVisible d E n bVisible Mgr).1)
                  = Some Rec' ∧ same_chunk Rec Rec')
     ∧ (∀ dt, ∃ Rec', Find Key (ChunkRecords (Tick E dt Mgr).1) = Some Rec'
                      ∧ same_chunk Rec Rec'))
  ∧ (well_keyed Mgr →
     (∀ n bMake WarmUp, well_keyed (LoadChunkAsync d E n bMake WarmUp Mgr).1)
     ∧ (∀ n, well_keyed (UnloadChunkAsync d E n Mgr).1)
     ∧ (∀ n bVisible, well_keyed (SetChunkVisible d E n bVisible Mgr).1)
     ∧ (∀ dt, well_keyed (Tick E dt Mgr).1)).
Proof.
  unfold LoadChunkAsync, UnloadChunkAsync, SetChunkVisible. split.
  - intros Key Rec HF. repeat split; intros.
    + destruct (IsNone n);
        [exists Rec; split; [done | apply same_chunk_refl]|].
      apply on_record_same_chunk; [|done].
      intros R. apply ApplyLoad_same_chunk.
    + destruct (IsNone n);
        [exists Rec; split; [done | apply same_chunk_refl]|].
      apply on_record_same_chunk; [|done]. apply ApplyUnload_same_chunk.
    + destruct (IsNone n);
        [exists Rec; split; [done | apply same_chunk_refl]|].
      apply on_record_same_chunk; [|done].
      intros R. apply ApplyVisibility_same_chunk.
    + exists (TickRecord E dt Rec).1.
      rewrite StreamingProps.Find_Tick, HF.
      split; [done | apply TickRecord_same_chunk].
  - intros Hwk. repeat split; intros.
    + destruct (IsNone n); [done|]. apply on_record_well_keyed; [|done].
      intros R. apply ApplyLoad_same_chunk.
    + destruct (IsNone n); [done|]. apply on_record_well_keyed; [|done].
      apply ApplyUnload_same_chunk.
    + destruct (IsNone n); [done|]. apply on_record_well_keyed; [|done].
      intros R. apply ApplyVisibility_same_chunk.
    + intros Key Rec'. rewrite StreamingProps.Find_Tick.
      destruct (Find Key (ChunkRecords Mgr)) as [Rec|] eqn:HF; [|done].
      intros [= <-]. rewrite (proj1 (TickRecord_same_chunk E dt Rec)).
      by apply Hwk.
Qed.

Lemma records_keep_identity_witness :
  let E := mkEngine None (λ _, false) (λ _, false) in
  let Rec := mkRecord (MakeFName "Cave") Visible (Some 7%positive) zero in
  let Mgr := mkManager [(MakeFName "Cave", Rec)] in
  (Find (MakeFName "Cave") (ChunkRecords Mgr) = Some Rec ∧ well_keyed Mgr)
  ∧ (∃ Rec', Find (MakeFName "Cave") (ChunkRecords (UnloadChunkAsync zero E (MakeFName "Cave") Mgr).1)
             = Some Rec' ∧ Streaming Rec' = Some 7%positive)
  ∧ well_keyed (LoadChunkAsync zero E (MakeFName "Hall") true zero Mgr).1.
Proof.
  intros E Rec Mgr.
  assert (well_keyed Mgr) as Hwk.
  { apply well_keyed_Forall. by repeat constructor. }
  destruct (records_keep_identity zero E Mgr) as [HI HW].
  split; [done|]. split.
  - destruct (HI (MakeFName "Cave") Rec eq_refl) as (_ & HU & _).
    destruct (HU (MakeFName "Cave")) as (Rec' & HF & _ & HS). exists Rec'.
    split; [exact HF | by apply HS].
  - apply (HW Hwk).
Defined.

(** *** Requests and what is recorded *)

Lemma on_record_state (d : float) (E : Engine) (n : FName)
    (f : FTLDChunkRecord → FTLDChunkRecord * list EngineCall) (Mgr : Manager) :
  state_of n (on_record d E n f Mgr).1
  = Some (State (f (GetOrAddRecord d E n Mgr).1).1).
Proof.
  unfold state_of. by rewrite on_record_Find, bool_decide_eq_true_2.
Qed.

Ltac calls_cases :=
  repeat split; simpl; try done; intros;
  repeat match goal with
         | H : _ ∈ [] |- _ => by apply elem_of_nil in H
         | H : _ ∈ _ :: _ |- _ => apply elem_of_cons in H as [?|H]; simplify_eq/=
         end;
  try done; try (by left); try (right; by left).

(** X4.  The recorded state mirrors the requests.  When [LoadChunkAsync],
    [UnloadChunkAsync] or [SetChunkVisible] works on a chunk whose streaming
    level exists, it sends requests, all of them to that level; afterwards the
    chunk is recorded Visible exactly when the level was asked to be visible,
    and Unloaded exactly when it was asked to be unloaded. *)
Theorem state_mirrors_requests (d : float) (E : Engine) (Mgr : Manager)
    (n : FName) (SL : LevelStreaming) :
  IsNone n = false →
  chunk_streaming E n Mgr = Some SL →
  (∀ bMake WarmUp, mirrors n SL (LoadChunkAsync d E n bMake WarmUp Mgr))
  ∧ mirrors n SL (UnloadChunkAsync d E n Mgr)
  ∧ (∀ bVisible, mirrors n SL (SetChunkVisible d E n bVisible Mgr)).
Proof.
  intros HN HS. rewrite (StreamingProps.chunk_streaming_GetOrAddRecord d) in HS.
  unfold mirrors, LoadChunkAsync, UnloadChunkAsync, SetChunkVisible. rewrite HN.
  split; [|split].
  - intros bMake WarmUp. rewrite on_record_state.
    destruct (StreamingProps.on_record_spec d E n
                (λ Rec, ApplyLoad E Rec bMake WarmUp) Mgr) as [-> _].
    unfold ApplyLoad. rewrite HS.
    destruct (IsLevelLoaded E SL), (bMake && leb WarmUp zero); calls_cases.
  - rewrite on_record_state.
    destruct (StreamingProps.on_record_spec d E n (ApplyUnload E) Mgr) as [-> _].
    unfold ApplyUnload. rewrite HS. calls_cases.
  - intros bVisible. rewrite on_record_state.
    destruct (StreamingProps.on_record_spec d E n
                (λ Rec, ApplyVisibility E Rec bVisible) Mgr) as [-> _].
    unfold ApplyVisibility. rewrite HS.
    destruct (IsLevelLoaded E SL), bVisible; calls_cases.
Qed.

Lemma state_mirrors_requests_witness :
  let W := mkWorld (λ n, if bool_decide (n = MakeFName "Cave") then Some 7%positive else None)
                   [] (λ _, "Cave") in
  let E := mkEngine (Some W) (λ _, true) (λ _, false) in
  let Mgr := mkManager [] in
  (IsNone (MakeFName "Cave") = false ∧ chunk_streaming E (MakeFName "Cave") Mgr = Some 7%positive)
  ∧ mirrors (MakeFName "Cave") 7%positive (LoadChunkAsync zero E (MakeFName "Cave") true (of_Z 3) Mgr)
  ∧ state_of (MakeFName "Cave") (LoadChunkAsync zero E (MakeFName "Cave") true (of_Z 3) Mgr).1
    = Some LoadedHidden.
Proof.
  intros W E Mgr. split; [done|]. split; [|done].
  by apply (proj1 (state_mirrors_requests zero E Mgr (MakeFName "Cave") 7%positive
                     eq_refl eq_refl)).
Defined.

(** X5.  A name that is no sublevel of the world is inert.  When no streaming
    level is found for a name, [LoadChunkAsync], [SetChunkVisible] and
    [UnloadChunkAsync] send nothing to the engine; the name is tracked
    afterwards, with the state it had, Unloaded if it was new (and Unloaded
    in any case after [UnloadChunkAsync]). *)
Theorem missing_sublevel_is_inert (d : float) (E : Engine) (Mgr : Manager)
    (n : FName) :
  IsNone n = false →
  chunk_streaming E n Mgr = None →
  (∀ bMake WarmUp,
     (LoadChunkAsync d E n bMake WarmUp Mgr).2 = []
     ∧ state_of n (LoadChunkAsync d E n bMake WarmUp Mgr).1
       = Some (default Unloaded (state_of n Mgr)))
  ∧ (∀ bVisible,
       (SetChunkVisible d E n bVisible Mgr).2 = []
       ∧ state_of n (SetChunkVisible d E n bVisible Mgr).1
         = Some (default Unloaded (state_of n Mgr)))
  ∧ (UnloadChunkAsync d E n Mgr).2 = []
  ∧ state_of n (UnloadChunkAsync d E n Mgr).1 = Some Unloaded.
Proof.
  intros HN HS. rewrite (StreamingProps.chunk_streaming_GetOrAddRecord d) in HS.
  assert (State (resolve_Streaming E (GetOrAddRecord d E n Mgr).1)
          = default Unloaded (state_of n Mgr)) as HD.
  { rewrite (proj1 (StreamingProps.resolve_Streaming_State E _)).
    unfold state_of, GetOrAddRecord.
    by destruct (Find n (ChunkRecords Mgr)). }
  unfold LoadChunkAsync, UnloadChunkAsync, SetChunkVisible. rewrite HN.
  split; [|split; [|split]].
  - intros bMake WarmUp. rewrite on_record_state.
    destruct (StreamingProps.on_record_spec d E n
                (λ Rec, ApplyLoad E Rec bMake WarmUp) Mgr) as [-> _].
    unfold ApplyLoad. rewrite HS. simpl. by rewrite HD.
  - intros bVisible. rewrite on_record_state.
    destruct (StreamingProps.on_record_spec d E n
                (λ Rec, ApplyVisibility E Rec bVisible) Mgr) as [-> _].
    unfold ApplyVisibility. rewrite HS. simpl. by rewrite HD.
  - destruct (StreamingProps.on_record_spec d E n (ApplyUnload E) Mgr) as [-> _].
    unfold ApplyUnload. by rewrite HS.
  - rewrite on_record_state. unfold ApplyUnload. by rewrite HS.
Qed.

Lemma missing_sublevel_is_inert_witness :
  let W := mkWorld (λ _, None) [None; Some 7%positive] (λ _, "CAVE") in
  let E := mkEngine (Some W) (λ _, true) (λ _, true) in
  let Mgr := mkManager [] in
  (IsNone (MakeFName "Hall") = false ∧ chunk_streaming E (MakeFName "Hall") Mgr = None)
  ∧ (LoadChunkAsync zero E (MakeFName "Hall") true zero Mgr).2 = []
  ∧ state_of (MakeFName "Hall") (LoadChunkAsync zero E (MakeFName "Hall") true zero Mgr).1
    = Some Unloaded
  ∧ state_of (MakeFName "HALL") (LoadChunkAsync zero E (MakeFName "hall") true zero Mgr).1
    = Some Unloaded
  ∧ chunk_streaming E (MakeFName "cave") Mgr = Some 7%positive
  ∧ (LoadChunkAsync zero E (MakeFName "cave") true zero Mgr).2
    = [SetShouldBeVisible 7%positive true].
Proof.
  intros W E Mgr. split; [done|].
  destruct (proj1 (missing_sublevel_is_inert zero E Mgr (MakeFName "Hall")
                     eq_refl eq_refl) true zero) as [H1 H2].
  split; [exact H1|]. split; [exact H2|]. split; [exact H2|]. done.
Defined.

(** X6.  What is asked is what is answered.  After [UnloadChunkAsync] for a
    name, both queries answer false for it, whatever the engine reports.
    After a load of an existing sublevel that is to be shown with no warm-up,
    both answer true at once, whatever the engine reports.  After
    [SetChunkVisible] on a level that is loaded, [IsChunkLoaded] is true and
    [IsChunkVisible] is the visibility asked for. *)
Theorem queries_follow_the_record (d : float) (E E' : Engine) (Mgr : Manager)
    (n : FName) :
  IsNone n = false →
  (IsChunkLoaded E' n (UnloadChunkAsync d E n Mgr).1 = false
   ∧ IsChunkVisible E' n (UnloadChunkAsync d E n Mgr).1 = false)
  ∧ (∀ SL WarmUp,
       chunk_streaming E n Mgr = Some SL → leb WarmUp zero = true →
       IsChunkLoaded E' n (LoadChunkAsync d E n true WarmUp Mgr).1 = true
       ∧ IsChunkVisible E' n (LoadChunkAsync d E n true WarmUp Mgr).1 = true)
  ∧ (∀ SL bVisible,
       chunk_streaming E n Mgr = Some SL → IsLevelLoaded E SL = true →
       IsChunkLoaded E' n (SetChunkVisible d E n bVisible Mgr).1 = true
       ∧ IsChunkVisible E' n (SetChunkVisible d E n bVisible Mgr).1 = bVisible).
Proof.
  intros HN. unfold IsChunkLoaded, IsChunkVisible,
    LoadChunkAsync, UnloadChunkAsync, SetChunkVisible. rewrite HN.
  split; [|split].
  - rewrite on_record_Find, bool_decide_eq_true_2 by done.
    unfold ApplyUnload.
    by destruct (Streaming (resolve_Streaming E (GetOrAddRecord d E n Mgr).1)).
  - intros SL WarmUp HS HW.
    rewrite (StreamingProps.chunk_streaming_GetOrAddRecord d) in HS.
    rewrite on_record_Find, bool_decide_eq_true_2 by done.
    unfold ApplyLoad. rewrite HS, HW. by destruct (IsLevelLoaded E SL).
  - intros SL bVisible HS HL.
    rewrite (StreamingProps.chunk_streaming_GetOrAddRecord d) in HS.
    rewrite on_record_Find, bool_decide_eq_true_2 by done.
    unfold ApplyVisibility. rewrite HS, HL. by destruct bVisible.
Qed.

Lemma queries_follow_the_record_witness :
  let W := mkWorld (λ n, if bool_decide (n = MakeFName "Cave") then Some 7%positive else None)
                   [] (λ _, "Cave") in
  let E := mkEngine (Some W) (λ _, false) (λ _, false) in
  let Mgr := mkManager [] in
  (IsNone (MakeFName "Cave") = false ∧ chunk_streaming E (MakeFName "Cave") Mgr = Some 7%positive
   ∧ leb zero zero = true)
  ∧ IsChunkVisible E (MakeFName "Cave") (LoadChunkAsync zero E (MakeFName "Cave") true zero Mgr).1 = true
  ∧ IsChunkLoaded E (MakeFName "Cave") (UnloadChunkAsync zero E (MakeFName "Cave") Mgr).1 = false.
Proof.
  intros W E Mgr. split; [done|].
  destruct (queries_follow_the_record zero E E Mgr (MakeFName "Cave") eq_refl)
    as ([HU _] & HL & _).
  split; [|exact HU].
  by apply (HL 7%positive zero).
Defined.

(** *** Frames without a warm-up *)

Lemma TickRecord_no_warm_up (E : Engine) (dt : float) (Rec : FTLDChunkRecord) :
  gtb (WarmUpSeconds Rec) zero = false →
  (TickRecord E dt Rec).2 = []
  ∧ WarmUpSeconds (TickRecord E dt Rec).1 = WarmUpSeconds Rec
  ∧ (State (TickRecord E dt Rec).1 = State Rec
     ∨ State Rec = Loading ∧ State (TickRecord E dt Rec).1 = LoadedHidden).
Proof.
  intros HW. unfold TickRecord.
  destruct (bool_decide (State Rec = Loading)) eqn:HS; simpl.
  - apply bool_decide_eq_true_1 in HS.
    destruct (match Streaming Rec with
              | Some SL => IsLevelLoaded E SL
              | None => false
              end); simpl; rewrite ?HW, ?andb_false_r; simpl; auto.
  - rewrite HW, andb_false_r. simpl. auto.
Qed.

Lemma TickRecords_no_warm_up (E : Engine) (dt : float) (M : TMap) :
  Forall (λ kr, gtb (WarmUpSeconds kr.2) zero = false) M →
  (TickRecords E dt M).2 = []
  ∧ Forall (λ kr, gtb (WarmUpSeconds kr.2) zero = false) (TickRecords E dt M).1.
Proof.
  induction 1 as [|[k r] M Hr _ IH]; [done|]. cbn [TickRecords].
  destruct (TickRecord_no_warm_up E dt r Hr) as (Hc & Hw & _).
  destruct (TickRecord E dt r) as [r' c].
  destruct (TickRecords E dt M) as [M' c']. simpl in *.
  destruct IH as [-> IH]. subst c. split; [done|].
  constructor; [simpl; by rewrite Hw | done].
Qed.

Lemma Tick_no_warm_up (E : Engine) (dt : float) (Mgr : Manager) :
  no_warm_up Mgr → (Tick E dt Mgr).2 = [] ∧ no_warm_up (Tick E dt Mgr).1.
Proof.
  intros H. unfold Tick, no_warm_up in *.
  pose proof (TickRecords_no_warm_up E dt (ChunkRecords Mgr) H) as HT.
  by destruct (TickRecords E dt (ChunkRecords Mgr)).
Qed.

(** X7.  [Tick] reveals nothing without a warm-up.  A record whose
    [WarmUpSeconds] is not above zero keeps that value through any number of
    frames, whatever the engine reports, and the only change of state that
    frames make to it is from Loading to LoadedHidden: it never becomes
    Visible by polling.  When no record has a warm-up above zero, frames send
    nothing to the engine. *)
Theorem frames_need_warm_up_to_show (frames : list (Engine * float))
    (Mgr : Manager) :
  (∀ Key Rec,
     Find Key (ChunkRecords Mgr) = Some Rec →
     gtb (WarmUpSeconds Rec) zero = false →
     ∃ Rec', Find Key (ChunkRecords (Ticks frames Mgr).1) = Some Rec'
       ∧ WarmUpSeconds Rec' = WarmUpSeconds Rec
       ∧ (State Rec' = State Rec
          ∨ State Rec = Loading ∧ State Rec' = LoadedHidden))
  ∧ (no_warm_up Mgr → (Ticks frames Mgr).2 = []).
Proof.
  unfold Ticks. split.
  - revert Mgr. induction frames as [|[E dt] frames IH]; intros Mgr Key Rec HF HW.
    + exists Rec. auto.
    + cbn [for_each fst snd].
      destruct (TickRecord_no_warm_up E dt Rec HW) as (_ & Hw1 & Hs1).
      pose proof (StreamingProps.Find_Tick E dt Key Mgr) as HT.
      rewrite HF in HT. simpl in HT.
      destruct (Tick E dt Mgr) as [Mgr1 c1]. simpl in HT.
      destruct (IH Mgr1 Key _ HT) as (Rec' & HF' & Hw' & Hs'); [by rewrite Hw1|].
      destruct (for_each _ frames Mgr1) as [Mgr2 c2]. simpl in *.
      exists Rec'. split; [done|]. split; [congruence|].
      destruct Hs1 as [Hs1|[Hs1 Hs1']], Hs' as [Hs'|[Hs' Hs'']];
        [left|right|right|]; try congruence; try (split; congruence).
  - revert Mgr. induction frames as [|[E dt] frames IH]; intros Mgr HM; [done|].
    cbn [for_each fst snd].
    destruct (Tick_no_warm_up E dt Mgr HM) as [Hc HM1].
    destruct (Tick E dt Mgr) as [Mgr1 c1]. simpl in *.
    specialize (IH Mgr1 HM1).
    destruct (for_each _ frames Mgr1) as [Mgr2 c2]. simpl in *. by subst.
Qed.

Lemma frames_need_warm_up_to_show_witness :
  let W := mkWorld (λ n, if bool_decide (n = MakeFName "Cave") then Some 7%positive else None)
                   [] (λ _, "Cave") in
  let Before := mkEngine (Some W) (λ _, false) (λ _, false) in
  let After := mkEngine (Some W) (λ _, true) (λ _, false) in
  let Mgr := (SetChunkVisible zero Before (MakeFName "Cave") true (mkManager [])).1 in
  let Rec := mkRecord (MakeFName "Cave") Loading (Some 7%positive) zero in
  let frames := [(After, of_Z 1); (After, of_Z 1); (After, of_Z 1)] in
  (Find (MakeFName "Cave") (ChunkRecords Mgr) = Some Rec
   ∧ gtb (WarmUpSeconds Rec) zero = false ∧ no_warm_up Mgr)
  ∧ (∃ Rec', Find (MakeFName "Cave") (ChunkRecords (Ticks frames Mgr).1) = Some Rec'
             ∧ State Rec' ≠ Visible)
  ∧ (Ticks frames Mgr).2 = [].
Proof.
  intros W Before After Mgr Rec frames.
  assert (no_warm_up Mgr) as HM by (by repeat constructor).
  split; [done|].
  destruct (frames_need_warm_up_to_show frames Mgr) as [HK HC].
  split; [|by apply HC].
  destruct (HK (MakeFName "Cave") Rec eq_refl eq_refl) as (Rec' & HF & _ & HS).
  exists Rec'. split; [exact HF|].
  destruct HS as [HS|[_ HS]]; rewrite HS; discriminate.
Defined.

End StreamingMore.

(** ** Level groups, start-up and the trigger volume *)

Module StreamingGroups.
Import Float32 FString Streaming StreamingExt.

(** *** Loops *)

Lemma for_each_state {A S C : Type} (P : S → Prop)
    (body : A → S → S * list C) (l : list A) (st : S) :
  (∀ a st, P st → P (body a st).1) → P st → P (for_each body l st).1.
Proof.
  intros Hb. revert st. induction l as [|a l IH]; intros st HP; [done|].
  cbn [for_each]. specialize (Hb a st HP).
  destruct (body a st) as [st1 c1]. specialize (IH st1 Hb).
  by destruct (for_each body l st1).
Qed.

Lemma for_each_calls {A S C : Type} (Q : list C → Prop)
    (body : A → S → S * list C) (l : list A) (st : S) :
  Q [] → (∀ x y, Q x → Q y → Q (x ++ y)) → (∀ a st, Q (body a st).2) →
  Q (for_each body l st).2.
Proof.
  intros Hn Ha Hb. revert st. induction l as [|a l IH]; intros st; [done|].
  cbn [for_each]. specialize (Hb a st).
  destruct (body a st) as [st1 c1]. specialize (IH st1).
  destruct (for_each body l st1). by apply Ha.
Qed.

(** *** Short level names *)

Lemma after_last_slash_None (s : FString) :
  after_last_slash s = None ↔ has_slash s = false.
Proof.
  induction s as [|c s IH]; simpl; [done|].
  destruct (after_last_slash s) as [t|].
  - split; [done|]. intros [_ H]%orb_false_iff. apply IH in H. done.
  - rewrite (proj1 IH eq_refl), orb_false_r. by destruct (is_slash c).
Qed.

Lemma after_last_slash_Some (s t : FString) :
  after_last_slash s = Some t →
  has_slash t = false ∧ ∃ a, s = String.append a (String "/" t).
Proof.
  revert t. induction s as [|c s IH]; intros t; simpl; [done|].
  destruct (after_last_slash s) as [t'|] eqn:Hs.
  - intros [= ->]. destruct (IH t eq_refl) as [Ht [a ->]].
    split; [done|]. by exists (String c a).
  - unfold is_slash. destruct (bool_decide (c = "/"%char)) eqn:Hc; [|done].
    apply bool_decide_eq_true_1 in Hc. intros [= ->]. subst c.
    split; [by apply after_last_slash_None|]. by exists EmptyString.
Qed.

Lemma after_last_slash_app (a b : FString) :
  has_slash b = false →
  after_last_slash (String.append a (String "/" b)) = Some b.
Proof.
  intros Hb. induction a as [|c a IH]; simpl.
  - by rewrite (proj2 (after_last_slash_None b) Hb).
  - by rewrite IH.
Qed.

(** X8.  The short name of a level is the name made of the text after the
    last "/" of its long package name.  [AssetToShortLevelName] gives a name
    other than None only for a valid path of the form head/text, where text
    holds no "/", and then it gives the name of that text; a package name
    without "/" gives None, and so does a path that ends in "/None" in any
    case.  Two texts give the same name exactly when they are equal ignoring
    case.  The split itself returns the text after the last "/" whenever
    there is a "/". *)
Theorem short_name_is_last_segment :
  (∀ a b, has_slash b = false →
     after_last_slash (String.append a (String "/" b)) = Some b)
  ∧ (∀ s, after_last_slash s = None ↔ has_slash s = false)
  ∧ (∀ LevelAsset,
       IsNone (AssetToShortLevelName LevelAsset) = false →
       PathIsValid LevelAsset = true
       ∧ ∃ a b, GetLongPackageName LevelAsset = String.append a (String "/" b)
                ∧ has_slash b = false ∧ IsEmpty b = false
                ∧ EqualsIgnoreCase b "None" = false
                ∧ AssetToShortLevelName LevelAsset = MakeFName b)
  ∧ (∀ LevelAsset,
       has_slash (GetLongPackageName LevelAsset) = false →
       AssetToShortLevelName LevelAsset = NAME_None)
  ∧ (∀ a b, IsEmpty a = false → IsEmpty b = false →
       MakeFName a = MakeFName b ↔ EqualsIgnoreCase a b = true).
Proof.
  split; [exact after_last_slash_app|]. split; [exact after_last_slash_None|].
  split; [|split; [|exact StreamingProps.MakeFName_eq]].
  - intros [v p]. unfold AssetToShortLevelName, short_level_name. cbn.
    destruct v; cbn; [|done].
    destruct (IsEmpty p); [done|].
    destruct (after_last_slash p) as [t|] eqn:Hp; cbn [default]; [|done].
    rewrite StreamingProps.IsNone_MakeFName.
    intros [HE HN]%orb_false_iff. split; [done|].
    destruct (after_last_slash_Some p t Hp) as [Ht [a Ha]].
    by exists a, t.
  - intros [v p]. unfold AssetToShortLevelName, short_level_name. cbn.
    intros Hp. destruct v; cbn; [|done]. destruct (IsEmpty p); [done|].
    by rewrite (proj2 (after_last_slash_None p) Hp).
Qed.

Lemma short_name_is_last_segment_witness :
  let A := mkSoftWorld true "/Game/Maps/Forest/Forest_01" in
  let B := mkSoftWorld true "/Game/Old/FOREST_01" in
  let C := mkSoftWorld true "/Game/Maps/none" in
  (has_slash "Forest_01" = false ∧ IsNone (AssetToShortLevelName A) = false)
  ∧ after_last_slash (String.append "/Game/Maps/Forest" (String "/" "Forest_01"))
    = Some "Forest_01"%string
  ∧ PathIsValid A = true
  ∧ AssetToShortLevelName A = AssetToShortLevelName B
  ∧ AssetToShortLevelName C = NAME_None.
Proof.
  intros A B C. split; [done|].
  destruct short_name_is_last_segment as (H1 & _ & H3 & _).
  split; [by apply H1|].
  split; [by destruct (H3 A eq_refl) as [? _]|]. done.
Defined.

(** *** One chunk under the three methods *)

Lemma LoadChunkAsync_keeps_tracked (d : float) (E : Engine) (n k : FName)
    (b : bool) (W : float) (Mgr : Manager) :
  is_Some (Find k (ChunkRecords Mgr)) →
  is_Some (Find k (ChunkRecords (LoadChunkAsync d E n b W Mgr).1)).
Proof.
  intros Hk. unfold LoadChunkAsync. destruct (IsNone n); [done|].
  rewrite StreamingMore.on_record_Find. by destruct (bool_decide (n = k)).
Qed.

Lemma LoadChunkAsync_tracks (d : float) (E : Engine) (n : FName)
    (b : bool) (W : float) (Mgr : Manager) :
  IsNone n = false →
  is_Some (Find n (ChunkRecords (LoadChunkAsync d E n b W Mgr).1)).
Proof.
  intros Hn. unfold LoadChunkAsync. rewrite Hn.
  by rewrite StreamingMore.on_record_Find, bool_decide_eq_true_2.
Qed.

Lemma LoadChunkAsync_load_before_show (d : float) (E : Engine) (n : FName)
    (b : bool) (W : float) (Mgr : Manager) :
  load_before_show E (LoadChunkAsync d E n b W Mgr).2.
Proof.
  unfold LoadChunkAsync, on_record.
  destruct (IsNone n); [apply StreamingProps.load_before_show_nil|].
  destruct (GetOrAddRecord d E n Mgr) as [Rec Mgr1].
  pose proof (StreamingProps.ApplyLoad_load_before_show E Rec b W) as H.
  by destruct (ApplyLoad E Rec b W).
Qed.

Lemma UnloadChunkAsync_load_before_show (d : float) (E : Engine) (n : FName)
    (Mgr : Manager) :
  load_before_show E (UnloadChunkAsync d E n Mgr).2.
Proof.
  unfold UnloadChunkAsync, on_record.
  destruct (IsNone n); [apply StreamingProps.load_before_show_nil|].
  destruct (GetOrAddRecord d E n Mgr) as [Rec Mgr1].
  pose proof (StreamingProps.ApplyUnload_load_before_show E Rec) as H.
  by destruct (ApplyUnload E Rec).
Qed.

Lemma ApplyUnload_State (E : Engine) (Rec : FTLDChunkRecord) :
  State (ApplyUnload E Rec).1 = Unloaded.
Proof.
  unfold ApplyUnload. by destruct (Streaming (resolve_Streaming E Rec)).
Qed.

Lemma UnloadChunkAsync_state (d : float) (E : Engine) (n : FName)
    (Mgr : Manager) :
  IsNone n = false →
  state_of n (UnloadChunkAsync d E n Mgr).1 = Some Unloaded.
Proof.
  intros Hn. unfold UnloadChunkAsync. rewrite Hn.
  by rewrite StreamingMore.on_record_state, ApplyUnload_State.
Qed.

Lemma UnloadChunkAsync_other (d : float) (E : Engine) (n k : FName)
    (Mgr : Manager) :
  n ≠ k →
  Find k (ChunkRecords (UnloadChunkAsync d E n Mgr).1)
  = Find k (ChunkRecords Mgr).
Proof.
  intros Hn. unfold UnloadChunkAsync. destruct (IsNone n); [done|].
  by rewrite StreamingMore.on_record_Find, bool_decide_eq_false_2.
Qed.

Lemma UnloadChunkAsync_stays_Unloaded (d : float) (E : Engine) (n k : FName)
    (Mgr : Manager) :
  state_of k Mgr = Some Unloaded →
  state_of k (UnloadChunkAsync d E n Mgr).1 = Some Unloaded.
Proof.
  intros Hk. destruct (decide (n = k)) as [->|Hne].
  - unfold UnloadChunkAsync. destruct (IsNone k); [done|].
    by rewrite StreamingMore.on_record_state, ApplyUnload_State.
  - unfold state_of. by rewrite UnloadChunkAsync_other.
Qed.

(** Unloading a list of names one after the other. *)
Lemma unload_all (d : float) (E : Engine) (l : list FName) (Mgr : Manager) :
  let r := for_each (UnloadChunkAsync d E) l Mgr in
  (∀ n, n ∈ l → IsNone n = false → state_of n r.1 = Some Unloaded)
  ∧ (∀ k, state_of k Mgr = Some Unloaded → state_of k r.1 = Some Unloaded)
  ∧ (∀ k, k ∉ l → Find k (ChunkRecords r.1) = Find k (ChunkRecords Mgr))
  ∧ load_before_show E r.2.
Proof.
  revert Mgr. induction l as [|m l IH]; intros Mgr; cbn [for_each].
  - split; [by intros n Hn%elem_of_nil|].
    repeat split; try done. apply StreamingProps.load_before_show_nil.
  - pose proof (UnloadChunkAsync_state d E m Mgr) as Hm.
    pose proof (λ k, UnloadChunkAsync_stays_Unloaded d E m k Mgr) as Hs.
    pose proof (λ k, UnloadChunkAsync_other d E m k Mgr) as Ho.
    pose proof (UnloadChunkAsync_load_before_show d E m Mgr) as Hl.
    destruct (UnloadChunkAsync d E m Mgr) as [Mgr1 c1]. cbn [fst snd] in *.
    specialize (IH Mgr1).
    destruct (for_each (UnloadChunkAsync d E) l Mgr1) as [Mgr2 c2].
    cbn [fst snd] in *. destruct IH as (IH1 & IH2 & IH3 & IH4).
    split; [|split; [|split]].
    + intros n [->|Hn]%elem_of_cons Hnn; [|by apply IH1].
      apply IH2. by apply Hm.
    + intros k Hk. apply IH2. by apply Hs.
    + intros k Hk. apply not_elem_of_cons in Hk as [Hkm Hkl].
      rewrite IH3 by done. apply Ho. congruence.
    + by apply StreamingProps.load_before_show_app.
Qed.

(** *** The trigger's list *)

Lemma elem_of_AddUnique (n m : FName) (l : list FName) :
  n ∈ AddUnique m l ↔ n ∈ l ∨ n = m.
Proof.
  unfold AddUnique. destruct (bool_decide (m ∈ l)) eqn:Hm.
  - apply bool_decide_eq_true_1 in Hm. split; [by left|].
    by intros [?| ->].
  - rewrite elem_of_app, list_elem_of_singleton. done.
Qed.

Lemma NoDup_AddUnique (m : FName) (l : list FName) :
  NoDup l → NoDup (AddUnique m l).
Proof.
  intros Hl. unfold AddUnique. destruct (bool_decide (m ∈ l)) eqn:Hm; [done|].
  apply bool_decide_eq_false_1 in Hm.
  apply NoDup_app. split; [done|]. split; [|apply NoDup_singleton].
  intros x Hx ->%list_elem_of_singleton. done.
Qed.

Lemma load_configured_level_spec (d : float) (E : Engine) (L : TSoftWorld)
    (T : Trigger) (Mgr : Manager) :
  let r := load_configured_level d E L (T, Mgr) in
  let g := load_group_level d E (bVisibleAfterLoad T) (Trigger_WarmUpSeconds T)
                            L Mgr in
  r.1.2 = g.1 ∧ r.2 = g.2
  ∧ bVisibleAfterLoad r.1.1 = bVisibleAfterLoad T
  ∧ Trigger_WarmUpSeconds r.1.1 = Trigger_WarmUpSeconds T
  ∧ LoadedByThisTrigger r.1.1
    = (if IsNone (AssetToShortLevelName L) then LoadedByThisTrigger T
       else AddUnique (AssetToShortLevelName L) (LoadedByThisTrigger T)).
Proof.
  unfold load_configured_level, load_group_level, AssetToShortLevelName.
  cbn [fst snd].
  destruct (PathIsValid L); cbn [negb]; [|done].
  destruct (IsEmpty (GetLongPackageName L)); [done|].
  destruct (IsNone (short_level_name (GetLongPackageName L))) eqn:HN.
  - unfold LoadChunkAsync. by rewrite HN.
  - by destruct (LoadChunkAsync d E _ _ _ Mgr).
Qed.

Lemma load_configured_loop (d : float) (E : Engine) (levels : list TSoftWorld)
    (T : Trigger) (Mgr : Manager) :
  let r := for_each (load_configured_level d E) levels (T, Mgr) in
  let g := for_each (load_group_level d E (bVisibleAfterLoad T)
                                      (Trigger_WarmUpSeconds T)) levels Mgr in
  r.1.2 = g.1 ∧ r.2 = g.2
  ∧ (∀ n, n ∈ LoadedByThisTrigger r.1.1 ↔
          n ∈ LoadedByThisTrigger T
          ∨ ∃ L, L ∈ levels ∧ AssetToShortLevelName L = n ∧ IsNone n = false)
  ∧ (NoDup (LoadedByThisTrigger T) → NoDup (LoadedByThisTrigger r.1.1)).
Proof.
  revert T Mgr. induction levels as [|L levels IH]; intros T Mgr.
  - cbn [for_each fst snd]. repeat split; try done; [by left|].
    intros [?|(L & HL%elem_of_nil & _)]; done.
  - cbn [for_each].
    destruct (load_configured_level_spec d E L T Mgr) as (H1 & H2 & H3 & H4 & H5).
    destruct (load_configured_level d E L (T, Mgr)) as [[T1 Mgr1] c1].
    cbn [fst snd] in *.
    destruct (load_group_level d E _ _ L Mgr) as [Mgr1' c1'].
    cbn [fst snd] in *. subst Mgr1' c1'.
    specialize (IH T1 Mgr1). rewrite H3, H4 in IH.
    destruct (for_each (load_configured_level d E) levels (T1, Mgr1))
      as [[T2 Mgr2] c2].
    destruct (for_each (load_group_level d E _ _) levels Mgr1) as [Mgr2' c2'].
    cbn [fst snd] in *. destruct IH as (-> & -> & IH3 & IH4).
    split; [done|]. split; [done|]. split.
    + intros n. rewrite IH3, H5. split.
      * intros [Hn|(L' & HL' & HS & HN)].
        -- destruct (IsNone (AssetToShortLevelName L)) eqn:HNL; [by left|].
           apply elem_of_AddUnique in Hn as [?| ->]; [by left|].
           right. exists L. split; [by left|done].
        -- right. exists L'. split; [by right|done].
      * intros [Hn|(L' & [->|HL']%elem_of_cons & HS & HN)].
        -- left. destruct (IsNone (AssetToShortLevelName L)); [done|].
           apply elem_of_AddUnique. by left.
        -- left. rewrite HS, HN. apply elem_of_AddUnique. by right.
        -- right. by exists L'.
    + intros HT. apply IH4. rewrite H5.
      destruct (IsNone (AssetToShortLevelName L)); [done|].
      by apply NoDup_AddUnique.
Qed.

Lemma load_configured_level_remembered (d : float) (E : Engine)
    (L : TSoftWorld) (TM : Trigger * Manager) :
  remembered_ok TM → remembered_ok (load_configured_level d E L TM).1.
Proof.
  intros [Hnd Hall]. destruct TM as [T Mgr].
  unfold load_configured_level. cbn [fst snd] in *.
  destruct (IsNone (AssetToShortLevelName L)) eqn:HN; [done|].
  pose proof (LoadChunkAsync_tracks d E _ (bVisibleAfterLoad T)
                (Trigger_WarmUpSeconds T) Mgr HN) as Ht.
  pose proof (λ k, LoadChunkAsync_keeps_tracked d E (AssetToShortLevelName L) k
                (bVisibleAfterLoad T) (Trigger_WarmUpSeconds T) Mgr) as Hk.
  destruct (LoadChunkAsync d E _ _ _ Mgr) as [Mgr1 c1]. cbn [fst snd] in *.
  split; cbn [fst snd LoadedByThisTrigger set_LoadedByThisTrigger].
  - by apply NoDup_AddUnique.
  - intros n [Hn| ->]%elem_of_AddUnique; [|done].
    destruct (Hall n Hn) as [? ?]. split; [done|by apply Hk].
Qed.

Lemma LoadConfiguredLevels_remembered (d : float) (E : Engine) (A : Assets)
    (TM : Trigger * Manager) :
  remembered_ok (LoadConfiguredLevels d E A TM).1.
Proof.
  assert (remembered_ok (set_LoadedByThisTrigger [] TM.1, TM.2)) as H0.
  { split; cbn; [apply NoDup_nil_2|]. by intros n Hn%elem_of_nil. }
  unfold LoadConfiguredLevels. cbn [fst snd].
  destruct (IsEmpty (LevelGroupName _)); [done|].
  destruct (LevelConfigAsset A) as [Path|]; [|done].
  destruct (IsEmpty Path); [done|].
  destruct (LoadLevelConfig A Path) as [Config|]; [|done].
  apply (for_each_state remembered_ok); [|done].
  intros L st. apply load_configured_level_remembered.
Qed.

(** X9.  A trigger with a group name loads its group the way the manager's
    [LoadLevelGroup] does: [LoadConfiguredLevels] leaves the manager in the
    same state and sends the same requests as [LoadLevelGroup] called with the
    trigger's group name, visibility flag and warm-up. *)
Theorem trigger_loads_like_the_manager (d : float) (E : Engine) (A : Assets)
    (T : Trigger) (Mgr : Manager) :
  IsEmpty (LevelGroupName T) = false →
  let r := LoadConfiguredLevels d E A (T, Mgr) in
  let g := LoadLevelGroup d E A (LevelGroupName T) (bVisibleAfterLoad T)
                          (Trigger_WarmUpSeconds T) Mgr in
  r.1.2 = g.1 ∧ r.2 = g.2.
Proof.
  intros HG. unfold LoadConfiguredLevels, LoadLevelGroup. cbn [fst snd].
  cbn [LevelGroupName set_LoadedByThisTrigger]. rewrite HG.
  destruct (LevelConfigAsset A) as [Path|]; [|done].
  destruct (IsEmpty Path); [done|].
  destruct (LoadLevelConfig A Path) as [Config|]; [|done].
  destruct (load_configured_loop d E (GetLevelsInGroup Config (LevelGroupName T))
              (set_LoadedByThisTrigger [] T) Mgr) as (H1 & H2 & _).
  cbn [bVisibleAfterLoad Trigger_WarmUpSeconds set_LoadedByThisTrigger] in *.
  destruct (bool_decide _) eqn:Hlen; [|done].
  apply bool_decide_eq_true_1, nil_length_inv in Hlen. by rewrite Hlen.
Qed.

Lemma trigger_loads_like_the_manager_witness :
  let W := mkWorld (λ n, if bool_decide (n = MakeFName "Cave") then Some 7%positive else None)
                   [] (λ _, "Cave") in
  let E := mkEngine (Some W) (λ _, false) (λ _, false) in
  let Config := mkLevelConfig (λ g, if bool_decide (g = "Caves")
                                    then [mkSoftWorld true "/Game/Maps/Cave";
                                          mkSoftWorld false "/Game/Maps/Pit"]
                                    else []) in
  let A := mkAssets (Some "/Game/Config/Levels") (λ _, Some Config) in
  let T := mkTrigger "Caves" true zero false true true false [] true in
  let Mgr := mkManager [] in
  IsEmpty (LevelGroupName T) = false
  ∧ (LoadConfiguredLevels zero E A (T, Mgr)).2
    = (LoadLevelGroup zero E A "Caves" true zero Mgr).2
  ∧ (LoadLevelGroup zero E A "Caves" true zero Mgr).2
    = [SetShouldBeLoaded 7%positive true; SetShouldBeVisible 7%positive true].
Proof.
  intros W E Config A T Mgr. split; [done|]. split; [|done].
  by apply (trigger_loads_like_the_manager zero E A T Mgr).
Defined.

Lemma LoadConfiguredLevels_settings (d : float) (E : Engine) (A : Assets)
    (TM : Trigger * Manager) :
  let T' := (LoadConfiguredLevels d E A TM).1.1 in
  bOneShot T' = bOneShot TM.1 ∧ bUnloadOnExit T' = bUnloadOnExit TM.1
  ∧ bOnlyPlayerPawn T' = bOnlyPlayerPawn TM.1
  ∧ bHasFired T' = bHasFired TM.1 ∧ CachedManager T' = CachedManager TM.1
  ∧ LevelGroupName T' = LevelGroupName TM.1.
Proof.
  unfold LoadConfiguredLevels. cbn [fst snd].
  destruct (IsEmpty (LevelGroupName _)); [done|].
  destruct (LevelConfigAsset A) as [Path|]; [|done].
  destruct (IsEmpty Path); [done|].
  destruct (LoadLevelConfig A Path) as [Config|]; [|done].
  apply (for_each_state
           (λ st : Trigger * Manager,
              bOneShot st.1 = bOneShot TM.1 ∧ bUnloadOnExit st.1 = bUnloadOnExit TM.1
              ∧ bOnlyPlayerPawn st.1 = bOnlyPlayerPawn TM.1
              ∧ bHasFired st.1 = bHasFired TM.1
              ∧ CachedManager st.1 = CachedManager TM.1
              ∧ LevelGroupName st.1 = LevelGroupName TM.1)); [|done].
  intros L [T1 Mgr1] H. unfold load_configured_level. cbn [fst snd] in *.
  destruct (IsNone (AssetToShortLevelName L)); [done|].
  by destruct (LoadChunkAsync d E _ _ _ Mgr1).
Qed.

Lemma ResolveManager_spec (found : bool) (T : Trigger) :
  let T' := ResolveManager found T in
  CachedManager T' = CachedManager T || found
  ∧ LevelGroupName T' = LevelGroupName T
  ∧ bVisibleAfterLoad T' = bVisibleAfterLoad T
  ∧ Trigger_WarmUpSeconds T' = Trigger_WarmUpSeconds T
  ∧ bOneShot T' = bOneShot T ∧ bUnloadOnExit T' = bUnloadOnExit T
  ∧ bOnlyPlayerPawn T' = bOnlyPlayerPawn T ∧ bHasFired T' = bHasFired T
  ∧ LoadedByThisTrigger T' = LoadedByThisTrigger T.
Proof. unfold ResolveManager. by destruct (CachedManager T) eqn:H. Qed.

(** X10.  What the trigger remembers after it fired.  When a begin-overlap
    gets past the pawn filter and the one-shot check, the manager is found
    and the level config loads, the trigger's list holds exactly the short
    names, other than None, of the levels of its group, whatever it held
    before; no name is listed twice and every listed name is tracked by the
    manager. *)
Theorem trigger_remembers_its_group (d : float) (E : Engine) (A : Assets)
    (found pawn : bool) (T : Trigger) (Mgr : Manager) (Path : FString)
    (Config : UTLDLevelConfig) :
  (bOnlyPlayerPawn T = true → pawn = true) →
  (bOneShot T = true → bHasFired T = false) →
  CachedManager T || found = true →
  IsEmpty (LevelGroupName T) = false →
  LevelConfigAsset A = Some Path → IsEmpty Path = false →
  LoadLevelConfig A Path = Some Config →
  let r := OnBoxBeginOverlap d E A found pawn (T, Mgr) in
  (∀ n, n ∈ LoadedByThisTrigger r.1.1 ↔
        ∃ L, L ∈ GetLevelsInGroup Config (LevelGroupName T)
             ∧ AssetToShortLevelName L = n ∧ IsNone n = false)
  ∧ remembered_ok r.1.
Proof.
  intros Hp Ho Hm HG HA HP HC. unfold OnBoxBeginOverlap. cbn [fst snd].
  assert (bOnlyPlayerPawn T && negb pawn = false) as ->.
  { destruct (bOnlyPlayerPawn T); [by rewrite Hp|done]. }
  assert (bOneShot T && bHasFired T = false) as ->.
  { destruct (bOneShot T); [by rewrite Ho|done]. }
  destruct (ResolveManager_spec found T) as (Hc & Hg & _).
  rewrite Hc, Hm. cbn [negb].
  pose proof (LoadConfiguredLevels_remembered d E A (ResolveManager found T, Mgr))
    as Hrem.
  assert (∀ n, n ∈ LoadedByThisTrigger
                 (LoadConfiguredLevels d E A (ResolveManager found T, Mgr)).1.1 ↔
               ∃ L, L ∈ GetLevelsInGroup Config (LevelGroupName T)
                    ∧ AssetToShortLevelName L = n ∧ IsNone n = false) as Hlist.
  { unfold LoadConfiguredLevels. cbn [fst snd].
    cbn [LevelGroupName set_LoadedByThisTrigger]. rewrite Hg, HG, HA, HP, HC.
    destruct (load_configured_loop d E (GetLevelsInGroup Config (LevelGroupName T))
                (set_LoadedByThisTrigger [] (ResolveManager found T)) Mgr)
      as (_ & _ & H3 & _).
    intros n. rewrite H3. cbn [LoadedByThisTrigger set_LoadedByThisTrigger].
    split; [|by right]. by intros [?%elem_of_nil|?]. }
  destruct (LoadConfiguredLevels d E A (ResolveManager found T, Mgr))
    as [[T1 Mgr1] c1]. cbn [fst snd] in *.
  by destruct (bOneShot T1).
Qed.

Lemma trigger_remembers_its_group_witness :
  let W := mkWorld (λ n, if bool_decide (n = MakeFName "Cave") then Some 7%positive else None)
                   [] (λ _, "Cave") in
  let E := mkEngine (Some W) (λ _, false) (λ _, false) in
  let Config := mkLevelConfig (λ g, if bool_decide (g = "Caves")
                                    then [mkSoftWorld true "/Game/Maps/Cave";
                                          mkSoftWorld false "/Game/Maps/Pit";
                                          mkSoftWorld true "/Game/Old/CAVE";
                                          mkSoftWorld true "/Game/Maps/none"]
                                    else []) in
  let A := mkAssets (Some "/Game/Config/Levels") (λ _, Some Config) in
  let T := mkTrigger "Caves" true zero true true true false [(MakeFName "Hall")] false in
  let Mgr := mkManager [] in
  ((bOnlyPlayerPawn T = true → true = true)
   ∧ (bOneShot T = true → bHasFired T = false)
   ∧ CachedManager T || true = true
   ∧ IsEmpty (LevelGroupName T) = false
   ∧ LevelConfigAsset A = Some "/Game/Config/Levels"
   ∧ IsEmpty "/Game/Config/Levels" = false
   ∧ LoadLevelConfig A "/Game/Config/Levels" = Some Config)
  ∧ remembered_ok (OnBoxBeginOverlap zero E A true true (T, Mgr)).1
  ∧ LoadedByThisTrigger (OnBoxBeginOverlap zero E A true true (T, Mgr)).1.1
    = [(MakeFName "Cave")].
Proof.
  intros W E Config A T Mgr. split; [done|]. split; [|done].
  by apply (trigger_remembers_its_group zero E A true true T Mgr
              "/Game/Config/Levels" Config).
Defined.

(** X11.  The trigger's list stays sound.  If the trigger remembers no name
    twice, never None, and only names the manager tracks, this is still so
    after a begin-overlap, after an end-overlap, and after any frame or any
    call of [LoadChunkAsync], [UnloadChunkAsync] or [SetChunkVisible] on the
    manager. *)
Theorem trigger_list_stays_sound (d : float) (E : Engine) (A : Assets)
    (TM : Trigger * Manager) :
  remembered_ok TM →
  (∀ found pawn, remembered_ok (OnBoxBeginOverlap d E A found pawn TM).1)
  ∧ (∀ found pawn, remembered_ok (OnBoxEndOverlap d E found pawn TM).1)
  ∧ (∀ dt, remembered_ok (TM.1, (Tick E dt TM.2).1))
  ∧ (∀ n b W, remembered_ok (TM.1, (LoadChunkAsync d E n b W TM.2).1))
  ∧ (∀ n, remembered_ok (TM.1, (UnloadChunkAsync d E n TM.2).1))
  ∧ (∀ n b, remembered_ok (TM.1, (SetChunkVisible d E n b TM.2).1)).
Proof.
  intros Hok. destruct TM as [T Mgr].
  assert (∀ Mgr' : Manager,
            (∀ k, is_Some (Find k (ChunkRecords Mgr)) →
                  is_Some (Find k (ChunkRecords Mgr'))) →
            remembered_ok (T, Mgr')) as Hmono.
  { intros Mgr' Hk. destruct Hok as [Hnd Hall]. split; [done|].
    intros n Hn. destruct (Hall n Hn). split; [done|by apply Hk]. }
  split; [|split; [|split; [|split; [|split]]]].
  - intros found pawn. unfold OnBoxBeginOverlap. cbn [fst snd].
    destruct (bOnlyPlayerPawn T && negb pawn); [done|].
    destruct (bOneShot T && bHasFired T); [done|].
    destruct (ResolveManager_spec found T) as (_ & _ & _ & _ & _ & _ & _ & _ & Hl).
    destruct (negb (CachedManager (ResolveManager found T))).
    { destruct Hok as [Hnd Hall]. split; cbn [fst snd]; by rewrite Hl. }
    pose proof (LoadConfiguredLevels_remembered d E A (ResolveManager found T, Mgr))
      as Hrem.
    destruct (LoadConfiguredLevels d E A (ResolveManager found T, Mgr))
      as [[T1 Mgr1] c1]. cbn [fst snd] in *.
    by destruct (bOneShot T1).
  - intros found pawn. unfold OnBoxEndOverlap. cbn [fst snd].
    destruct (bOnlyPlayerPawn T && negb pawn); [done|].
    destruct (bUnloadOnExit T); [|done].
    destruct (if CachedManager (ResolveManager found T) then _ else _)
      as [Mgr1 c1].
    split; cbn; [apply NoDup_nil_2|]. by intros n Hn%elem_of_nil.
  - intros dt. apply Hmono. intros k [Rec Hk]. cbn [snd].
    rewrite StreamingProps.Find_Tick, Hk. by eexists.
  - intros n b W. apply Hmono. intros k Hk.
    by apply LoadChunkAsync_keeps_tracked.
  - intros n. apply Hmono. intros k Hk. cbn [snd]. unfold UnloadChunkAsync.
    destruct (IsNone n); [done|]. rewrite StreamingMore.on_record_Find.
    by destruct (bool_decide (n = k)).
  - intros n b. apply Hmono. intros k Hk. cbn [snd]. unfold SetChunkVisible.
    destruct (IsNone n); [done|]. rewrite StreamingMore.on_record_Find.
    by destruct (bool_decide (n = k)).
Qed.

Lemma trigger_list_stays_sound_witness :
  let W := mkWorld (λ n, if bool_decide (n = MakeFName "Cave") then Some 7%positive else None)
                   [] (λ _, "Cave") in
  let E := mkEngine (Some W) (λ _, true) (λ _, false) in
  let A := mkAssets None (λ _, None) in
  let T := mkTrigger "Caves" true zero false true true false [(MakeFName "Cave")] true in
  let Mgr := mkManager [(MakeFName "Cave", mkRecord (MakeFName "Cave") Visible (Some 7%positive) zero)] in
  remembered_ok (T, Mgr)
  ∧ remembered_ok (T, (UnloadChunkAsync zero E (MakeFName "Cave") Mgr).1).
Proof.
  intros W E A T Mgr.
  assert (remembered_ok (T, Mgr)) as Hok.
  { split; cbn.
    - apply NoDup_singleton.
    - intros n ->%list_elem_of_singleton. by split; [|eexists]. }
  split; [exact Hok|].
  destruct (trigger_list_stays_sound zero E A (T, Mgr) Hok)
    as (_ & _ & _ & _ & HU & _).
  apply (HU (MakeFName "Cave")).
Defined.

(** X12.  Leaving unloads what the trigger loaded.  When an end-overlap gets
    past the pawn filter on a trigger with bUnloadOnExit and the manager is
    found, every remembered name other than None is recorded Unloaded
    afterwards, whatever state it was in; chunks the trigger did not remember
    are left as they were; the list is emptied and the trigger is re-armed. *)
Theorem leaving_unloads_what_was_loaded (d : float) (E : Engine)
    (found pawn : bool) (T : Trigger) (Mgr : Manager) :
  bUnloadOnExit T = true →
  (bOnlyPlayerPawn T = true → pawn = true) →
  CachedManager T || found = true →
  let r := OnBoxEndOverlap d E found pawn (T, Mgr) in
  (∀ n, n ∈ LoadedByThisTrigger T → IsNone n = false →
        state_of n r.1.2 = Some Unloaded)
  ∧ (∀ k, k ∉ LoadedByThisTrigger T →
          Find k (ChunkRecords r.1.2) = Find k (ChunkRecords Mgr))
  ∧ LoadedByThisTrigger r.1.1 = [] ∧ bHasFired r.1.1 = false.
Proof.
  intros Hu Hp Hm. unfold OnBoxEndOverlap. cbn [fst snd].
  assert (bOnlyPlayerPawn T && negb pawn = false) as ->.
  { destruct (bOnlyPlayerPawn T); [by rewrite Hp|done]. }
  rewrite Hu.
  destruct (ResolveManager_spec found T) as (Hc & _ & _ & _ & _ & _ & _ & _ & Hl).
  rewrite Hc, Hm, Hl.
  destruct (unload_all d E (LoadedByThisTrigger T) Mgr) as (H1 & _ & H3 & _).
  by destruct (for_each (UnloadChunkAsync d E) (LoadedByThisTrigger T) Mgr).
Qed.

Lemma leaving_unloads_what_was_loaded_witness :
  let W := mkWorld (λ n, if bool_decide (n = MakeFName "Cave") then Some 7%positive else None)
                   [] (λ _, "Cave") in
  let E := mkEngine (Some W) (λ _, true) (λ _, true) in
  let T := mkTrigger "Caves" true zero true true true true [(MakeFName "CAVE")] false in
  let Mgr := mkManager [(MakeFName "Cave", mkRecord (MakeFName "Cave") Visible (Some 7%positive) zero);
                        (MakeFName "Hall", mkRecord (MakeFName "Hall") Visible (Some 8%positive) zero)] in
  (bUnloadOnExit T = true ∧ (bOnlyPlayerPawn T = true → true = true)
   ∧ CachedManager T || true = true)
  ∧ state_of (MakeFName "cave") (OnBoxEndOverlap zero E true true (T, Mgr)).1.2
    = Some Unloaded
  ∧ state_of (MakeFName "Hall") (OnBoxEndOverlap zero E true true (T, Mgr)).1.2
    = Some Visible
  ∧ bHasFired (OnBoxEndOverlap zero E true true (T, Mgr)).1.1 = false.
Proof.
  intros W E T Mgr. split; [done|]. split; [|done].
  destruct (leaving_unloads_what_was_loaded zero E true true T Mgr
              eq_refl (λ _, eq_refl) eq_refl) as (H1 & _).
  apply H1; [by apply list_elem_of_singleton|done].
Defined.

(** A one-shot trigger that has fired ignores begin-overlaps and the
    initial check. *)
Lemma fired_is_idle (d : float) (T : Trigger) (Mgr : Manager) :
  bOneShot T = true → bHasFired T = true →
  (∀ E A found pawn,
     OnBoxBeginOverlap d E A found pawn (T, Mgr) = ((T, Mgr), []))
  ∧ (∀ E A found has over pc,
       CheckInitialOverlapOnce d E A found has over pc (T, Mgr)
       = ((T, Mgr), [])).
Proof.
  intros H1 H2. split.
  - intros E A found pawn. unfold OnBoxBeginOverlap. cbn [fst snd].
    rewrite H1, H2. by destruct (bOnlyPlayerPawn T && negb pawn).
  - intros E A found has over pc. unfold CheckInitialOverlapOnce.
    cbn [fst snd]. by rewrite H1, H2.
Qed.

(** Over events that do not re-arm it, a fired one-shot trigger stays as it
    is, and the manager sees only the calls of its own methods. *)
Lemma fired_stays_fired (d : float) (T : Trigger) (evs : list TriggerEvent) :
  bOneShot T = true → bHasFired T = true →
  Forall (λ ev, rearms T ev = false) evs →
  ∀ Mgr,
    trigger_run d evs (T, Mgr)
    = trigger_run d (filter (λ ev, is_manager_call ev = true) evs) (T, Mgr)
    ∧ (trigger_run d evs (T, Mgr)).1.1 = T.
Proof.
  intros H1 H2. unfold trigger_run.
  induction 1 as [|ev evs Hev _ IH]; intros Mgr; [done|].
  destruct (fired_is_idle d T Mgr H1 H2) as [Hb Hc].
  destruct ev as [E A f p|E f p|E A f h o pc|m].
  - rewrite filter_cons_False by done. cbn [for_each trigger_step].
    rewrite Hb. destruct (IH Mgr) as [IH1 IH2].
    destruct (for_each (trigger_step d) evs (T, Mgr)) as [[T2 M2] c2] eqn:Hr.
    cbn [fst snd app] in *. by rewrite <- IH1.
  - rewrite filter_cons_False by done. cbn [for_each trigger_step].
    assert (OnBoxEndOverlap d E f p (T, Mgr) = ((T, Mgr), [])) as ->.
    { unfold OnBoxEndOverlap. cbn [fst snd]. cbn [rearms] in Hev.
      destruct (bOnlyPlayerPawn T && negb p); [done|].
      cbn [negb andb] in Hev. by rewrite Hev. }
    destruct (IH Mgr) as [IH1 IH2].
    destruct (for_each (trigger_step d) evs (T, Mgr)) as [[T2 M2] c2] eqn:Hr.
    cbn [fst snd app] in *. by rewrite <- IH1.
  - rewrite filter_cons_False by done. cbn [for_each trigger_step].
    rewrite Hc. destruct (IH Mgr) as [IH1 IH2].
    destruct (for_each (trigger_step d) evs (T, Mgr)) as [[T2 M2] c2] eqn:Hr.
    cbn [fst snd app] in *. by rewrite <- IH1.
  - rewrite filter_cons_True by done. cbn [for_each trigger_step fst snd].
    destruct (m Mgr) as [M1 c1]. destruct (IH M1) as [IH1 IH2].
    rewrite <- IH1.
    by destruct (for_each (trigger_step d) evs (T, M1)) as [[T2 M2] c2].
Qed.

(** X13.  A one-shot trigger fires once for every time it is armed.  After a
    begin-overlap that gets past the pawn filter with the manager found, a
    one-shot trigger is marked as fired, also when its group is empty or the
    config is missing and nothing was loaded.  From then on, over any run of
    begin-overlaps, initial checks, end-overlaps that do not get to line 227
    and calls of the manager from elsewhere, the trigger stays as it is and
    the run is that of the manager's calls alone: a begin-overlap changes
    nothing and sends nothing, whatever the manager and the engine are.  An
    end-overlap that gets past the pawn filter with [bUnloadOnExit] arms the
    trigger again (line 227) and empties its list, and the next begin-overlap
    that gets through runs [LoadConfiguredLevels] once more and marks the
    trigger as fired. *)
Theorem one_shot_fires_once (d : float) (E : Engine) (A : Assets)
    (found pawn : bool) (T : Trigger) (Mgr : Manager) :
  bOneShot T = true →
  (bOnlyPlayerPawn T = true → pawn = true) →
  CachedManager T || found = true →
  let r := OnBoxBeginOverlap d E A found pawn (T, Mgr) in
  bHasFired r.1.1 = true
  ∧ (∀ E' A' found' pawn' Mgr',
       OnBoxBeginOverlap d E' A' found' pawn' (r.1.1, Mgr')
       = ((r.1.1, Mgr'), []))
  ∧ (∀ evs Mgr',
       Forall (λ ev, rearms r.1.1 ev = false) evs →
       trigger_run d evs (r.1.1, Mgr')
       = trigger_run d (filter (λ ev, is_manager_call ev = true) evs)
                     (r.1.1, Mgr')
       ∧ (trigger_run d evs (r.1.1, Mgr')).1.1 = r.1.1)
  ∧ (∀ E' found' pawn' Mgr',
       rearms r.1.1 (Ev_EndOverlap E' found' pawn') = true →
       let r' := OnBoxEndOverlap d E' found' pawn' (r.1.1, Mgr') in
       bHasFired r'.1.1 = false
       ∧ LoadedByThisTrigger r'.1.1 = []
       ∧ ∀ E2 A2 found2 pawn2,
           (bOnlyPlayerPawn T = true → pawn2 = true) →
           CachedManager r'.1.1 || found2 = true →
           OnBoxBeginOverlap d E2 A2 found2 pawn2 r'.1
           = let '(T2, M2, c2) :=
               LoadConfiguredLevels d E2 A2
                 (ResolveManager found2 r'.1.1, r'.1.2) in
             ((set_bHasFired true T2, M2), c2)).
Proof.
  intros Ho Hp Hm.
  assert (∀ p, (bOnlyPlayerPawn T = true → p = true) →
               bOnlyPlayerPawn T && negb p = false) as Hfilter.
  { intros p H. destruct (bOnlyPlayerPawn T); [by rewrite H|done]. }
  destruct (ResolveManager_spec found T)
    as (Hc & _ & _ & _ & Hos & _ & Hpp & _ & _).
  assert (let r := OnBoxBeginOverlap d E A found pawn (T, Mgr) in
          bHasFired r.1.1 = true ∧ bOneShot r.1.1 = true
          ∧ bOnlyPlayerPawn r.1.1 = bOnlyPlayerPawn T) as (Hf & Ho' & Hp').
  { unfold OnBoxBeginOverlap. cbn [fst snd]. rewrite (Hfilter pawn Hp), Ho.
    cbn [andb]. destruct (bHasFired T) eqn:Hf; [done|].
    rewrite Hc, Hm. cbn [negb].
    destruct (LoadConfiguredLevels_settings d E A (ResolveManager found T, Mgr))
      as (Hs1 & _ & Hs3 & _). cbn [fst] in Hs1, Hs3.
    rewrite Hos, Ho in Hs1. rewrite Hpp in Hs3.
    destruct (LoadConfiguredLevels d E A (ResolveManager found T, Mgr))
      as [[T1 Mgr1] c1]. cbn [fst snd] in *. by rewrite Hs1. }
  cbn zeta. split; [done|].
  split. { intros E' A' f' p' Mgr'. by apply fired_is_idle. }
  split. { intros evs Mgr' Hev. by apply fired_stays_fired. }
  intros E' f' p' Mgr' Hre. cbn [rearms] in Hre. rewrite Hp' in Hre.
  apply andb_true_iff in Hre as [Hre1 Hre2].
  apply negb_true_iff in Hre1.
  set (T1 := (OnBoxBeginOverlap d E A found pawn (T, Mgr)).1.1) in *.
  unfold OnBoxEndOverlap. cbn [fst snd]. rewrite Hp', Hre1, Hre2.
  destruct (ResolveManager_spec f' T1)
    as (_ & _ & _ & _ & Hos1 & _ & Hpp1 & _ & _).
  set (T2 := ResolveManager f' T1) in *.
  destruct (if CachedManager T2
            then for_each (UnloadChunkAsync d E') (LoadedByThisTrigger T2) Mgr'
            else (Mgr', [])) as [M3 c3]. cbn [fst snd].
  split; [done|]. split; [done|].
  intros E2 A2 f2 p2 Hp2 Hm2. unfold OnBoxBeginOverlap. cbn [fst snd].
  set (T3 := set_bHasFired false (set_LoadedByThisTrigger [] T2)) in *.
  assert (bOnlyPlayerPawn T3 = bOnlyPlayerPawn T) as -> by (by rewrite <- Hp', <- Hpp1).
  assert (bOneShot T3 = true) as Ho3 by (by rewrite <- Ho', <- Hos1).
  rewrite (Hfilter p2 Hp2), Ho3. cbn [andb].
  change (bHasFired T3) with false. cbv iota.
  destruct (ResolveManager_spec f2 T3) as (Hc3 & _ & _ & _ & Hos3 & _).
  rewrite Hc3, Hm2. cbn [negb].
  destruct (LoadConfiguredLevels_settings d E2 A2 (ResolveManager f2 T3, M3))
    as (Hs & _). cbn [fst] in Hs. rewrite Hos3, Ho3 in Hs.
  destruct (LoadConfiguredLevels d E2 A2 (ResolveManager f2 T3, M3))
    as [[T4 M4] c4]. cbn [fst snd] in *.
  by rewrite Hs.
Qed.

Lemma one_shot_fires_once_witness :
  let W := mkWorld (λ n, if bool_decide (n = MakeFName "Cave")
                         then Some 7%positive else None)
                   [] (λ _, "Cave") in
  let E := mkEngine (Some W) (λ _, false) (λ _, false) in
  let Config := mkLevelConfig (λ g, if bool_decide (g = "Caves")
                                    then [mkSoftWorld true "/Game/Maps/Cave"]
                                    else []) in
  let A := mkAssets (Some "/Game/Config/Levels") (λ _, Some Config) in
  let T := mkTrigger "Caves" true zero true true true false [] false in
  let r := OnBoxBeginOverlap zero E A true true (T, mkManager []) in
  let quiet := [Ev_BeginOverlap E A true true;
                Ev_EndOverlap E true false;
                Ev_CheckInitialOverlapOnce E A true true true true;
                Ev_Manager (Tick E one);
                Ev_Manager (UnloadChunkAsync zero E (MakeFName "cave"));
                Ev_BeginOverlap E A true true] in
  let gone := OnBoxEndOverlap zero E true true r.1 in
  (bOneShot T = true ∧ (bOnlyPlayerPawn T = true → true = true)
   ∧ CachedManager T || true = true
   ∧ Forall (λ ev, rearms r.1.1 ev = false) quiet
   ∧ rearms r.1.1 (Ev_EndOverlap E true true) = true
   ∧ CachedManager gone.1.1 || false = true)
  ∧ r.2 = [SetShouldBeLoaded 7%positive true; SetShouldBeVisible 7%positive true]
  ∧ LoadedByThisTrigger r.1.1 = [MakeFName "Cave"]
  ∧ bHasFired r.1.1 = true
  ∧ (trigger_run zero quiet r.1).1.1 = r.1.1
  ∧ (trigger_run zero quiet r.1).2
    = [SetShouldBeVisible 7%positive false; SetShouldBeLoaded 7%positive false]
  ∧ bHasFired gone.1.1 = false
  ∧ gone.2
    = [SetShouldBeVisible 7%positive false; SetShouldBeLoaded 7%positive false]
  ∧ OnBoxBeginOverlap zero E A false true gone.1
    = (let '(T2, M2, c2) :=
         LoadConfiguredLevels zero E A
           (ResolveManager false gone.1.1, gone.1.2) in
       ((set_bHasFired true T2, M2), c2))
  ∧ (OnBoxBeginOverlap zero E A false true gone.1).2
    = [SetShouldBeLoaded 7%positive true; SetShouldBeVisible 7%positive true].
Proof.
  intros W E Config A T r quiet gone.
  assert (Forall (λ ev, rearms r.1.1 ev = false) quiet) as Hq
    by (repeat constructor).
  split; [by repeat split|].
  destruct (one_shot_fires_once zero E A true true T (mkManager [])
              eq_refl (λ _, eq_refl) eq_refl) as (Hf & _ & Hrun & Hre).
  destruct (Hrun quiet r.1.2 Hq) as [_ Hsame].
  destruct (Hre E true true r.1.2 eq_refl) as (Hg & _ & Hnext).
  split; [done|]. split; [done|]. split; [exact Hf|].
  split; [exact Hsame|]. split; [done|]. split; [exact Hg|].
  split; [done|]. split; [|done].
  exact (Hnext E A false true (λ _, eq_refl) eq_refl).
Defined.

(** *** Groups and start-up on the manager *)

Lemma AssetToShortLevelName_None_or (L : TSoftWorld) :
  AssetToShortLevelName L
  = if negb (PathIsValid L) then NAME_None
    else if IsEmpty (GetLongPackageName L) then NAME_None
    else short_level_name (GetLongPackageName L).
Proof. done. Qed.

Lemma unload_group_level_short (d : float) (E : Engine) (L : TSoftWorld)
    (Mgr : Manager) :
  unload_group_level d E L Mgr
  = UnloadChunkAsync d E (AssetToShortLevelName L) Mgr.
Proof.
  unfold unload_group_level, AssetToShortLevelName.
  destruct (negb (PathIsValid L)); [done|].
  by destruct (IsEmpty (GetLongPackageName L)).
Qed.

Lemma load_group_level_short (d : float) (E : Engine) (b : bool) (W : float)
    (L : TSoftWorld) (Mgr : Manager) :
  load_group_level d E b W L Mgr
  = LoadChunkAsync d E (AssetToShortLevelName L) b W Mgr.
Proof.
  unfold load_group_level, AssetToShortLevelName.
  destruct (negb (PathIsValid L)); [done|].
  by destruct (IsEmpty (GetLongPackageName L)).
Qed.

Lemma for_each_fmap {A B S C : Type} (g : A → B)
    (body : B → S → S * list C) (l : list A) (st : S) :
  for_each (λ a, body (g a)) l st = for_each body (g <$> l) st.
Proof.
  revert st. induction l as [|a l IH]; intros st; [done|].
  rewrite fmap_cons. cbn [for_each]. destruct (body (g a) st) as [st1 c1].
  by rewrite IH.
Qed.

Lemma for_each_ext {A S C : Type} (body body' : A → S → S * list C)
    (l : list A) (st : S) :
  (∀ a st, body a st = body' a st) →
  for_each body l st = for_each body' l st.
Proof.
  intros H. revert st. induction l as [|a l IH]; intros st; [done|].
  cbn [for_each]. rewrite H. destruct (body' a st) as [st1 c1].
  by rewrite IH.
Qed.

(** Loading a list of chunks one after the other. *)
Lemma load_all {A : Type} (d : float) (E : Engine) (name : A → FName)
    (vis : A → bool) (warm : A → float) (l : list A) (Mgr : Manager) :
  let r := for_each (λ a, LoadChunkAsync d E (name a) (vis a) (warm a)) l Mgr in
  (∀ a, a ∈ l → IsNone (name a) = false →
        is_Some (Find (name a) (ChunkRecords r.1)))
  ∧ (∀ k, is_Some (Find k (ChunkRecords Mgr)) →
          is_Some (Find k (ChunkRecords r.1)))
  ∧ (∀ k, k ∉ name <$> l → Find k (ChunkRecords r.1) = Find k (ChunkRecords Mgr))
  ∧ load_before_show E r.2.
Proof.
  revert Mgr. induction l as [|m l IH]; intros Mgr; cbn [for_each].
  - split; [by intros n Hn%elem_of_nil|].
    repeat split; try done. apply StreamingProps.load_before_show_nil.
  - pose proof (LoadChunkAsync_tracks d E (name m) (vis m) (warm m) Mgr) as Hm.
    pose proof (λ k, LoadChunkAsync_keeps_tracked d E (name m) k (vis m) (warm m)
                       Mgr) as Hs.
    assert (∀ k, name m ≠ k →
              Find k (ChunkRecords (LoadChunkAsync d E (name m) (vis m) (warm m)
                                      Mgr).1)
              = Find k (ChunkRecords Mgr)) as Ho.
    { intros k Hk. unfold LoadChunkAsync. destruct (IsNone (name m)); [done|].
      by rewrite StreamingMore.on_record_Find, bool_decide_eq_false_2. }
    pose proof (LoadChunkAsync_load_before_show d E (name m) (vis m) (warm m) Mgr)
      as Hl.
    destruct (LoadChunkAsync d E (name m) (vis m) (warm m) Mgr) as [Mgr1 c1].
    cbn [fst snd] in *. specialize (IH Mgr1).
    destruct (for_each _ l Mgr1) as [Mgr2 c2].
    cbn [fst snd] in *. destruct IH as (IH1 & IH2 & IH3 & IH4).
    split; [|split; [|split]].
    + intros n [->|Hn]%elem_of_cons Hnn; [|by apply IH1].
      apply IH2. by apply Hm.
    + intros k Hk. apply IH2. by apply Hs.
    + intros k Hk. rewrite fmap_cons in Hk.
      apply not_elem_of_cons in Hk as [Hkm Hkl].
      rewrite IH3 by done. apply Ho. congruence.
    + by apply StreamingProps.load_before_show_app.
Qed.

(** X14.  Groups on the manager.  With a level config that loads,
    [UnloadLevelGroup] leaves every level of the group whose short name is
    not None recorded Unloaded, and [LoadLevelGroup] leaves every such level
    tracked; both leave every chunk alone whose name is not the short name of
    a level of the group. *)
Theorem groups_cover_their_levels (d : float) (E : Engine) (A : Assets)
    (GroupName : FString) (Mgr : Manager) (Path : FString)
    (Config : UTLDLevelConfig) :
  LevelConfigAsset A = Some Path → IsEmpty Path = false →
  LoadLevelConfig A Path = Some Config →
  let names := AssetToShortLevelName <$> GetLevelsInGroup Config GroupName in
  let u := UnloadLevelGroup d E A GroupName Mgr in
  (∀ n, n ∈ names → IsNone n = false → state_of n u.1 = Some Unloaded)
  ∧ (∀ k, k ∉ names → Find k (ChunkRecords u.1) = Find k (ChunkRecords Mgr))
  ∧ ∀ b W, let l := LoadLevelGroup d E A GroupName b W Mgr in
      (∀ n, n ∈ names → IsNone n = false → is_Some (Find n (ChunkRecords l.1)))
      ∧ (∀ k, k ∉ names → Find k (ChunkRecords l.1) = Find k (ChunkRecords Mgr)).
Proof.
  intros HA HP HC. unfold UnloadLevelGroup, LoadLevelGroup.
  rewrite HA, HP, HC. cbn zeta.
  split; [|split].
  - rewrite (for_each_ext _ (λ L, UnloadChunkAsync d E (AssetToShortLevelName L)))
      by apply unload_group_level_short.
    rewrite (for_each_fmap AssetToShortLevelName (UnloadChunkAsync d E)).
    apply unload_all.
  - rewrite (for_each_ext _ (λ L, UnloadChunkAsync d E (AssetToShortLevelName L)))
      by apply unload_group_level_short.
    rewrite (for_each_fmap AssetToShortLevelName (UnloadChunkAsync d E)).
    apply unload_all.
  - intros b W.
    destruct (bool_decide _) eqn:Hlen.
    { apply bool_decide_eq_true_1, nil_length_inv in Hlen. rewrite Hlen.
      split; [by intros n Hn%elem_of_nil|done]. }
    rewrite (for_each_ext _ (λ L, LoadChunkAsync d E (AssetToShortLevelName L) b W))
      by (intros; apply load_group_level_short).
    destruct (load_all d E AssetToShortLevelName (λ _, b) (λ _, W)
                (GetLevelsInGroup Config GroupName) Mgr) as (H1 & _ & H3 & _).
    split; [|done].
    intros n (L & -> & HL)%list_elem_of_fmap HN. by apply H1.
Qed.

Lemma groups_cover_their_levels_witness :
  let W := mkWorld (λ n, if bool_decide (n = MakeFName "Cave") then Some 7%positive else None)
                   [] (λ _, "Cave") in
  let E := mkEngine (Some W) (λ _, true) (λ _, true) in
  let Config := mkLevelConfig (λ g, if bool_decide (g = "Caves")
                                    then [mkSoftWorld true "/Game/Maps/CAVE";
                                          mkSoftWorld false "/Game/Maps/Pit";
                                          mkSoftWorld true "/Game/Maps/none"]
                                    else []) in
  let A := mkAssets (Some "/Game/Config/Levels") (λ _, Some Config) in
  let Mgr := mkManager [(MakeFName "Cave", mkRecord (MakeFName "Cave") Visible (Some 7%positive) zero);
                        (MakeFName "Hall", mkRecord (MakeFName "Hall") Visible (Some 8%positive) zero)] in
  (LevelConfigAsset A = Some "/Game/Config/Levels"
   ∧ IsEmpty "/Game/Config/Levels" = false
   ∧ LoadLevelConfig A "/Game/Config/Levels" = Some Config)
  ∧ state_of (MakeFName "cave") (UnloadLevelGroup zero E A "Caves" Mgr).1 = Some Unloaded
  ∧ state_of (MakeFName "Hall") (UnloadLevelGroup zero E A "Caves" Mgr).1 = Some Visible
  ∧ tracked (LoadLevelGroup zero E A "Caves" true zero Mgr).1
    = [MakeFName "Cave"; MakeFName "Hall"].
Proof.
  intros W E Config A Mgr. split; [done|].
  destruct (groups_cover_their_levels zero E A "Caves" Mgr "/Game/Config/Levels"
              Config eq_refl eq_refl eq_refl) as (H1 & H2 & _).
  split; [apply H1; [by left|done]|]. split; [|done].
  unfold state_of. rewrite H2; [done|].
  intros [H|[H|[H|H%elem_of_nil]%elem_of_cons]%elem_of_cons]%elem_of_cons;
    done.
Defined.

(** The starters that [BeginPlay] works on: the rows of the table, without
    the null rows, when a table is configured, the array otherwise. *)
Lemma load_starter_row_rows (d : float) (E : Engine)
    (Rows : list (option FTLDStarterChunk)) (Mgr : Manager) :
  for_each (load_starter_row d E) Rows Mgr
  = for_each (load_starter d E) (omap id Rows) Mgr.
Proof.
  revert Mgr. induction Rows as [|[R|] Rows IH]; intros Mgr; [done| |].
  - change (omap id (Some R :: Rows)) with (R :: omap id Rows).
    cbn [for_each load_starter_row].
    destruct (load_starter d E R Mgr) as [Mgr1 c1]. by rewrite IH.
  - change (omap id (None :: Rows)) with (omap id Rows).
    cbn [for_each load_starter_row]. rewrite IH.
    by destruct (for_each (load_starter d E) (omap id Rows) Mgr).
Qed.

Lemma load_starter_short (d : float) (E : Engine) (S0 : FTLDStarterChunk)
    (Mgr : Manager) :
  load_starter d E S0 Mgr
  = LoadChunkAsync d E (Starter_LevelName S0) (Starter_bVisibleOnLoad S0)
                   (Starter_WarmUpSeconds S0) Mgr.
Proof.
  unfold load_starter, LoadChunkAsync.
  by destruct (IsNone (Starter_LevelName S0)).
Qed.

(** X15.  Start-up.  [BeginPlay] works on the rows of the starter table
    when a table is configured and on the starter array otherwise; when the
    configured table does not load, nothing is loaded, whatever the array
    holds.  Afterwards every starter whose name is not None is tracked, and
    chunks that are no starter are as they were. *)
Theorem BeginPlay_tracks_the_starters (d : float) (E : Engine) (P : StartUp)
    (Mgr : Manager) :
  let r := BeginPlay d E P Mgr in
  let starters := if StarterChunksTable_set P
                  then omap id (default [] (StarterChunksTable_rows P))
                  else StarterChunks P in
  (∀ S0, S0 ∈ starters → IsNone (Starter_LevelName S0) = false →
         is_Some (Find (Starter_LevelName S0) (ChunkRecords r.1)))
  ∧ (∀ k, k ∉ Starter_LevelName <$> starters →
          Find k (ChunkRecords r.1) = Find k (ChunkRecords Mgr))
  ∧ (∀ k, is_Some (Find k (ChunkRecords Mgr)) →
          is_Some (Find k (ChunkRecords r.1)))
  ∧ (StarterChunksTable_set P = true → StarterChunksTable_rows P = None →
     r = (Mgr, [])).
Proof.
  cbn zeta.
  assert (∀ l, for_each (load_starter d E) l Mgr
               = for_each (λ S0, LoadChunkAsync d E (Starter_LevelName S0)
                                   (Starter_bVisibleOnLoad S0)
                                   (Starter_WarmUpSeconds S0)) l Mgr) as Hl.
  { intros l. apply for_each_ext. apply load_starter_short. }
  unfold BeginPlay, LoadStarterChunksFromTable.
  destruct (StarterChunksTable_set P).
  - destruct (StarterChunksTable_rows P) as [Rows|]; cbn [default].
    + rewrite load_starter_row_rows, Hl.
      destruct (load_all d E Starter_LevelName Starter_bVisibleOnLoad
                  Starter_WarmUpSeconds (omap id Rows) Mgr) as (H1 & H2 & H3 & _).
      done.
    + split; [by intros S0 HS%elem_of_nil|]. done.
  - rewrite Hl.
    destruct (load_all d E Starter_LevelName Starter_bVisibleOnLoad
                Starter_WarmUpSeconds (StarterChunks P) Mgr) as (H1 & H2 & H3 & _).
    done.
Qed.

Lemma BeginPlay_tracks_the_starters_witness :
  let E := mkEngine None (λ _, true) (λ _, true) in
  let P := mkStartUp false None
             [mkStarter (MakeFName "Cave") true zero;
              mkStarter (MakeFName "cave") false zero;
              mkStarter (MakeFName "none") true zero;
              mkStarter (MakeFName "Hall") true zero] in
  let Mgr := mkManager [(MakeFName "Pit",
                         mkRecord (MakeFName "Pit") Visible None zero)] in
  let r := BeginPlay zero E P Mgr in
  tracked r.1 = [MakeFName "Pit"; MakeFName "Cave"; MakeFName "Hall"]
  ∧ is_Some (Find (MakeFName "CAVE") (ChunkRecords r.1))
  ∧ Find (MakeFName "PIT") (ChunkRecords r.1)
    = Some (mkRecord (MakeFName "Pit") Visible None zero)
  ∧ BeginPlay zero E (mkStartUp true None (StarterChunks P)) Mgr = (Mgr, []).
Proof.
  intros E P Mgr r. split; [done|].
  destruct (BeginPlay_tracks_the_starters zero E P Mgr) as (H1 & H2 & _).
  split.
  - apply (H1 (mkStarter (MakeFName "cave") false zero)); [|done].
    right. by left.
  - split.
    + rewrite H2; [done|].
      intros [H|[H|[H|[H|H%elem_of_nil]%elem_of_cons]%elem_of_cons]%elem_of_cons]%elem_of_cons;
        done.
    + by apply (proj2 (proj2 (proj2 (BeginPlay_tracks_the_starters zero E
                   (mkStartUp true None (StarterChunks P)) Mgr)))).
Defined.

(** X16.  Load before show, for the operations built on the three methods.
    The requests of [LoadLevelGroup], [UnloadLevelGroup], [BeginPlay] and of
    the trigger's begin- and end-overlap never ask a level to be visible
    unless the engine reports it loaded or the same operation has asked
    before for it to be loaded. *)
Theorem load_before_show_everywhere (d : float) (E : Engine) (A : Assets)
    (Mgr : Manager) :
  (∀ g b W, load_before_show E (LoadLevelGroup d E A g b W Mgr).2)
  ∧ (∀ g, load_before_show E (UnloadLevelGroup d E A g Mgr).2)
  ∧ (∀ P, load_before_show E (BeginPlay d E P Mgr).2)
  ∧ (∀ found pawn T,
       load_before_show E (OnBoxBeginOverlap d E A found pawn (T, Mgr)).2)
  ∧ (∀ found pawn T,
       load_before_show E (OnBoxEndOverlap d E found pawn (T, Mgr)).2).
Proof.
  pose proof (StreamingProps.load_before_show_nil E) as Hnil.
  pose proof (StreamingProps.load_before_show_app E) as Happ.
  split; [|split; [|split; [|split]]].
  - intros g b W. unfold LoadLevelGroup.
    destruct (LevelConfigAsset A) as [Path|]; [|done].
    destruct (IsEmpty Path); [done|].
    destruct (LoadLevelConfig A Path) as [Config|]; [|done].
    destruct (bool_decide _); [done|].
    apply (for_each_calls (load_before_show E)); [done|done|].
    intros L st. rewrite load_group_level_short.
    apply LoadChunkAsync_load_before_show.
  - intros g. unfold UnloadLevelGroup.
    destruct (LevelConfigAsset A) as [Path|]; [|done].
    destruct (IsEmpty Path); [done|].
    destruct (LoadLevelConfig A Path) as [Config|]; [|done].
    apply (for_each_calls (load_before_show E)); [done|done|].
    intros L st. rewrite unload_group_level_short.
    apply UnloadChunkAsync_load_before_show.
  - intros P. unfold BeginPlay, LoadStarterChunksFromTable.
    destruct (StarterChunksTable_set P).
    + destruct (StarterChunksTable_rows P) as [Rows|]; [|done].
      apply (for_each_calls (load_before_show E)); [done|done|].
      intros [R|] st; [|done]. cbn [load_starter_row].
      rewrite load_starter_short. apply LoadChunkAsync_load_before_show.
    + apply (for_each_calls (load_before_show E)); [done|done|].
      intros R st. rewrite load_starter_short.
      apply LoadChunkAsync_load_before_show.
  - intros found pawn T. unfold OnBoxBeginOverlap. cbn [fst snd].
    destruct (bOnlyPlayerPawn T && negb pawn); [done|].
    destruct (bOneShot T && bHasFired T); [done|].
    destruct (negb (CachedManager (ResolveManager found T))); [done|].
    assert (load_before_show E
              (LoadConfiguredLevels d E A (ResolveManager found T, Mgr)).2) as H.
    { unfold LoadConfiguredLevels. cbn [fst snd].
      destruct (IsEmpty (LevelGroupName _)); [done|].
      destruct (LevelConfigAsset A) as [Path|]; [|done].
      destruct (IsEmpty Path); [done|].
      destruct (LoadLevelConfig A Path) as [Config|]; [|done].
      apply (for_each_calls (load_before_show E)); [done|done|].
      intros L [T1 Mgr1]. unfold load_configured_level. cbn [fst snd].
      destruct (IsNone (AssetToShortLevelName L)); [done|].
      pose proof (LoadChunkAsync_load_before_show d E (AssetToShortLevelName L)
                    (bVisibleAfterLoad T1) (Trigger_WarmUpSeconds T1) Mgr1) as Hl.
      by destruct (LoadChunkAsync d E _ _ _ Mgr1). }
    by destruct (LoadConfiguredLevels d E A (ResolveManager found T, Mgr))
      as [[T1 Mgr1] c1].
  - intros found pawn T. unfold OnBoxEndOverlap. cbn [fst snd].
    destruct (bOnlyPlayerPawn T && negb pawn); [done|].
    destruct (bUnloadOnExit T); [|done].
    destruct (CachedManager (ResolveManager found T)); [|done].
    destruct (unload_all d E (LoadedByThisTrigger (ResolveManager found T)) Mgr)
      as (_ & _ & _ & H).
    by destruct (for_each (UnloadChunkAsync d E) _ Mgr).
Qed.

End StreamingGroups.

(** ** Cinematics, further properties *)

Module CinematicMore.
Import Float32 FString Cinematic CinematicExt.

(** *** The manager inside the system *)

Lemma Mgr_apply_calls (calls : list EngineCall) (sys : System) :
  Mgr (apply_calls calls sys) = Mgr sys.
Proof.
  revert sys. unfold apply_calls.
  induction calls as [|c calls IH]; intros sys; [done|].
  cbn [fold_left]. rewrite IH. by destruct c as [[]| | | | |].
Qed.

Lemma Mgr_run (f : Manager → Manager * list EngineCall) (sys : System) :
  Mgr (run f sys) = (f (Mgr sys)).1.
Proof.
  unfold run. destruct (f (Mgr sys)) as [m calls].
  by rewrite Mgr_apply_calls.
Qed.

Lemma run_nothing (f : Manager → Manager * list EngineCall) (sys : System) :
  f (Mgr sys) = (Mgr sys, []) → run f sys = sys.
Proof. unfold run. intros ->. by destruct sys. Qed.

Lemma reachable_reachable_any (sys : System) :
  reachable sys → reachable_any sys.
Proof. induction 1; by constructor. Qed.

(** *** Skipping *)

Lemma StartSequence_skip (E : Engine) (m : Manager) :
  skip_as_requested m → skip_as_requested (StartSequence E m).1.
Proof.
  unfold skip_as_requested, StartSequence. intros H.
  destruct (PendingSequence m) as [Sq|]; [|done].
  destruct (negb (HasWorld E)); [done|].
  by destruct (NewPlayer E Sq) as [[p|] [a|]].
Qed.

Lemma HandleSequenceFinished_skip (E : Engine) (m : Manager) :
  skip_as_requested m → skip_as_requested (HandleSequenceFinished E m).1.
Proof.
  unfold skip_as_requested, HandleSequenceFinished. intros H.
  destruct (negb (HasWorld E)); [done|].
  by destruct (gtb _ zero).
Qed.

Lemma PlaySequence_skip (E : Engine) (Sq : option LevelSequence)
    (bP bS : bool) (Pre Post : float) (m : Manager) :
  skip_as_requested m →
  skip_as_requested (PlaySequence E Sq bP bS Pre Post m).1.
Proof.
  unfold PlaySequence. intros H. destruct Sq as [Sq|]; [|done].
  destruct (negb (HasWorld E)); [done|]. destruct (bIsPlaying m); [done|].
  destruct (gtb Pre zero); [done|]. by apply StartSequence_skip.
Qed.

Lemma SkipCurrentCinematic_skip (E : Engine) (m : Manager) :
  skip_as_requested m → skip_as_requested (SkipCurrentCinematic E m).1.
Proof.
  unfold SkipCurrentCinematic. intros H.
  destruct (ActivePlayer m) as [p|]; [|done].
  destruct (negb (bIsPlaying m) || negb (bAllowSkip m)); [done|].
  pose proof (HandleSequenceFinished_skip E m H) as HH.
  by destruct (HandleSequenceFinished E m).
Qed.

Lemma PlayCinematicByName_PlaySequence (E : Engine) (Name : FString)
    (bP bS : bool) (Pre Post : float) (m : Manager) :
  let r := PlayCinematicByName E Name bP bS Pre Post m in
  (r.1.2, r.2) = (m, [])
  ∨ ∃ Sq, (r.1.2, r.2) = PlaySequence E (Some Sq) bP bS Pre Post m.
Proof.
  unfold PlayCinematicByName. destruct (IsEmpty Name); [by left|].
  destruct (ProjectSettings E) as [Settings|]; [|by left].
  destruct (IsNull _); [by left|].
  destruct (LoadConfig E _) as [Config|]; [|by left].
  destruct (GetSequenceByName E _ Name) as [Sq|]; [|by left].
  right. exists Sq. by destruct (PlaySequence E (Some Sq) bP bS Pre Post m).
Qed.

Lemma Mgr_step (E : Engine) (ev : Event) (sys : System) :
  Mgr (step E ev sys)
  = match ev with
    | Call_PlaySequence Sq bP bS Pre Post =>
        (PlaySequence E Sq bP bS Pre Post (Mgr sys)).1
    | Call_PlayCinematicByName N bP bS Pre Post =>
        (PlayCinematicByName E N bP bS Pre Post (Mgr sys)).1.2
    | Call_SkipCurrentCinematic => (SkipCurrentCinematic E (Mgr sys)).1
    | PreDelayFires => (StartSequence E (Mgr sys)).1
    | PostDelayFires => (finish_playback E (Mgr sys)).1
    | PlayerFinished _ => (HandleSequenceFinished E (Mgr sys)).1
    end.
Proof.
  destruct ev as [Sq bP bS Pre Post|N bP bS Pre Post| | | |p];
    unfold step; rewrite Mgr_run; try done.
  by destruct (PlayCinematicByName E N bP bS Pre Post (Mgr sys)) as [[b m] c].
Qed.

Lemma step_skip (E : Engine) (ev : Event) (sys : System) :
  skip_as_requested (Mgr sys) → skip_as_requested (Mgr (step E ev sys)).
Proof.
  intros H. rewrite Mgr_step.
  destruct ev as [Sq bP bS Pre Post|N bP bS Pre Post| | | |p].
  - by apply PlaySequence_skip.
  - destruct (PlayCinematicByName_PlaySequence E N bP bS Pre Post (Mgr sys))
      as [Heq|[Sq Heq]]; cbn zeta in Heq.
    + by injection Heq as -> _.
    + pose proof (PlaySequence_skip E (Some Sq) bP bS Pre Post (Mgr sys) H)
        as HP.
      rewrite <- Heq in HP. done.
  - by apply SkipCurrentCinematic_skip.
  - by apply StartSequence_skip.
  - done.
  - by apply HandleSequenceFinished_skip.
Qed.

Lemma reachable_any_skip (sys : System) :
  reachable_any sys → skip_as_requested (Mgr sys).
Proof. induction 1; [done|by apply step_skip]. Qed.

(** X17.  When a skip is ignored.  In every state the manager can reach,
    also when the world is missing at times, [SkipCurrentCinematic] changes
    nothing and sends nothing while the request being played was made as not
    skippable.  In every state reached with a world, it changes nothing and
    sends nothing while the pre-delay or the post-delay is pending. *)
Theorem skip_respects_the_request (E : Engine) (sys : System) :
  reachable_any sys →
  (bPendingSkippable (Mgr sys) = false →
   SkipCurrentCinematic E (Mgr sys) = (Mgr sys, []))
  ∧ (reachable sys →
     PreDelayPending sys = true ∨ PostDelayPending sys = true →
     SkipCurrentCinematic E (Mgr sys) = (Mgr sys, [])).
Proof.
  intros HR.
  assert (bAllowSkip (Mgr sys) = false →
          SkipCurrentCinematic E (Mgr sys) = (Mgr sys, [])) as Hoff.
  { intros Hs. unfold SkipCurrentCinematic. rewrite Hs.
    destruct (ActivePlayer (Mgr sys)); [|done]. by rewrite orb_true_r. }
  split.
  - intros Hn. apply Hoff. pose proof (reachable_any_skip sys HR) as H.
    unfold skip_as_requested in H.
    destruct (bAllowSkip (Mgr sys)); [|done]. rewrite H in Hn; done.
  - intros HR' Hp. apply Hoff.
    destruct (CinematicProps.reachable_consistent sys HR') as (_ & H2 & H3 & _).
    destruct Hp as [Hp|Hp]; [by destruct (H2 Hp) as (_ & ? & _)|].
    by destruct (H3 Hp) as (_ & ? & _).
Qed.

Lemma skip_respects_the_request_witness :
  let E := mkEngine true true (λ _, (Some 5%positive, Some 6%positive)) None
                    (λ _, None) (λ _, None) in
  let sys := step E (Call_PlaySequence (Some 1%positive) true false zero zero)
                  idle in
  reachable_any sys
  ∧ bIsPlaying (Mgr sys) = true ∧ Running sys = [5%positive]
  ∧ SkipCurrentCinematic E (Mgr sys) = (Mgr sys, []).
Proof.
  intros E sys.
  assert (reachable_any sys) as HR by (by repeat constructor).
  split; [exact HR|]. split; [done|]. split; [done|].
  by apply (proj1 (skip_respects_the_request E sys HR)).
Defined.

(** X18.  A skip acts at most once.  Whatever the state, a second
    [SkipCurrentCinematic] right after a first changes nothing and sends
    nothing; and when a skip sends anything, the first request stops the
    active player. *)
Theorem skip_acts_once (E E' : Engine) (m : Manager) :
  SkipCurrentCinematic E' (SkipCurrentCinematic E m).1
  = ((SkipCurrentCinematic E m).1, [])
  ∧ ((SkipCurrentCinematic E m).2 = []
     ∨ ∃ p rest, ActivePlayer m = Some p
                 ∧ (SkipCurrentCinematic E m).2 = Stop p :: rest).
Proof.
  unfold SkipCurrentCinematic at 2 3 4 5.
  destruct (ActivePlayer m) as [p|] eqn:HA.
  - destruct (bIsPlaying m) eqn:HP; cbn [negb orb].
    + destruct (bAllowSkip m) eqn:HS; cbn [negb].
      * split; [|right].
        -- unfold HandleSequenceFinished, finish_playback.
           destruct (HasWorld E); cbn [negb].
           ++ destruct (gtb _ zero); cbn [fst]; unfold SkipCurrentCinematic;
                cbn; [by rewrite HA, HP|done].
           ++ cbn [fst]. unfold SkipCurrentCinematic. cbn. by rewrite HA.
        -- destruct (HandleSequenceFinished E m) as [m' calls]. by eexists _, _.
      * split; [|by left]. cbn [fst]. unfold SkipCurrentCinematic.
        by rewrite HA, HP, HS.
    + split; [|by left]. cbn [fst]. unfold SkipCurrentCinematic.
      by rewrite HA, HP.
  - split; [|by left]. cbn [fst]. unfold SkipCurrentCinematic. by rewrite HA.
Qed.

(** *** Playing is never stuck *)

Ltac sys_cases :=
  repeat match goal with
         | |- context [HasWorld ?E] => destruct (HasWorld E); cbn [negb andb]
         | |- context [HasPlayerController ?E] =>
             destruct (HasPlayerController E); cbn [andb]
         | |- context [gtb ?a ?b] => destruct (gtb a b)
         | |- context [NewPlayer ?E ?Sq] =>
             destruct (NewPlayer E Sq) as [[?|] [?|]]
         | |- context [PendingSequence ?m] =>
             is_var m; destruct (PendingSequence m)
         end.

Lemma StartSequence_never_stuck (E : Engine) (sys : System) :
  never_stuck (run (StartSequence E) sys).
Proof.
  destruct sys as [m pre post running].
  unfold never_stuck, will_be_called_back, run, StartSequence, ApplyPause.
  cbn [Mgr]. sys_cases; simpl; intros; try done; right; right; done.
Qed.

Lemma HandleSequenceFinished_never_stuck (E : Engine) (sys : System) :
  never_stuck (run (HandleSequenceFinished E) sys).
Proof.
  destruct sys as [m pre post running].
  unfold never_stuck, will_be_called_back, run, HandleSequenceFinished,
    finish_playback, ApplyPause.
  cbn [Mgr]. sys_cases; simpl; intros; try done; right; left; done.
Qed.

Lemma finish_playback_never_stuck (E : Engine) (sys : System) :
  never_stuck (run (finish_playback E) sys).
Proof.
  destruct sys as [m pre post running].
  unfold never_stuck, run, finish_playback, ApplyPause.
  cbn [Mgr]. sys_cases; simpl; intros; done.
Qed.

Lemma PlaySequence_never_stuck (E : Engine) (Sq : option LevelSequence)
    (bP bS : bool) (Pre Post : float) (sys : System) :
  never_stuck sys → never_stuck (run (PlaySequence E Sq bP bS Pre Post) sys).
Proof.
  intros H. unfold PlaySequence. destruct Sq as [Sq|]; [|by rewrite run_nothing].
  destruct (negb (HasWorld E)); [by rewrite run_nothing|].
  destruct (bIsPlaying (Mgr sys)) eqn:HP.
  { rewrite run_nothing; [done|by rewrite HP]. }
  unfold run at 1. rewrite HP. destruct (gtb Pre zero).
  - unfold never_stuck, will_be_called_back. simpl. by left.
  - apply (StartSequence_never_stuck E
             (mkSystem (mkManager (Some Sq) bP bS (Max zero Post) true false
                          (ActivePlayer (Mgr sys)) (ActiveActor (Mgr sys)))
                       (PreDelayPending sys) (PostDelayPending sys)
                       (Running sys))).
Qed.

Lemma SkipCurrentCinematic_never_stuck (E : Engine) (sys : System) :
  never_stuck sys → never_stuck (run (SkipCurrentCinematic E) sys).
Proof.
  intros H. unfold SkipCurrentCinematic.
  destruct (ActivePlayer (Mgr sys)) as [p|] eqn:HA;
    [|rewrite run_nothing; [done|by rewrite HA]].
  destruct (negb (bIsPlaying (Mgr sys)) || negb (bAllowSkip (Mgr sys))) eqn:Hc.
  { rewrite run_nothing; [done|by rewrite HA, Hc]. }
  pose proof (HandleSequenceFinished_never_stuck E
                (mkSystem (Mgr sys) (PreDelayPending sys) (PostDelayPending sys)
                          (filter (λ q, q ≠ p) (Running sys)))) as HH.
  unfold run in *. rewrite HA, Hc. cbn [Mgr] in HH.
  by destruct (HandleSequenceFinished E (Mgr sys)) as [m' calls].
Qed.

Lemma run_ext (f g : Manager → Manager * list EngineCall) (sys : System) :
  f (Mgr sys) = g (Mgr sys) → run f sys = run g sys.
Proof. unfold run. by intros ->. Qed.

Lemma PlayCinematicByName_run_cases (E : Engine) (N : FString) (bP bS : bool)
    (Pre Post : float) (sys : System) :
  let f := λ m, let '(_, m, calls) := PlayCinematicByName E N bP bS Pre Post m
                in (m, calls) in
  run f sys = sys
  ∨ ∃ Sq, run f sys = run (PlaySequence E (Some Sq) bP bS Pre Post) sys.
Proof.
  cbn zeta.
  destruct (PlayCinematicByName_PlaySequence E N bP bS Pre Post (Mgr sys))
    as [Heq|[Sq Heq]]; cbn zeta in Heq.
  - left. apply run_nothing.
    by destruct (PlayCinematicByName E N bP bS Pre Post (Mgr sys)) as [[b m] c].
  - right. exists Sq. apply run_ext. rewrite <- Heq.
    by destruct (PlayCinematicByName E N bP bS Pre Post (Mgr sys)) as [[b m] c].
Qed.

Lemma step_never_stuck (E : Engine) (ev : Event) (sys : System) :
  never_stuck sys → never_stuck (step E ev sys).
Proof.
  intros H. destruct ev as [Sq bP bS Pre Post|N bP bS Pre Post| | | |p];
    unfold step.
  - by apply PlaySequence_never_stuck.
  - destruct (PlayCinematicByName_run_cases E N bP bS Pre Post sys)
      as [->|[Sq ->]]; [done|by apply PlaySequence_never_stuck].
  - by apply SkipCurrentCinematic_never_stuck.
  - apply StartSequence_never_stuck.
  - apply finish_playback_never_stuck.
  - apply HandleSequenceFinished_never_stuck.
Qed.

(** X19.  Playing is never stuck.  In every state the manager can reach,
    also when the world is missing at times, the manager is playing only
    while the pre-delay timer or the post-delay timer is pending or a player
    it started is running: something is left to call it back. *)
Theorem playing_is_never_stuck (sys : System) :
  reachable_any sys →
  bIsPlaying (Mgr sys) = true →
  PreDelayPending sys = true ∨ PostDelayPending sys = true ∨ Running sys ≠ [].
Proof.
  intros HR. change (never_stuck sys).
  induction HR; [done|by apply step_never_stuck].
Qed.

Lemma playing_is_never_stuck_witness :
  let E := mkEngine true true (λ _, (Some 5%positive, Some 6%positive)) None
                    (λ _, None) (λ _, None) in
  let sys := step E (PlayerFinished 5%positive)
               (step E (Call_PlaySequence (Some 1%positive) true false zero
                                          (of_Z 2)) idle) in
  (reachable_any sys ∧ bIsPlaying (Mgr sys) = true)
  ∧ PostDelayPending sys = true ∧ Running sys = [].
Proof.
  intros E sys.
  assert (reachable_any sys) as HR.
  { apply reach_any_step; [by repeat constructor|]. by left. }
  split; [done|].
  destruct (playing_is_never_stuck sys HR eq_refl) as [H|[H|H]]; done.
Defined.

(** *** Pausing *)

Lemma game_reachable_reachable (g : Game) :
  game_reachable g → reachable (Sys g).
Proof. induction 1; [constructor|]. cbn [game_step Sys]. by constructor. Qed.

Ltac game_cases :=
  unfold paused_while_playing, run; cbn [Sys LastPause Mgr];
  repeat match goal with
         | |- context [gtb ?a ?b] => destruct (gtb a b)
         | |- context [NewPlayer ?E ?Sq] =>
             destruct (NewPlayer E Sq) as [[?|] [?|]]
         | |- context [PendingSequence ?m] =>
             is_var m; destruct (PendingSequence m)
         end;
  simpl; intros; simplify_eq; try done.

Lemma StartSequence_paused (E : Engine) (sys : System) (lp : option bool) :
  HasWorld E = true → HasPlayerController E = true →
  lp ≠ Some true → bIsPlaying (Mgr sys) = true → PreDelayPending sys = false →
  paused_while_playing
    (mkGame (run (StartSequence E) sys)
            (last_pause (StartSequence E (Mgr sys)).2 lp)).
Proof.
  intros HW HPC Hlp HP Hpre. destruct sys as [m pre post running].
  cbn [Mgr PreDelayPending] in *.
  unfold StartSequence, ApplyPause. rewrite HW, HPC. cbn [negb andb].
  game_cases.
Qed.

Lemma finish_playback_paused (E : Engine) (sys : System) (lp : option bool) :
  HasWorld E = true → HasPlayerController E = true →
  paused_while_playing
    (mkGame (run (finish_playback E) sys)
            (last_pause (finish_playback E (Mgr sys)).2 lp)).
Proof.
  intros HW HPC. destruct sys as [m pre post running].
  unfold finish_playback, ApplyPause. rewrite HW, HPC. game_cases.
Qed.

Lemma HandleSequenceFinished_paused (E : Engine) (sys : System)
    (lp : option bool) :
  HasWorld E = true → HasPlayerController E = true →
  paused_while_playing (mkGame sys lp) →
  paused_while_playing
    (mkGame (run (HandleSequenceFinished E) sys)
            (last_pause (HandleSequenceFinished E (Mgr sys)).2 lp)).
Proof.
  intros HW HPC Hinv. destruct sys as [m pre post running].
  unfold paused_while_playing in Hinv. cbn [Sys LastPause Mgr PreDelayPending] in *.
  unfold HandleSequenceFinished, finish_playback, ApplyPause.
  rewrite HW, HPC. cbn [negb andb]. game_cases. by apply Hinv.
Qed.

Lemma PlaySequence_paused (E : Engine) (Sq : option LevelSequence)
    (bP bS : bool) (Pre Post : float) (sys : System) (lp : option bool) :
  HasWorld E = true → HasPlayerController E = true →
  (PreDelayPending sys = true → bIsPlaying (Mgr sys) = true) →
  paused_while_playing (mkGame sys lp) →
  paused_while_playing
    (mkGame (run (PlaySequence E Sq bP bS Pre Post) sys)
            (last_pause (PlaySequence E Sq bP bS Pre Post (Mgr sys)).2 lp)).
Proof.
  intros HW HPC Hc Hinv. unfold PlaySequence.
  destruct Sq as [Sq|]; [|by rewrite run_nothing].
  rewrite HW. cbn [negb].
  destruct (bIsPlaying (Mgr sys)) eqn:HP.
  { rewrite run_nothing; [done|by rewrite HP]. }
  assert (lp ≠ Some true) as Hlp.
  { intros Hl. destruct (Hinv Hl) as [H _]. cbn in H. congruence. }
  assert (PreDelayPending sys = false) as Hpre.
  { destruct (PreDelayPending sys); [|done]. specialize (Hc eq_refl).
    congruence. }
  unfold run at 1. rewrite HP. destruct (gtb Pre zero).
  - unfold paused_while_playing. simpl. done.
  - apply (StartSequence_paused E
             (mkSystem (mkManager (Some Sq) bP bS (Max zero Post) true false
                          (ActivePlayer (Mgr sys)) (ActiveActor (Mgr sys)))
                       (PreDelayPending sys) (PostDelayPending sys)
                       (Running sys)) lp); done.
Qed.

Lemma SkipCurrentCinematic_paused (E : Engine) (sys : System)
    (lp : option bool) :
  HasWorld E = true → HasPlayerController E = true →
  paused_while_playing (mkGame sys lp) →
  paused_while_playing
    (mkGame (run (SkipCurrentCinematic E) sys)
            (last_pause (SkipCurrentCinematic E (Mgr sys)).2 lp)).
Proof.
  intros HW HPC Hinv. unfold SkipCurrentCinematic.
  destruct (ActivePlayer (Mgr sys)) as [p|] eqn:HA;
    [|rewrite run_nothing; [done|by rewrite HA]].
  destruct (negb (bIsPlaying (Mgr sys)) || negb (bAllowSkip (Mgr sys))) eqn:Hc.
  { rewrite run_nothing; [done|by rewrite HA, Hc]. }
  pose proof (HandleSequenceFinished_paused E
                (mkSystem (Mgr sys) (PreDelayPending sys) (PostDelayPending sys)
                          (filter (λ q, q ≠ p) (Running sys))) lp HW HPC) as HH.
  unfold run in *. rewrite HA, Hc. cbn [Mgr] in HH.
  destruct (HandleSequenceFinished E (Mgr sys)) as [m' calls].
  apply HH. by destruct sys.
Qed.

Lemma game_step_paused (E : Engine) (ev : Event) (g : Game) :
  HasWorld E = true → HasPlayerController E = true →
  enabled ev (Sys g) → consistent (Sys g) →
  paused_while_playing g → paused_while_playing (game_step E ev g).
Proof.
  intros HW HPC Hen (_ & Hc2 & _) Hinv. destruct g as [sys lp].
  cbn [Sys] in *. unfold game_step. cbn [Sys LastPause].
  destruct ev as [Sq bP bS Pre Post|N bP bS Pre Post| | | |p];
    unfold step, calls_at.
  - apply PlaySequence_paused; try done. intros Hp. by destruct (Hc2 Hp).
  - pose proof (PlayCinematicByName_PlaySequence E N bP bS Pre Post (Mgr sys))
      as Hcase. cbn zeta in Hcase.
    unfold run at 1.
    pose proof (PlaySequence_paused E) as HPS. unfold run in HPS.
    destruct (PlayCinematicByName E N bP bS Pre Post (Mgr sys)) as [[b m] c].
    cbn [fst snd] in *. destruct Hcase as [Heq|[Sq Heq]].
    + injection Heq as -> ->. by destruct sys.
    + specialize (HPS (Some Sq) bP bS Pre Post sys lp HW HPC).
      rewrite <- Heq in HPS. apply HPS; [|done].
      intros Hp. by destruct (Hc2 Hp).
  - by apply SkipCurrentCinematic_paused.
  - cbn in Hen.
    apply (StartSequence_paused E
             (mkSystem (Mgr sys) false (PostDelayPending sys) (Running sys)) lp);
      try done.
    + intros Hl. destruct (Hinv Hl) as (_ & _ & H). cbn in H. congruence.
    + by destruct (Hc2 Hen).
  - apply (finish_playback_paused E
             (mkSystem (Mgr sys) (PreDelayPending sys) false (Running sys)) lp);
      done.
  - apply (HandleSequenceFinished_paused E
             (mkSystem (Mgr sys) (PreDelayPending sys) (PostDelayPending sys)
                       (filter (λ q, q ≠ p) (Running sys))) lp); done.
Qed.

(** X20.  Paused only while playing.  When every event finds a world and a
    player controller, the last thing the manager told [SetPause] is a pause
    only while it is playing a request that asked for the pause and the
    pre-delay is over; once playback has ended, the last request was to
    resume, or the manager never asked for a pause at all. *)
Theorem paused_only_while_playing (g : Game) :
  game_reachable g →
  (LastPause g = Some true →
   bIsPlaying (Mgr (Sys g)) = true ∧ bPendingPause (Mgr (Sys g)) = true
   ∧ PreDelayPending (Sys g) = false)
  ∧ (bIsPlaying (Mgr (Sys g)) = false → LastPause g ≠ Some true).
Proof.
  intros HR. assert (paused_while_playing g) as H.
  { induction HR; [done|]. apply game_step_paused; try done.
    by apply CinematicProps.reachable_consistent, game_reachable_reachable. }
  split; [exact H|]. intros Hn Hl. destruct (H Hl) as [Hp _]. congruence.
Qed.

Lemma paused_only_while_playing_witness :
  let E := mkEngine true true (λ _, (Some 5%positive, Some 6%positive)) None
                    (λ _, None) (λ _, None) in
  let g1 := game_step E (Call_PlaySequence (Some 1%positive) true true zero zero)
                      (mkGame idle None) in
  let g2 := game_step E Call_SkipCurrentCinematic g1 in
  (game_reachable g1 ∧ game_reachable g2)
  ∧ LastPause g1 = Some true ∧ bIsPlaying (Mgr (Sys g1)) = true
  ∧ bIsPlaying (Mgr (Sys g2)) = false ∧ LastPause g2 = Some false.
Proof.
  intros E g1 g2.
  assert (game_reachable g1) as H1 by (by repeat constructor).
  assert (game_reachable g2) as H2 by (by constructor).
  split; [done|]. split; [done|].
  split; [by apply (proj1 (paused_only_while_playing g1 H1))|].
  done.
Defined.

(** *** The trigger volume *)

Lemma OnBoxBeginOverlap_accepted (E : Engine) (found : bool)
    (Other : OtherActor) (T : Trigger) (M : Manager) :
  accepted found Other T = true →
  let r := OnBoxBeginOverlap E found Other (T, M) in
  let p := PlayCinematicByName E (Trigger_CinematicName T) (bPauseGame T)
             (bSkippable T) (PreDelay T) (PostDelay T) M in
  r.1.2 = p.1.2 ∧ r.2 = p.2
  ∧ r.1.1 = (if bOneShot T then set_bHasFired true (ResolveManager found T)
             else ResolveManager found T).
Proof.
  unfold accepted, OnBoxBeginOverlap, TriggerCinematic. cbn [fst snd].
  intros [[H1 H2]%andb_true_iff H3]%andb_true_iff.
  apply negb_true_iff in H1. rewrite H1, H2. cbn [negb].
  assert (CachedManager (ResolveManager found T) = true) as Hc.
  { unfold ResolveManager. destruct (CachedManager T) eqn:HC; [done|].
    by destruct found. }
  assert (Trigger_CinematicName (ResolveManager found T) = Trigger_CinematicName T
          ∧ bPauseGame (ResolveManager found T) = bPauseGame T
          ∧ bSkippable (ResolveManager found T) = bSkippable T
          ∧ PreDelay (ResolveManager found T) = PreDelay T
          ∧ PostDelay (ResolveManager found T) = PostDelay T
          ∧ bOneShot (ResolveManager found T) = bOneShot T)
    as (-> & -> & -> & -> & -> & ->).
  { unfold ResolveManager. by destruct (CachedManager T). }
  rewrite Hc. cbn [negb].
  destruct (IsEmpty (Trigger_CinematicName T)) eqn:HE.
  - unfold PlayCinematicByName. by rewrite HE.
  - by destruct (PlayCinematicByName E _ _ _ _ _ M) as [[b m] c].
Qed.

Lemma OnBoxBeginOverlap_declined (E : Engine) (found : bool)
    (Other : OtherActor) (T : Trigger) (M : Manager) :
  accepted found Other T = false →
  let r := OnBoxBeginOverlap E found Other (T, M) in
  r.1.2 = M ∧ r.2 = [] ∧ bHasFired r.1.1 = bHasFired T.
Proof.
  unfold accepted, OnBoxBeginOverlap. cbn [fst snd]. intros H.
  destruct (bOneShot T && bHasFired T); [done|].
  destruct (IsValidInstigator T Other); cbn [negb andb] in *; [|done].
  unfold ResolveManager. destruct (CachedManager T); [done|].
  cbn [orb] in H. by rewrite H.
Qed.

(** X21.  The cinematic trigger plays by name or does nothing.  When an
    overlap gets through (the trigger has not fired as a one-shot, the
    instigator is valid, the manager is found), the manager ends in the
    state and sends the requests of [PlayCinematicByName] called with the
    trigger's name and settings; a one-shot trigger is then marked as fired
    whatever [PlayCinematicByName] answered, and ignores every later
    overlap.  When the overlap does not get through, the manager is left as
    it was, nothing is sent and the trigger is not marked. *)
Theorem trigger_plays_by_name (E : Engine) (found : bool) (Other : OtherActor)
    (T : Trigger) (M : Manager) :
  let r := OnBoxBeginOverlap E found Other (T, M) in
  let p := PlayCinematicByName E (Trigger_CinematicName T) (bPauseGame T)
             (bSkippable T) (PreDelay T) (PostDelay T) M in
  (accepted found Other T = true →
   r.1.2 = p.1.2 ∧ r.2 = p.2
   ∧ (bOneShot T = true →
      bHasFired r.1.1 = true
      ∧ ∀ E' found' Other' M',
          OnBoxBeginOverlap E' found' Other' (r.1.1, M') = ((r.1.1, M'), [])))
  ∧ (accepted found Other T = false →
     r.1.2 = M ∧ r.2 = [] ∧ bHasFired r.1.1 = bHasFired T).
Proof.
  cbn zeta. split; [|apply OnBoxBeginOverlap_declined].
  intros Ha. destruct (OnBoxBeginOverlap_accepted E found Other T M Ha)
    as (H1 & H2 & H3).
  split; [done|]. split; [done|]. intros Ho. rewrite H3, Ho.
  split; [done|]. intros E' found' Other' M'.
  unfold OnBoxBeginOverlap. cbn [fst snd bOneShot bHasFired set_bHasFired].
  assert (bOneShot (ResolveManager found T) = true) as ->; [|done].
  unfold ResolveManager. by destruct (CachedManager T).
Qed.

Lemma trigger_plays_by_name_witness :
  let E := mkEngine true true (λ _, (Some 5%positive, Some 6%positive)) None
                    (λ _, None) (λ _, None) in
  let T := mkTrigger "Intro" true false zero zero true true false false in
  let M := Mgr idle in
  accepted true (APawn true) T = true
  ∧ (OnBoxBeginOverlap E true (APawn true) (T, M)).2 = []
  ∧ bIsPlaying (OnBoxBeginOverlap E true (APawn true) (T, M)).1.2 = false
  ∧ bHasFired (OnBoxBeginOverlap E true (APawn true) (T, M)).1.1 = true.
Proof.
  intros E T M. split; [done|].
  destruct (proj1 (trigger_plays_by_name E true (APawn true) T M) eq_refl)
    as (H1 & H2 & H3).
  split; [by rewrite H2|]. split; [by rewrite H1|].
  by destruct (H3 eq_refl).
Defined.

(** X22.  A trigger overlap keeps one cinematic at a time.  Seen from the
    system, an overlap of the cinematic trigger is a call of
    [PlayCinematicByName] or nothing at all: a state reached with a world
    stays such a state after any overlap, so that all that holds of those
    states holds with triggers in the level. *)
Theorem trigger_overlap_is_a_play_request (E : Engine) (found : bool)
    (Other : OtherActor) (T : Trigger) (sys : System) :
  reachable sys → HasWorld E = true →
  (run (overlap E found Other T) sys = sys
   ∨ run (overlap E found Other T) sys
     = step E (Call_PlayCinematicByName (Trigger_CinematicName T) (bPauseGame T)
                 (bSkippable T) (PreDelay T) (PostDelay T)) sys)
  ∧ reachable (run (overlap E found Other T) sys)
  ∧ consistent (run (overlap E found Other T) sys).
Proof.
  intros HR HW.
  assert (run (overlap E found Other T) sys = sys
          ∨ run (overlap E found Other T) sys
            = step E (Call_PlayCinematicByName (Trigger_CinematicName T)
                        (bPauseGame T) (bSkippable T) (PreDelay T) (PostDelay T))
                   sys) as Hcase.
  { destruct (accepted found Other T) eqn:Ha.
    - right. unfold step. apply run_ext. unfold overlap.
      destruct (OnBoxBeginOverlap_accepted E found Other T (Mgr sys) Ha)
        as (H1 & H2 & _). cbn zeta in *. rewrite H1, H2.
      by destruct (PlayCinematicByName E _ _ _ _ _ (Mgr sys)) as [[b m] c].
    - left. apply run_nothing. unfold overlap.
      destruct (OnBoxBeginOverlap_declined E found Other T (Mgr sys) Ha)
        as (H1 & H2 & _). cbn zeta in *. by rewrite H1, H2. }
  split; [exact Hcase|].
  assert (reachable (run (overlap E found Other T) sys)) as HR'.
  { destruct Hcase as [->| ->]; [done|]. by constructor. }
  split; [exact HR'|]. by apply CinematicProps.reachable_consistent.
Qed.

Lemma trigger_overlap_is_a_play_request_witness :
  let E := mkEngine true true (λ _, (Some 5%positive, Some 6%positive))
                    (Some (mkSettings "/Game/Cinematics"))
                    (λ _, Some (mkConfig [mkEntry "Intro" "/Game/Seq/Intro"]))
                    (λ _, Some 9%positive) in
  let T := mkTrigger "intro" true false zero zero true true false false in
  let sys := run (overlap E true (APawn true) T) idle in
  (reachable idle ∧ HasWorld E = true)
  ∧ consistent sys ∧ bIsPlaying (Mgr sys) = true ∧ Running sys = [5%positive].
Proof.
  intros E T sys. split; [by split; [constructor|]|].
  destruct (trigger_overlap_is_a_play_request E true (APawn true) T idle
              reach_idle eq_refl) as (_ & _ & Hc).
  split; [exact Hc|]. done.
Defined.

End CinematicMore.

(** ** Overlays, further properties *)

Module UIMore.
Import Float32 UI.

Lemma CreateOrReuse_spec (E : Engine) (O : ETLDUIOverlay)
    (Cfg : FTLDOverlayConfig) (st : Manager) :
  let r := CreateOrReuse E O Cfg st in
  CurrentConfig r.2 = CurrentConfig st ∧ HUDRoot r.2 = HUDRoot st
  ∧ (∀ O', O' ≠ O → LiveWidgets r.2 !! O' = LiveWidgets st !! O'
                    ∧ Pooled r.2 !! O' = Pooled st !! O')
  ∧ (∀ W, r.1 = Some W → LiveWidgets r.2 !! O = Some W)
  ∧ (r.1 = None → LiveWidgets r.2 = LiveWidgets st).
Proof.
  assert (∀ st0 : Manager,
            let r := create_fresh E O Cfg st0 in
            CurrentConfig r.2 = CurrentConfig st0 ∧ HUDRoot r.2 = HUDRoot st0
            ∧ (∀ O', O' ≠ O → LiveWidgets r.2 !! O' = LiveWidgets st0 !! O'
                              ∧ Pooled r.2 !! O' = Pooled st0 !! O')
            ∧ (∀ W, r.1 = Some W → LiveWidgets r.2 !! O = Some W)
            ∧ (r.1 = None → LiveWidgets r.2 = LiveWidgets st0)) as Hfresh.
  { intros st0. unfold create_fresh.
    destruct (Cfg_WidgetClass Cfg) as [C|]; [|done].
    destruct (HasWorld E); [|done].
    destruct (CreateWidget E C) as [NewW|]; [|done].
    cbn. split; [done|]. split; [done|]. split; [|split; [|done]].
    - intros O' HO. by rewrite lookup_insert_ne.
    - intros W [= ->]. by rewrite lookup_insert_eq. }
  unfold CreateOrReuse.
  destruct (GetOverlay E O st) as [Live|] eqn:HG.
  { apply UIProps.GetOverlay_live in HG as [HL _]. cbn.
    repeat split; try done. by intros W [= <-]. }
  destruct (Pooled st !! O) as [Pool|] eqn:HP; [|apply Hfresh].
  destruct (scan_pool E (length Pool) Pool) as [[P|] Pool'].
  - cbn. split; [done|]. split; [done|]. split; [|split; [|done]].
    + intros O' HO. by rewrite !lookup_insert_ne.
    + intros W [= ->]. by rewrite lookup_insert_eq.
  - specialize (Hfresh (set_Pooled (<[O:=Pool']> (Pooled st)) st)).
    cbn zeta in Hfresh. destruct Hfresh as (H1 & H2 & H3 & H4 & H5).
    split; [done|]. split; [done|]. split; [|done].
    intros O' HO. destruct (H3 O' HO) as [-> ->]. cbn.
    by rewrite lookup_insert_ne.
Qed.

Lemma CacheHUDIfPresent_spec (E : Engine) (st : Manager) :
  CurrentConfig (CacheHUDIfPresent E st) = CurrentConfig st
  ∧ LiveWidgets (CacheHUDIfPresent E st) = LiveWidgets st
  ∧ Pooled (CacheHUDIfPresent E st) = Pooled st.
Proof. unfold CacheHUDIfPresent. by destruct (GetOverlay E HUD st). Qed.

Lemma ShowOverlay_live (E : Engine) (O : ETLDUIOverlay) (st : Manager)
    (W : Widget) :
  (ShowOverlay E O st).1.1 = Some W →
  LiveWidgets (ShowOverlay E O st).1.2 !! O = Some W
  ∧ CurrentConfig (ShowOverlay E O st).1.2 = CurrentConfig st.
Proof.
  unfold ShowOverlay.
  destruct (CurrentConfig st) as [Config|] eqn:HC; [|done].
  destruct (Overlays Config !! O) as [Cfg|]; [|done].
  destruct (CreateOrReuse_spec E O Cfg st) as (H1 & _ & _ & H4 & _).
  destruct (CreateOrReuse E O Cfg st) as [[W'|] st1]; cbn [fst snd] in *;
    [|done].
  intros [= ->].
  destruct (CacheHUDIfPresent_spec E st1) as (HC1 & HL1 & _).
  destruct (bool_decide (O = HUD)).
  - rewrite HC1, HL1. split; [by apply H4|congruence].
  - split; [by apply H4|congruence].
Qed.

(** X23.  What [ShowOverlay] leaves behind.  When it returns a widget, that
    widget is the live widget of the overlay and the last request makes it
    visible; when it returns null, nothing was sent and no live widget has
    changed.  In both cases the live widgets and pools of all other overlays
    and the config are as before. *)
Theorem ShowOverlay_result (E : Engine) (O : ETLDUIOverlay) (st : Manager) :
  let r := ShowOverlay E O st in
  (∀ W, r.1.1 = Some W →
        LiveWidgets r.1.2 !! O = Some W
        ∧ last r.2 = Some (SetVisibility W SelfHitTestInvisible))
  ∧ (r.1.1 = None → r.2 = [] ∧ LiveWidgets r.1.2 = LiveWidgets st)
  ∧ (∀ O', O' ≠ O → LiveWidgets r.1.2 !! O' = LiveWidgets st !! O'
                    ∧ Pooled r.1.2 !! O' = Pooled st !! O')
  ∧ CurrentConfig r.1.2 = CurrentConfig st.
Proof.
  unfold ShowOverlay.
  destruct (CurrentConfig st) as [Config|] eqn:HC; [|done].
  destruct (Overlays Config !! O) as [Cfg|]; [|done].
  destruct (CreateOrReuse_spec E O Cfg st) as (H1 & H2 & H3 & H4 & H5).
  destruct (CreateOrReuse E O Cfg st) as [[W|] st1]; cbn [fst snd] in *.
  - assert (CurrentConfig (if bool_decide (O = HUD)
                           then CacheHUDIfPresent E st1 else st1)
            = CurrentConfig st1
            ∧ LiveWidgets (if bool_decide (O = HUD)
                           then CacheHUDIfPresent E st1 else st1)
              = LiveWidgets st1
            ∧ Pooled (if bool_decide (O = HUD)
                      then CacheHUDIfPresent E st1 else st1)
              = Pooled st1) as (-> & -> & ->).
    { destruct (bool_decide (O = HUD)); [apply CacheHUDIfPresent_spec|done]. }
    split; [|split; [done|split; [done|congruence]]].
    intros W' [= <-]. split; [by apply H4|].
    unfold PlayShowTransition. by rewrite !app_assoc, last_snoc.
  - split; [done|]. split; [by split; [|apply H5]|].
    split; [done|congruence].
Qed.

(** X24.  A persistent overlay gets its widget back.  When [ShowOverlay]
    has returned a widget for an overlay whose config marks it persistent
    and [HideOverlay] then finds the widget still valid, the overlay has no
    live widget, the widget is the last of the overlay's pool, and the next
    [ShowOverlay] returns the same widget as long as it is valid, without
    asking the engine for a new one. *)
Theorem persistent_overlay_is_reused (E1 E2 E3 : Engine) (O : ETLDUIOverlay)
    (st : Manager) (Config : UTLDUiConfig) (Cfg : FTLDOverlayConfig)
    (W : Widget) :
  CurrentConfig st = Some Config → Overlays Config !! O = Some Cfg →
  Cfg_bPersistent Cfg = true →
  (ShowOverlay E1 O st).1.1 = Some W →
  IsValid E2 W = true → IsValid E3 W = true →
  let st1 := (ShowOverlay E1 O st).1.2 in
  let st2 := (HideOverlay E2 O st1).1 in
  LiveWidgets st2 !! O = None
  ∧ (∃ Pool, Pooled st2 !! O = Some (Pool ++ [W]))
  ∧ (ShowOverlay E3 O st2).1.1 = Some W
  ∧ LiveWidgets (ShowOverlay E3 O st2).1.2 !! O = Some W.
Proof.
  intros HC HO HP HS HV2 HV3.
  destruct (ShowOverlay_live E1 O st W HS) as [HL H4]. cbn zeta.
  set (st1 := (ShowOverlay E1 O st).1.2) in *.
  assert (HideOverlay E2 O st1
          = ((ReturnToPoolOrDiscard O (Some W) true st1).1,
             (if bool_decide (Cfg_InputMode Cfg = GameOnly) then []
              else ApplyInputMode E2 GameOnly)
             ++ (if bool_decide (O = Pause) && HasWorld E2
                 then [SetGamePaused false] else [])
             ++ (ReturnToPoolOrDiscard O (Some W) true st1).2)) as HH.
  { unfold HideOverlay, GetOverlay. rewrite H4, HC, HO, HL, HV2, HP. done. }
  rewrite HH. cbn [fst]. unfold ReturnToPoolOrDiscard. cbn [fst].
  set (st2 := set_Pooled _ _).
  assert (LiveWidgets st2 !! O = None) as HL2.
  { unfold st2. cbn. by rewrite lookup_delete_eq. }
  assert (Pooled st2 !! O = Some (default [] (Pooled st1 !! O) ++ [W])) as HP2.
  { unfold st2. cbn. by rewrite lookup_insert_eq. }
  assert (CurrentConfig st2 = Some Config) as HC2.
  { unfold st2. cbn. by rewrite H4. }
  split; [done|]. split; [by eexists|].
  assert ((ShowOverlay E3 O st2).1.1 = Some W) as HS3.
  { unfold ShowOverlay. rewrite HC2, HO. unfold CreateOrReuse, GetOverlay.
    rewrite HL2, HP2, UIProps.scan_pool_last, HV3. done. }
  split; [done|].
  by destruct (ShowOverlay_live E3 O st2 W HS3).
Qed.

Lemma persistent_overlay_is_reused_witness :
  let Cfg := mkOverlayConfig (Some 3%positive) 10 UIOnly 0 0 true in
  let Config := mkUiConfig {[ Pause := Cfg ]} in
  let E := mkEngine true true (λ _, true) (λ _, Some 41%positive) (λ _, false)
                    (λ _, true) (λ _, false) (λ _, false)
                    (mkChannelPayload EmptyString None false false zero) in
  let E3 := mkEngine true true (λ _, true) (λ _, Some 42%positive) (λ _, false)
                     (λ _, true) (λ _, false) (λ _, false)
                     (mkChannelPayload EmptyString None false false zero) in
  let st := SetConfig (Some Config) fresh in
  (CurrentConfig st = Some Config ∧ Overlays Config !! Pause = Some Cfg
   ∧ Cfg_bPersistent Cfg = true
   ∧ (ShowOverlay E Pause st).1.1 = Some 41%positive
   ∧ IsValid E 41%positive = true ∧ IsValid E3 41%positive = true)
  ∧ (ShowOverlay E3 Pause
       (HideOverlay E Pause (ShowOverlay E Pause st).1.2).1).1.1
    = Some 41%positive.
Proof.
  intros Cfg Config E E3 st.
  assert (Overlays Config !! Pause = Some Cfg) as HO by done.
  assert ((ShowOverlay E Pause st).1.1 = Some 41%positive) as HS.
  { unfold ShowOverlay. cbn [CurrentConfig st SetConfig]. by rewrite HO. }
  split; [done|].
  by destruct (persistent_overlay_is_reused E E E3 Pause st Config Cfg
                 41%positive eq_refl HO eq_refl HS eq_refl eq_refl)
    as (_ & _ & H & _).
Defined.

(** X25.  What [HideOverlay] does.  Either it changes nothing and sends
    nothing, or the overlay had a valid live widget: then the overlay has no
    live widget afterwards, the last two requests take that widget off the
    screen and collapse it, hiding the pause overlay with a world unpauses
    the game, and the pool of the overlay is as before unless the config
    marks the overlay persistent.  The other overlays are left alone, and
    hiding again changes nothing. *)
Theorem HideOverlay_result (E : Engine) (O : ETLDUIOverlay) (st : Manager) :
  let r := HideOverlay E O st in
  (r = (st, [])
   ∨ ∃ W Config Cfg pre,
       GetOverlay E O st = Some W ∧ CurrentConfig st = Some Config
       ∧ Overlays Config !! O = Some Cfg
       ∧ LiveWidgets r.1 !! O = None
       ∧ r.2 = pre ++ [RemoveFromParent W; SetVisibility W Collapsed]
       ∧ (O = Pause → HasWorld E = true → SetGamePaused false ∈ pre)
       ∧ (Cfg_bPersistent Cfg = false → Pooled r.1 = Pooled st))
  ∧ (∀ O', O' ≠ O → LiveWidgets r.1 !! O' = LiveWidgets st !! O'
                    ∧ Pooled r.1 !! O' = Pooled st !! O')
  ∧ HideOverlay E O r.1 = (r.1, []).
Proof.
  cbn zeta.
  assert (HideOverlay E O st = (st, [])
          ∨ ∃ W Config Cfg,
              GetOverlay E O st = Some W ∧ CurrentConfig st = Some Config
              ∧ Overlays Config !! O = Some Cfg
              ∧ HideOverlay E O st
                = ((ReturnToPoolOrDiscard O (Some W) (Cfg_bPersistent Cfg) st).1,
                   ((if bool_decide (Cfg_InputMode Cfg = GameOnly) then []
                     else ApplyInputMode E GameOnly)
                    ++ (if bool_decide (O = Pause) && HasWorld E
                        then [SetGamePaused false] else []))
                   ++ [RemoveFromParent W; SetVisibility W Collapsed]))
    as [Hidle|(W & Config & Cfg & HG & HC & HO & Heq)].
  { unfold HideOverlay.
    destruct (CurrentConfig st) as [Config|] eqn:HC; [|by left].
    destruct (Overlays Config !! O) as [Cfg|] eqn:HO; [|by left].
    destruct (GetOverlay E O st) as [W|] eqn:HG; [|by left].
    right. exists W, Config, Cfg. repeat (split; [done|]).
    unfold ReturnToPoolOrDiscard. cbn [fst snd]. by rewrite !app_assoc. }
  { rewrite Hidle. cbn [fst snd]. split; [by left|]. by split. }
  rewrite Heq. cbn [fst snd]. unfold ReturnToPoolOrDiscard. cbn [fst snd].
  set (st1 := if Cfg_bPersistent Cfg then _ else _).
  assert (LiveWidgets st1 !! O = None) as HL.
  { unfold st1. destruct (Cfg_bPersistent Cfg); cbn; by rewrite lookup_delete_eq. }
  split; [right|split].
  - exists W, Config, Cfg. eexists. split; [done|]. split; [done|].
    split; [done|]. split; [done|]. split; [done|].
    split.
    + intros -> HW. rewrite HW. apply elem_of_app. right. by left.
    + intros HP. unfold st1. by rewrite HP.
  - intros O' HO'. unfold st1. destruct (Cfg_bPersistent Cfg); cbn.
    + by rewrite lookup_delete_ne, lookup_insert_ne by congruence.
    + by rewrite lookup_delete_ne by congruence.
  - unfold HideOverlay, GetOverlay. rewrite HL.
    destruct (CurrentConfig st1) as [Config1|]; [|done].
    by destruct (Overlays Config1 !! O).
Qed.

End UIMore.

(** ** Audio, further properties *)

Module AudioMore.
Import Float32 Audio AudioExt.

(** *** The music components *)

Lemma registered_app (a b : list EngineCall) :
  registered (a ++ b) = registered a ++ registered b.
Proof. unfold registered. apply omap_app. Qed.

Lemma EnsureMusicComponents_spec (st : Manager) :
  let r := EnsureMusicComponents st in
  (∃ a i, ActiveMusic r.1 = Some a ∧ InactiveMusic r.1 = Some i)
  ∧ (∀ a, ActiveMusic st = Some a → ActiveMusic r.1 = Some a)
  ∧ (∀ i, InactiveMusic st = Some i → InactiveMusic r.1 = Some i)
  ∧ music_components r.1 ≡ₚ music_components st ++ registered r.2
  ∧ (∀ c, c ∈ r.2 → (∃ AC, c = RegisterComponentWithWorld AC)
                    ∨ ∃ AC C, c = SetSoundClassOverride AC C)
  ∧ Catalog r.1 = Catalog st ∧ CurrentMusicTag r.1 = CurrentMusicTag st
  ∧ CurrentState r.1 = CurrentState st ∧ MusicAC r.1 = MusicAC st
  ∧ SFXPool r.1 = SFXPool st ∧ PoolIndex r.1 = PoolIndex st.
Proof.
  destruct st as [C T S_ MS A I M MC DM P PI NO].
  unfold EnsureMusicComponents, NewAudioComponent, class_override,
    music_components.
  destruct A as [a|], I as [i|], MC as [mc|], M as [m|]; cbn;
    (split; [by eexists _, _|]); (split; [done|]); (split; [done|]);
    (split; [try done; by solve_Permutation|]);
    (split; [|done]); intros c Hc;
    repeat match goal with
           | H : _ ∈ [] |- _ => by apply elem_of_nil in H
           | H : _ ∈ _ :: _ |- _ => apply elem_of_cons in H as [->|H]
           end;
    first [by left; eexists | by right; eexists _, _].
Qed.

Lemma CrossfadeTo_spec (E : Engine) (Track : Sound) (fo fi v : float)
    (st : Manager) :
  let r := CrossfadeTo E Track fo fi v st in
  let e := EnsureMusicComponents st in
  ActiveMusic r.1 = InactiveMusic e.1 ∧ InactiveMusic r.1 = ActiveMusic e.1
  ∧ r.2 = e.2
          ++ match ActiveMusic e.1 with
             | Some o => if IsPlaying E o then [FadeOut o fo zero] else []
             | None => []
             end
          ++ match InactiveMusic e.1 with
             | Some n => [SetSound n (Some Track); FadeIn n fi v]
             | None => []
             end
  ∧ Catalog r.1 = Catalog e.1 ∧ CurrentMusicTag r.1 = CurrentMusicTag e.1
  ∧ CurrentState r.1 = CurrentState e.1 ∧ MusicAC r.1 = MusicAC e.1
  ∧ SFXPool r.1 = SFXPool e.1 ∧ PoolIndex r.1 = PoolIndex e.1.
Proof.
  unfold CrossfadeTo. by destruct (EnsureMusicComponents st) as [st1 c0].
Qed.

Lemma EnsureMusicComponents_again (st : Manager) :
  EnsureMusicComponents (EnsureMusicComponents st).1
  = ((EnsureMusicComponents st).1, []).
Proof.
  destruct st as [C T S_ MS A I M MC DM P PI NO].
  unfold EnsureMusicComponents, NewAudioComponent.
  by destruct A as [a|], I as [i|].
Qed.

(** X26.  The new track goes to the component that ends up active.  When
    [PlayMusicByTag] is given a tag other than the current one that the
    catalog resolves to a track, then afterwards both crossfade components
    exist, the tag is the current tag, and the requests end with that track
    being set on the active component and faded in.  Before that, only new
    components are registered and given their sound class, and at most the
    component that ends up inactive is faded out, when it was playing. *)
Theorem new_track_on_the_active_component (E : Engine) (MusicTag : FGameplayTag)
    (FadeTime : float) (Track : Sound) (st : Manager) :
  MusicTag ≠ CurrentMusicTag st →
  ResolveMusicByTag st MusicTag = Some Track →
  let r := PlayMusicByTag E MusicTag FadeTime st in
  CurrentMusicTag r.1 = MusicTag
  ∧ ∃ a i pre,
      ActiveMusic r.1 = Some a ∧ InactiveMusic r.1 = Some i
      ∧ r.2 = pre ++ [SetSound a (Some Track); FadeIn a FadeTime one]
      ∧ ∀ c, c ∈ pre →
             (∃ AC, c = RegisterComponentWithWorld AC)
             ∨ (∃ AC C, c = SetSoundClassOverride AC C)
             ∨ (c = FadeOut i FadeTime zero ∧ IsPlaying E i = true).
Proof.
  intros Hne HR. unfold PlayMusicByTag.
  rewrite bool_decide_eq_false_2 by done. rewrite HR.
  destruct (EnsureMusicComponents_spec st)
    as ((a & i & Ha & Hi) & _ & _ & _ & Hc & _).
  pose proof (CrossfadeTo_spec E Track FadeTime FadeTime one
                (EnsureMusicComponents st).1) as HX.
  cbn zeta in HX. rewrite EnsureMusicComponents_again in HX. cbn [fst snd] in HX.
  destruct (EnsureMusicComponents st) as [st1 c0]. cbn [fst snd] in *.
  rewrite Ha, Hi in *. cbn [is_playing].
  destruct (negb (IsPlaying E a) && negb (IsPlaying E i)) eqn:Hp.
  - cbn [fst snd]. split; [done|]. exists a, i, c0. cbn.
    split; [done|]. split; [done|]. split; [done|].
    intros c Hin. destruct (Hc c Hin) as [?|?]; [by left|by right; left].
  - destruct (CrossfadeTo E Track FadeTime FadeTime one st1) as [st2 c1].
    cbn [fst snd] in *. destruct HX as (HA & HI & -> & _).
    split; [done|]. cbn.
    exists i, a, (c0 ++ if IsPlaying E a then [FadeOut a FadeTime zero] else []).
    split; [done|]. split; [done|]. split.
    + rewrite <- !app_assoc. cbn. by destruct (IsPlaying E a).
    + intros c [Hin|Hin]%elem_of_app.
      * destruct (Hc c Hin) as [?|?]; [by left|by right; left].
      * destruct (IsPlaying E a) eqn:Hpa; [|by apply elem_of_nil in Hin].
        apply list_elem_of_singleton in Hin. right; right. done.
Qed.

Lemma new_track_on_the_active_component_witness :
  let E := mkEngine (λ c, bool_decide (c = 1%positive)) true None in
  let C := mkCatalog {[ "Music.Forest" := Some 70%positive ]} ∅ in
  let st := mkManager (Some C) "Music.Town" 0%N ∅ (Some 1%positive) None None
                      None None [] 0 2%positive in
  ("Music.Forest" ≠ CurrentMusicTag st
   ∧ ResolveMusicByTag st "Music.Forest" = Some 70%positive)
  ∧ CurrentMusicTag (PlayMusicByTag E "Music.Forest" one st).1 = "Music.Forest"
  ∧ ActiveMusic (PlayMusicByTag E "Music.Forest" one st).1 = Some 2%positive
  ∧ InactiveMusic (PlayMusicByTag E "Music.Forest" one st).1 = Some 1%positive.
Proof.
  intros E C st.
  assert (ResolveMusicByTag st "Music.Forest" = Some 70%positive) as HR by done.
  split; [done|].
  destruct (new_track_on_the_active_component E "Music.Forest" one 70%positive
              st ltac:(done) HR) as (HT & _).
  split; [exact HT|]. done.
Defined.

(** *** Music by prefix *)

Lemma PlayMusicByTag_start (E : Engine) (MusicTag : FGameplayTag)
    (FadeTime : float) (Track : Sound) (st : Manager) :
  MusicTag ≠ CurrentMusicTag st →
  ResolveMusicByTag st MusicTag = Some Track →
  PlayMusicByTag E MusicTag FadeTime st
  = (set_CurrentMusicTag MusicTag (start_or_crossfade E Track FadeTime st).1,
     (start_or_crossfade E Track FadeTime st).2).
Proof.
  intros Hne HR. unfold PlayMusicByTag, start_or_crossfade.
  rewrite bool_decide_eq_false_2 by done. rewrite HR.
  destruct (EnsureMusicComponents st) as [st1 c0].
  by destruct (if negb (is_playing E (ActiveMusic st1))
                  && negb (is_playing E (InactiveMusic st1))
               then _ else _) as [st2 c1].
Qed.

Lemma start_or_crossfade_tag (E : Engine) (Track : Sound) (FadeTime : float)
    (st : Manager) :
  CurrentMusicTag (start_or_crossfade E Track FadeTime st).1
  = CurrentMusicTag st.
Proof.
  unfold start_or_crossfade.
  destruct (EnsureMusicComponents_spec st)
    as (_ & _ & _ & _ & _ & _ & HT & _).
  pose proof (CrossfadeTo_spec E Track FadeTime FadeTime one
                (EnsureMusicComponents st).1) as HX.
  cbn zeta in HX. rewrite EnsureMusicComponents_again in HX. cbn [fst snd] in HX.
  destruct (EnsureMusicComponents st) as [st1 c0]. cbn [fst snd] in *.
  destruct (negb (is_playing E (ActiveMusic st1))
            && negb (is_playing E (InactiveMusic st1))); [done|].
  destruct (CrossfadeTo E Track FadeTime FadeTime one st1) as [st2 c1].
  cbn [fst snd] in *. destruct HX as (_ & _ & _ & _ & -> & _). done.
Qed.

Lemma index_of_Ok {A : Type} (l : list A) (i : Z) (x : A) :
  index_of l i = Ok x → x ∈ l.
Proof.
  unfold index_of. destruct (0 <=? i)%Z; [|done].
  destruct (l !! Z.to_nat i) as [y|] eqn:Hy; [|done].
  intros [= ->]. by eapply list_elem_of_lookup_2.
Qed.

Lemma int32_le (n : nat) (i : Z) :
  (0 ≤ i < int32 (Z.of_nat n))%Z → (Z.to_nat i < n)%nat.
Proof.
  unfold int32. intros [H0 Hi].
  pose proof (Z.mod_le (Z.of_nat n + 2 ^ 31) (2 ^ 32)%Z) as Hle.
  assert (Z.to_nat i < n)%nat; [|done]. lia.
Qed.

(** X27.  Music by prefix.  Without a random pick, [ResolveMusicByPrefix]
    never indexes out of range.  When [PlayMusicByPrefix] returns, the
    current music tag is as before; and either nothing changed and nothing
    was sent, or the track played is the catalog's track of a child tag of
    the prefix, and the state and the requests are those of [PlayMusicByTag]
    for any other tag with that track, the recorded tag apart. *)
Theorem prefix_plays_like_tag (E : Engine) (H : Host) (Prefix : FGameplayTag)
    (FadeTime : float) (PickIndex : Z) (bRandom : bool) (st : Manager) :
  (bRandom = false →
   ∃ r, PlayMusicByPrefix E H Prefix FadeTime PickIndex bRandom st = Ok r)
  ∧ ∀ r, PlayMusicByPrefix E H Prefix FadeTime PickIndex bRandom st = Ok r →
      CurrentMusicTag r.1 = CurrentMusicTag st
      ∧ (r = (st, [])
         ∨ ∃ C ChildTag Track,
             Catalog st = Some C
             ∧ ChildTag ∈ RequestGameplayTagChildren H Prefix
             ∧ MusicByTag C !! ChildTag = Some (Some Track)
             ∧ ∀ MusicTag,
                 MusicTag ≠ CurrentMusicTag st →
                 ResolveMusicByTag st MusicTag = Some Track →
                 PlayMusicByTag E MusicTag FadeTime st
                 = (set_CurrentMusicTag MusicTag r.1, r.2)).
Proof.
  split.
  - intros ->. unfold PlayMusicByPrefix, ResolveMusicByPrefix.
    destruct (Catalog st) as [C|]; [|by eexists].
    set (Cands := Candidates H C Prefix).
    destruct (bool_decide _) eqn:HN; [by eexists|].
    apply bool_decide_eq_false_1 in HN.
    assert (∀ i, (Z.to_nat i < length Cands)%nat → (0 ≤ i)%Z →
                 ∃ x, index_of Cands i = Ok x) as Hidx.
    { intros i Hi H0. unfold index_of.
      destruct (0 <=? i)%Z eqn:Hle; [|lia].
      destruct (lookup_lt_is_Some_2 _ _ Hi) as [x ->]. by eexists. }
    destruct ((0 <=? PickIndex)%Z
              && ((0 <=? PickIndex)%Z
                  && (PickIndex <? int32 (Z.of_nat (length Cands)))%Z)) eqn:HP.
    + apply andb_true_iff in HP as [H0 [_ H1]%andb_true_iff].
      destruct (Hidx PickIndex) as [[T|] ->]; [|lia|by eexists|by eexists].
      apply int32_le. lia.
    + destruct (Hidx 0%Z) as [[T|] ->]; [|lia|by eexists|by eexists].
      destruct Cands; [done|]. cbn. lia.
  - intros r. unfold PlayMusicByPrefix.
    destruct (ResolveMusicByPrefix H st Prefix PickIndex bRandom)
      as [[Track|]|] eqn:HR; [| |done].
    + intros [= <-]. split; [apply start_or_crossfade_tag|]. right.
      unfold ResolveMusicByPrefix in HR.
      destruct (Catalog st) as [C|] eqn:HC; [|done].
      destruct (bool_decide _); [done|].
      assert (Some Track ∈ Candidates H C Prefix) as Hin.
      { destruct (_ && _); [by eapply index_of_Ok|].
        destruct bRandom; by eapply index_of_Ok. }
      apply list_elem_of_omap in Hin as (ChildTag & Hc & HM).
      exists C, ChildTag, Track. repeat (split; [done|]).
      intros MusicTag Hne HT. by apply PlayMusicByTag_start.
    + intros [= <-]. split; [done|by left].
Qed.

Lemma prefix_plays_like_tag_witness :
  let E := mkEngine (λ _, false) true None in
  let H := mkHost true None (λ _, one) (λ _ _, one)
                  (λ _, ["Music.Forest.Day"; "Music.Forest.Night"]) (λ _ _, 0%Z) in
  let C := mkCatalog {[ "Music.Forest.Night" := Some 71%positive ]} ∅ in
  let st := mkManager (Some C) "Music.Town" 0%N ∅ None None None
                      None None [] 0 1%positive in
  PlayMusicByPrefix E H "Music.Forest" one (-1) false st
  = Ok (start_or_crossfade E 71%positive one st)
  ∧ CurrentMusicTag (start_or_crossfade E 71%positive one st).1 = "Music.Town"
  ∧ PlayMusicByTag E "Music.Forest.Night" one st
    = (set_CurrentMusicTag "Music.Forest.Night"
         (start_or_crossfade E 71%positive one st).1,
       (start_or_crossfade E 71%positive one st).2).
Proof.
  intros E H C st.
  assert (PlayMusicByPrefix E H "Music.Forest" one (-1) false st
          = Ok (start_or_crossfade E 71%positive one st)) as HP by done.
  split; [exact HP|].
  destruct (proj2 (prefix_plays_like_tag E H "Music.Forest" one (-1) false st)
              _ HP) as [HT [Hn|(C' & Ch & T & HC & _ & HM & Hlike)]].
  - split; [exact HT|]. discriminate Hn.
  - split; [exact HT|]. done.
Defined.

(** *** Sound effects and voice logs *)

Lemma exec_play_silent (c : PlayCall) (st : Manager) :
  sounds st c = false → exec_play c st = Done (st, []).
Proof.
  destruct c as [[S_|] L V P|T L V P|[S_|] [Pa|] So V P|H [Vo|] D];
    cbn; try done.
  unfold PlaySFXByTag. intros HS%bool_decide_eq_false_1.
  destruct (GetSFXByTag st T); [|done]. exfalso. apply HS. by eexists.
Qed.

Lemma exec_play_sounds (c : PlayCall) (st : Manager) (i : nat) (AC : Component) :
  (Z.of_nat (length (SFXPool st)) < 2 ^ 31)%Z →
  PoolIndex st = Z.of_nat i → SFXPool st !! i = Some AC →
  sounds st c = true → finds_world c = true →
  ∃ calls,
    exec_play c st
    = Done (set_PoolIndex (Z.of_nat (S i `mod` length (SFXPool st))) st, calls)
    ∧ played calls = [AC].
Proof.
  intros HN Hi HAC HS HW.
  pose proof (AudioProps.GetPooledSFX_at st i AC HN Hi HAC) as HG.
  destruct c as [[S_|] L V P|T L V P|[S_|] [Pa|] So V P|H [Vo|] D];
    cbn in *; try done.
  - rewrite HG. by eexists.
  - unfold PlaySFXByTag. destruct (GetSFXByTag st T) as [S_|]; [|done].
    cbn. rewrite HG. by eexists.
  - rewrite HG. by eexists.
  - rewrite HG, HW. eexists. split; [done|].
    unfold played, duck. rewrite omap_app. by destruct (MusicAC st).
Qed.

Lemma set_PoolIndex_same (st : Manager) (i : Z) :
  PoolIndex st = i → set_PoolIndex i st = st.
Proof. intros <-. by destruct st. Qed.

Lemma played_app (a b : list AudioCall) :
  played (a ++ b) = played a ++ played b.
Proof. unfold played. apply omap_app. Qed.

Lemma sounds_Catalog (st st0 : Manager) (c : PlayCall) :
  Catalog st = Catalog st0 → sounds st c = sounds st0 c.
Proof.
  intros HC. destruct c as [S_ L V P|T L V P|S_ Pa So V P|H Vo D]; try done.
  cbn. unfold GetSFXByTag. by rewrite HC.
Qed.

(** X28.  One round robin for all that plays.  With the pool index in
    range and a world for every voice log, any sequence of
    [PlaySFXAtLocation], [PlaySFXByTag], [PlaySFXAttached] and
    [PlayVoiceLog] runs to its end; the calls that have something to play
    take the pooled components one after the other from [PoolIndex] on,
    wrapping around, and the calls that have nothing to play take none.  At
    the end the index has moved by the number of calls that played, and
    nothing else of the manager has changed. *)
Theorem plays_share_one_round_robin (l : list PlayCall) (st : Manager)
    (i : nat) :
  (Z.of_nat (length (SFXPool st)) < 2 ^ 31)%Z →
  PoolIndex st = Z.of_nat i → i < length (SFXPool st) →
  Forall (λ c, finds_world c = true) l →
  let N := length (SFXPool st) in
  let k := length (filter (λ c, sounds st c = true) l) in
  ∃ calls,
    run_plays l st = Done (set_PoolIndex (Z.of_nat ((i + k) `mod` N)) st, calls)
    ∧ Some <$> played calls = (λ j, SFXPool st !! ((i + j) `mod` N)) <$> seq 0 k.
Proof.
  intros HN Hi Hlt HW. cbn zeta.
  (* the calls that play are counted on the state at the start: a play
     changes the pool index only *)
  assert (∀ st0 : Manager,
            Catalog st = Catalog st0 →
            ∃ calls,
              run_plays l st
              = Done (set_PoolIndex
                        (Z.of_nat ((i + length (filter (λ c, sounds st0 c = true) l))
                                   `mod` length (SFXPool st))) st, calls)
              ∧ Some <$> played calls
                = (λ j, SFXPool st !! ((i + j) `mod` length (SFXPool st)))
                  <$> seq 0 (length (filter (λ c, sounds st0 c = true) l)))
    as Hgen; [|by apply Hgen].
  intros st0. revert st i HN Hi Hlt.
  induction HW as [|c l Hc HW IH]; intros st i HN Hi Hlt HC.
  - cbn. exists []. rewrite Nat.add_0_r, Nat.mod_small by done.
    by rewrite set_PoolIndex_same.
  - rewrite filter_cons. cbn [run_plays].
    pose proof (sounds_Catalog st st0 c HC) as HSc.
    destruct (sounds st0 c) eqn:HS.
    + rewrite decide_True by done.
      destruct (lookup_lt_is_Some_2 _ _ Hlt) as [AC HAC].
      destruct (exec_play_sounds c st i AC HN Hi HAC HSc Hc) as (c1 & -> & Hp1).
      set (N := length (SFXPool st)).
      assert (S i `mod` N < N) as Hlt1
        by (apply Nat.mod_upper_bound; unfold N; lia).
      destruct (IH (set_PoolIndex (Z.of_nat (S i `mod` N)) st) (S i `mod` N)
                  HN eq_refl Hlt1 HC) as (c2 & -> & Hp2).
      cbn [SFXPool set_PoolIndex] in Hp2 |- *. fold N in Hp2 |- *.
      eexists. split.
      * f_equal. f_equal. unfold set_PoolIndex. cbn. f_equal. f_equal.
        rewrite Nat.Div0.add_mod_idemp_l. f_equal. lia.
      * rewrite played_app, fmap_app, Hp1, Hp2. cbn [length seq fmap list_fmap].
        rewrite Nat.add_0_r, (Nat.mod_small i N) by done. cbn. rewrite HAC.
        f_equal. change (seq 1 ?n) with (seq (S 0) n).
        rewrite <- fmap_S_seq, <- list_fmap_compose. apply list_fmap_ext.
        intros _ j _. cbn. f_equal.
        rewrite Nat.Div0.add_mod_idemp_l. f_equal. lia.
    + rewrite decide_False by done.
      rewrite (exec_play_silent c st) by done.
      destruct (IH st i HN Hi Hlt HC) as (c2 & -> & Hp2).
      by exists c2.
Qed.

Lemma plays_share_one_round_robin_witness :
  let H := mkHost true None (λ _, one) (λ _ _, one) (λ _, []) (λ _ _, 0%Z) in
  let st := mkManager None EmptyString 0%N ∅ None None (Some 9%positive)
                      None None [1; 2; 3]%positive 2 10%positive in
  let l := [Call_PlaySFXAtLocation (Some 50%positive) ZeroVector one one;
            Call_PlaySFXByTag "SFX.Unknown" ZeroVector one one;
            Call_PlayVoiceLog H (Some 60%positive) zero] in
  ((Z.of_nat (length (SFXPool st)) < 2 ^ 31)%Z ∧ PoolIndex st = Z.of_nat 2
   ∧ 2 < length (SFXPool st) ∧ Forall (λ c, finds_world c = true) l)
  ∧ ∃ calls, run_plays l st = Done (set_PoolIndex 1 st, calls)
             ∧ played calls = [3; 1]%positive.
Proof.
  intros H st l.
  assert (Forall (λ c, finds_world c = true) l) as HW by (by repeat constructor).
  split; [split; [done|split; [done|split; [cbn; lia|done]]]|].
  destruct (plays_share_one_round_robin l st 2 ltac:(done) eq_refl
              ltac:(cbn; lia) HW) as (calls & Hr & Hp).
  exists calls. split; [exact Hr|].
  apply (inj (fmap Some)). exact Hp.
Defined.

(** X29.  A voice log lowers the music and, when it plays, schedules the
    restore.  When [PlayVoiceLog] with a voice returns, its requests start
    with the music component, if there is one, being lowered.  When the pool
    is empty that is all of them: the voice is not played and no restore is
    scheduled.  Otherwise the requests end with the duck timer being cleared
    and set to the duration of the voice plus 0.1f, and [RestoreAfterVO]
    then brings the same music component back to full volume. *)
Theorem voice_log_ducks_and_restores (H : Host) (V : Sound) (DuckDb : float)
    (st : Manager) (r : Manager * list AudioCall) :
  PlayVoiceLog H (Some V) DuckDb st = Done r →
  MusicAC r.1 = MusicAC st
  ∧ (Num st = 0%Z → r = (st, duck H DuckDb st))
  ∧ (Num st ≠ 0%Z →
     ∃ AC, at_index (SFXPool st) (PoolIndex st) = Some AC
           ∧ r.2 = duck H DuckDb st
                   ++ [SetWorldLocation AC
                         (default ZeroVector (ListenerPawnLocation H));
                       Of (SetSound AC (Some V)); Play AC;
                       ClearTimer_DuckTimer;
                       SetTimer_DuckTimer (add (GetDuration H V) tenth)])
  ∧ (∀ M, MusicAC st = Some M →
          duck H DuckDb st
          = [AdjustVolume M quarter (Pow H ten (div DuckDb twenty))]
          ∧ RestoreAfterVO r.1 = [AdjustVolume M quarter one])
  ∧ (MusicAC st = None → duck H DuckDb st = [] ∧ RestoreAfterVO r.1 = []).
Proof.
  unfold PlayVoiceLog, GetPooledSFX.
  destruct (bool_decide (Num st = 0%Z)) eqn:HN.
  - apply bool_decide_eq_true_1 in HN. intros [= <-]. cbn [fst snd].
    split; [done|]. split; [done|]. split; [done|].
    unfold duck, RestoreAfterVO. split; [by intros M ->|by intros ->].
  - apply bool_decide_eq_false_1 in HN.
    destruct (at_index (SFXPool st) (PoolIndex st)) as [AC|]; [|done].
    destruct (HasWorld H); [|done]. intros [= <-]. cbn [fst snd].
    split; [done|]. split; [done|]. split; [by exists AC|].
    unfold duck, RestoreAfterVO. cbn. split; [by intros M ->|by intros ->].
Qed.

Lemma voice_log_ducks_and_restores_witness :
  let H := mkHost true None (λ _, one) (λ _ _, one) (λ _, []) (λ _ _, 0%Z) in
  let st := mkManager None EmptyString 0%N ∅ None None (Some 9%positive)
                      None None [] 0 10%positive in
  let r := (st, [AdjustVolume 9%positive quarter one]) in
  PlayVoiceLog H (Some 60%positive) zero st = Done r
  ∧ r.2 = duck H zero st ∧ RestoreAfterVO r.1 = [AdjustVolume 9%positive quarter one].
Proof.
  intros H st r.
  assert (PlayVoiceLog H (Some 60%positive) zero st = Done r) as HP by done.
  split; [exact HP|].
  destruct (voice_log_ducks_and_restores H 60%positive zero st r HP)
    as (_ & _ & _ & HM & _).
  destruct (HM 9%positive eq_refl) as [Hd HR]. split; [|exact HR].
  by rewrite Hd.
Defined.

(** *** The music components over time *)

Lemma EnsureMusicComponent_spec (st : Manager) :
  let r := EnsureMusicComponent st in
  music_components r.1 ≡ₚ music_components st ++ registered r.2
  ∧ is_Some (MusicAC r.1)
  ∧ (∀ M, MusicAC st = Some M → MusicAC r.1 = Some M)
  ∧ ActiveMusic r.1 = ActiveMusic st ∧ InactiveMusic r.1 = InactiveMusic st.
Proof.
  destruct st as [C T S_ MS A I M MC DM P PI NO].
  unfold EnsureMusicComponent, NewAudioComponent, class_override,
    music_components.
  destruct M as [m|]; cbn.
  - rewrite app_nil_r. split; [done|]. split; [by eexists|done].
  - destruct MC; cbn; (split; [|split; [by eexists|done]]);
      by rewrite ?app_nil_r, <- ?app_assoc.
Qed.

Lemma start_or_crossfade_components (E : Engine) (Track : Sound) (f : float)
    (st : Manager) :
  let r := start_or_crossfade E Track f st in
  music_components r.1 ≡ₚ music_components st ++ registered r.2.
Proof.
  cbn zeta. unfold start_or_crossfade.
  destruct (EnsureMusicComponents_spec st)
    as ((a & i & Ha & Hi) & _ & _ & HP & _ & _ & _ & _ & HM & _).
  pose proof (CrossfadeTo_spec E Track f f one (EnsureMusicComponents st).1)
    as HX.
  cbn zeta in HX. rewrite EnsureMusicComponents_again in HX. cbn [fst snd] in HX.
  destruct (EnsureMusicComponents st) as [st1 c0]. cbn [fst snd] in *.
  rewrite Ha, Hi in *. cbn [is_playing].
  destruct (negb (IsPlaying E a) && negb (IsPlaying E i)).
  - cbn [fst snd]. rewrite registered_app. cbn. by rewrite app_nil_r.
  - destruct (CrossfadeTo E Track f f one st1) as [st2 c1]. cbn [fst snd] in *.
    destruct HX as (HA & HI & -> & _ & _ & _ & HM2 & _).
    rewrite !registered_app.
    assert (registered (if IsPlaying E a then [FadeOut a f zero] else []) = [])
      as -> by (by destruct (IsPlaying E a)).
    cbn [registered omap list_omap app]. rewrite ?app_nil_r, <- HP.
    unfold music_components.
    rewrite HA, HI, Ha, Hi, HM2. cbn. apply Permutation_swap.
Qed.

Lemma exec_music_components (Ec : Engine * MusicCall) (st : Manager) :
  music_components (exec_music Ec st).1
  ≡ₚ music_components st ++ registered (exec_music Ec st).2.
Proof.
  destruct Ec as [E [T f|H P f i b|S_ f|[T|] o i v]]; unfold exec_music;
    cbn [fst snd].
  - unfold PlayMusicByTag.
    destruct (bool_decide (T = CurrentMusicTag st)) eqn:HT;
      [by rewrite app_nil_r|].
    apply bool_decide_eq_false_1 in HT.
    destruct (ResolveMusicByTag st T) as [Track|] eqn:HR;
      [|by rewrite app_nil_r].
    pose proof (PlayMusicByTag_start E T f Track st HT HR) as HS.
    unfold PlayMusicByTag in HS. rewrite bool_decide_eq_false_2, HR in HS by done.
    rewrite HS. apply start_or_crossfade_components.
  - unfold PlayMusicByPrefix.
    destruct (ResolveMusicByPrefix H st P i b) as [[Track|]|];
      [|by rewrite app_nil_r|by rewrite app_nil_r].
    apply start_or_crossfade_components.
  - unfold PlayMusicState.
    destruct (bool_decide (CurrentState st = S_)); [by rewrite app_nil_r|].
    destruct (EnsureMusicComponent_spec (set_CurrentState S_ st))
      as (HP & [M HM] & _).
    destruct (EnsureMusicComponent (set_CurrentState S_ st)) as [st1 c0].
    cbn [fst snd] in *. rewrite HM.
    destruct (MusicByState st1 !! S_) as [NewTrack|]; cbn [fst snd]; [|done].
    rewrite registered_app.
    assert (registered ((if IsPlaying E M then [FadeOut M f zero] else [])
                        ++ [SetSound M NewTrack; FadeIn M f one]) = [])
      as -> by (by destruct (IsPlaying E M)).
    by rewrite app_nil_r.
  - destruct (CrossfadeTo_spec E T o i v st) as (HA & HI & HC & _ & _ & _ & HM & _).
    destruct (EnsureMusicComponents_spec st)
      as ((a & n & Ha & Hn) & _ & _ & HP & _ & _ & _ & _ & HM1 & _).
    rewrite HC, !registered_app. rewrite Ha, Hn.
    assert (registered (if IsPlaying E a then [FadeOut a o zero] else []) = [])
      as -> by (by destruct (IsPlaying E a)).
    cbn [registered omap list_omap app]. rewrite ?app_nil_r, <- HP.
    unfold music_components.
    rewrite HA, HI, Ha, Hn, HM. cbn. apply Permutation_swap.
  - by rewrite app_nil_r.
Qed.

(** X30.  The music system holds at most three components, for good.
    Over any sequence of [PlayMusicByTag], [PlayMusicByPrefix],
    [PlayMusicState] and [CrossfadeTo], the music components held at the end
    are those held at the start and those registered on the way, each once;
    there are never more than three, so at most three components are ever
    registered, less those held at the start. *)
Theorem music_components_are_bounded (l : list (Engine * MusicCall))
    (st : Manager) :
  music_components (run_music l st).1
  ≡ₚ music_components st ++ registered (run_music l st).2
  ∧ length (music_components st) + length (registered (run_music l st).2) ≤ 3.
Proof.
  assert (music_components (run_music l st).1
          ≡ₚ music_components st ++ registered (run_music l st).2) as HP.
  { unfold run_music. revert st.
    induction l as [|Ec l IH]; intros st; cbn [StreamingExt.for_each].
    - by rewrite app_nil_r.
    - pose proof (exec_music_components Ec st) as H1.
      destruct (exec_music Ec st) as [st1 c1]. cbn [fst snd] in *.
      specialize (IH st1).
      destruct (StreamingExt.for_each exec_music l st1) as [st2 c2].
      cbn [fst snd] in *. rewrite registered_app, IH, H1.
      by rewrite app_assoc. }
  split; [exact HP|]. rewrite <- length_app, <- HP.
  unfold music_components.
  destruct (ActiveMusic _), (InactiveMusic _), (MusicAC _); cbn; lia.
Qed.

End AudioMore.
